(** * json-editor: the editor session of [src/core.js] and the engine it drives

    [src/core.js] defines the [JSONEditor] class: it asks the schema loader
    to resolve the schema, builds a validator and a root editor when the
    loader calls back, and guards its public methods with the [ready] flag.
    It also keeps the listeners of its events, the editors of the tree,
    the watchers of their paths and values attached to elements, and
    compiles templates.
    The validator ([validator.js]) and the schema loader
    ([schemaloader.js]) are imported by [core.js] but are separate files;
    they are modelled here from the specification and marked as such. *)

From Stdlib Require Import Ascii QArith Qround DecimalString DecimalNat.
From stdpp Require Import base option list strings gmap.

Set Warnings "-register-all".
Local Open Scope string_scope.
Local Open Scope list_scope.
Local Open Scope nat_scope.
Local Open Scope stdpp_scope.

(** ** JSON values *)

Module Json.

(** The six runtime kinds of a value. *)
Inductive kind := KNull | KBoolean | KNumber | KString | KArray | KObject.

#[global] Instance kind_eq_dec : EqDecision kind.
Proof. solve_decision. Defined.

(** A value: numbers are rationals, an object keeps its keys in insertion
    order. *)
Inductive json :=
| JNull
| JBool (b : bool)
| JNum (q : Q)
| JStr (s : string)
| JArr (items : list json)
| JObj (members : list (string * json)).

Definition kind_of (v : json) : kind :=
  match v with
  | JNull => KNull
  | JBool _ => KBoolean
  | JNum _ => KNumber
  | JStr _ => KString
  | JArr _ => KArray
  | JObj _ => KObject
  end.

(** [members !! key] of an object: the first member with that key. *)
Fixpoint assoc {A} (key : string) (l : list (string * A)) : option A :=
  match l with
  | [] => None
  | (k, a) :: l' => if decide (k = key) then Some a else assoc key l'
  end.

Definition has_key {A} (key : string) (l : list (string * A)) : bool :=
  bool_decide (is_Some (assoc key l)).

(** The names every object inherits from [Object.prototype].  A table
    kept in a plain object answers to them though it was never given
    them; the tables of [core.js] are read here at other names only. *)
Definition inherited : list string :=
  ["__proto__"; "constructor"; "hasOwnProperty"; "isPrototypeOf";
   "propertyIsEnumerable"; "toLocaleString"; "toString"; "valueOf";
   "__defineGetter__"; "__defineSetter__"; "__lookupGetter__"; "__lookupSetter__"].

Definition own_name (k : string) : bool :=
  negb (bool_decide (k ∈ inherited)).

(** Nesting depth of a value: a scalar has depth 0. *)
Fixpoint depth (v : json) : nat :=
  match v with
  | JArr items => S (list_max (map depth items))
  | JObj members => S (list_max (map (fun m => depth (snd m)) members))
  | _ => 0
  end.

(** Structural deep equality, numbers compared as rationals and objects
    member by member regardless of order. *)
Fixpoint eqb (a b : json) : bool :=
  match a, b with
  | JNull, JNull => true
  | JBool x, JBool y => Bool.eqb x y
  | JNum x, JNum y => Qeq_bool x y
  | JStr x, JStr y => bool_decide (x = y)
  | JArr xs, JArr ys =>
      (fix go (xs ys : list json) : bool :=
         match xs, ys with
         | [], [] => true
         | x :: xs', y :: ys' => eqb x y && go xs' ys'
         | _, _ => false
         end) xs ys
  | JObj xs, JObj ys =>
      Nat.eqb (length xs) (length ys) &&
      (fix go (xs : list (string * json)) : bool :=
         match xs with
         | [] => true
         | (k, x) :: xs' =>
             match assoc k ys with
             | Some y => eqb x y && go xs'
             | None => false
             end
         end) xs
  | _, _ => false
  end.

End Json.

(** ** The validator (validator.js)

    [core.js] imports [Validator] from [validator.js], which is a separate
    file of the repository; the engine below follows section 4.2 of the
    specification (the nine traversal steps, the error paths, the hard
    failures). *)

Module Validator.
Import Json.

(** Modelled from the spec: a token of an error path of [validator.js], a
    property name or an array index. *)
Inductive token := Key (name : string) | Index (i : nat).

#[global] Instance token_eq_dec : EqDecision token.
Proof. solve_decision. Defined.

(** Modelled from the spec: the Validation Error of [validator.js];
    [path] leads from the root of the value to the place of the mismatch,
    [property] is the failing keyword. *)
Record error := Error { path : list token; property : string; message : string }.

#[global] Instance error_eq_dec : EqDecision error.
Proof. solve_decision. Defined.

(** Modelled from the spec: the resolved Schema Node of [validator.js]
    (section 3).  It is the set of keyword values extracted from the
    document.  A keyword written twice is read at its first
    occurrence.  [Ref uri] is a lazy back-reference: a link by canonical
    URI into the Reference Table. *)
Inductive schema := Schema (keywords : list keyword)
with keyword :=
| Type_ (kinds : list kind)
| Enum (allowed : list json)
| Const (value : json)
| Minimum (q : Q)
| Maximum (q : Q)
| ExclusiveMinimum (strict : bool)
| ExclusiveMaximum (strict : bool)
| MultipleOf (q : Q)
| MinLength (n : nat)
| MaxLength (n : nat)
| Pattern (re : string)
| Format (name : string)
| Items (s : schema)
| MinItems (n : nat)
| MaxItems (n : nat)
| UniqueItems (b : bool)
| Properties (ps : list (string * schema))
| PatternProperties (ps : list (string * schema))
| AdditionalProperties (a : bool + schema)
| Required (keys : list string)
| MinProperties (n : nat)
| MaxProperties (n : nat)
| Dependencies (ds : list (string * (list string + schema)))
| AllOf (ss : list schema)
| OneOf (ss : list schema)
| AnyOf (ss : list schema)
| Not (s : schema)
| Ref (uri : string).

Definition keywords (s : schema) : list keyword :=
  match s with Schema kws => kws end.

(** Nesting depth of a schema node, links not followed. *)
Fixpoint schema_depth (s : schema) : nat :=
  match s with
  | Schema kws => S (list_max (map keyword_depth kws))
  end
with keyword_depth (k : keyword) : nat :=
  match k with
  | Items s | Not s | AdditionalProperties (inr s) => schema_depth s
  | Properties ps | PatternProperties ps =>
      list_max (map (fun d => schema_depth (snd d)) ps)
  | Dependencies ds =>
      list_max (map (fun d => match snd d with
                              | inr s => schema_depth s
                              | inl _ => 0
                              end) ds)
  | AllOf ss | OneOf ss | AnyOf ss => list_max (map schema_depth ss)
  | _ => 0
  end.

(** Reading a keyword of a node: [find_kw sel s] is the value of the first
    keyword of [s] that [sel] selects. *)
Fixpoint first_some {A} (sel : keyword → option A) (kws : list keyword) : option A :=
  match kws with
  | [] => None
  | k :: kws' =>
      match sel k with
      | Some a => Some a
      | None => first_some sel kws'
      end
  end.

Definition find_kw {A} (sel : keyword → option A) (s : schema) : option A :=
  first_some sel (keywords s).

Definition as_type k := match k with Type_ ks => Some ks | _ => None end.
Definition as_enum k := match k with Enum vs => Some vs | _ => None end.
Definition as_const k := match k with Const v => Some v | _ => None end.
Definition as_minimum k := match k with Minimum q => Some q | _ => None end.
Definition as_maximum k := match k with Maximum q => Some q | _ => None end.
Definition as_exclusive_minimum k := match k with ExclusiveMinimum b => Some b | _ => None end.
Definition as_exclusive_maximum k := match k with ExclusiveMaximum b => Some b | _ => None end.
Definition as_multiple_of k := match k with MultipleOf q => Some q | _ => None end.
Definition as_min_length k := match k with MinLength n => Some n | _ => None end.
Definition as_max_length k := match k with MaxLength n => Some n | _ => None end.
Definition as_pattern k := match k with Pattern re => Some re | _ => None end.
Definition as_format k := match k with Format f => Some f | _ => None end.
Definition as_items k := match k with Items s => Some s | _ => None end.
Definition as_min_items k := match k with MinItems n => Some n | _ => None end.
Definition as_max_items k := match k with MaxItems n => Some n | _ => None end.
Definition as_unique_items k := match k with UniqueItems b => Some b | _ => None end.
Definition as_properties k := match k with Properties ps => Some ps | _ => None end.
Definition as_pattern_properties k := match k with PatternProperties ps => Some ps | _ => None end.
Definition as_additional_properties k := match k with AdditionalProperties a => Some a | _ => None end.
Definition as_required k := match k with Required ks => Some ks | _ => None end.
Definition as_min_properties k := match k with MinProperties n => Some n | _ => None end.
Definition as_max_properties k := match k with MaxProperties n => Some n | _ => None end.
Definition as_dependencies k := match k with Dependencies ds => Some ds | _ => None end.
Definition as_all_of k := match k with AllOf ss => Some ss | _ => None end.
Definition as_one_of k := match k with OneOf ss => Some ss | _ => None end.
Definition as_any_of k := match k with AnyOf ss => Some ss | _ => None end.
Definition as_not k := match k with Not s => Some s | _ => None end.
Definition as_ref k := match k with Ref u => Some u | _ => None end.

(** Modelled from the spec: a hard failure of a validation run of
    [validator.js], as opposed to a Validation Result: a custom validator
    threw, a link has no entry in the Reference Table, or the recursion
    did not bottom out. *)
Inductive failure :=
| CustomValidatorThrew
| DanglingLink (uri : string)
| Overflow.

#[global] Instance failure_eq_dec : EqDecision failure.
Proof. solve_decision. Defined.

Inductive outcome (A : Type) :=
| Returned (a : A)
| Failed (f : failure).
Arguments Returned {A} a.
Arguments Failed {A} f.

Definition bind {A B} (m : outcome A) (k : A → outcome B) : outcome B :=
  match m with
  | Returned a => k a
  | Failed f => Failed f
  end.

Notation "'let*' x := m 'in' k" := (bind m (fun x => k))
  (at level 10, x name, m at level 100, k at level 200).

(** Run [f] over a list left to right; the first hard failure ends the run. *)
Fixpoint traverse {A B} (f : A → outcome B) (l : list A) : outcome (list B) :=
  match l with
  | [] => Returned []
  | a :: l' =>
      let* b := f a in
      let* bs := traverse f l' in
      Returned (b :: bs)
  end.

Definition collect {A} (f : A → outcome (list error)) (l : list A) : outcome (list error) :=
  let* ess := traverse f l in Returned (concat ess).

(** Modelled from the spec: a custom validator as [validator.js] calls
    it, a function of the node, the value and the path; [None] stands for
    the function throwing. *)
Definition custom_validator := schema → json → list token → option (list error).

Definition children (v : json) : list json :=
  match v with
  | JArr items => items
  | JObj members => map snd members
  | _ => []
  end.

Fixpoint unique (l : list json) : bool :=
  match l with
  | [] => true
  | x :: l' => negb (existsb (Json.eqb x) l') && unique l'
  end.

Definition is_integer (q : Q) : bool := Qeq_bool q (inject_Z (Qfloor q)).

Section Engine.

(** The host's regular-expression test (pattern, then text) and its
    table of format recognizers; a format with no recognizer is unknown. *)
Variable pattern_matches : string → string → bool.
Variable format_recognizer : string → option (string → bool).

(** The Reference Table of the resolved graph and the custom validators
    of this engine instance. *)
Variable table : gmap string schema.
Variable custom : list custom_validator.

(** *** The keyword checks, in traversal order *)

(** Modelled from the spec: step 1 of the traversal of [validator.js],
    [type]. *)
Definition check_type (s : schema) (v : json) (p : list token) : list error :=
  match find_kw as_type s with
  | Some kinds =>
      if bool_decide (kind_of v ∈ kinds) then []
      else [Error p "type" "value is not of an allowed type"]
  | None => []
  end.

(** Modelled from the spec: step 2 of the traversal of [validator.js],
    [enum] and [const], by structural deep equality. *)
Definition check_enum (s : schema) (v : json) (p : list token) : list error :=
  match find_kw as_enum s with
  | Some allowed =>
      if existsb (Json.eqb v) allowed then []
      else [Error p "enum" "value is not one of the enumerated values"]
  | None => []
  end.

Definition check_const (s : schema) (v : json) (p : list token) : list error :=
  match find_kw as_const s with
  | Some c =>
      if Json.eqb v c then []
      else [Error p "const" "value is not the constant"]
  | None => []
  end.

(** Modelled from the spec: step 3 of the traversal of [validator.js],
    the numeric keywords; [exclusiveMinimum] and [exclusiveMaximum] make
    the bound strict. *)
Definition check_numeric (s : schema) (v : json) (p : list token) : list error :=
  match v with
  | JNum x =>
      (match find_kw as_minimum s with
       | Some m =>
           let strict := default false (find_kw as_exclusive_minimum s) in
           if (if strict then Qle_bool x m else negb (Qle_bool m x))
           then [Error p (if strict then "exclusiveMinimum" else "minimum")
                       "value is below the minimum"]
           else []
       | None => []
       end) ++
      (match find_kw as_maximum s with
       | Some m =>
           let strict := default false (find_kw as_exclusive_maximum s) in
           if (if strict then Qle_bool m x else negb (Qle_bool x m))
           then [Error p (if strict then "exclusiveMaximum" else "maximum")
                       "value is above the maximum"]
           else []
       | None => []
       end) ++
      (match find_kw as_multiple_of s with
       | Some m =>
           if Qeq_bool m 0 || is_integer (x / m) then []
           else [Error p "multipleOf" "value is not a multiple"]
       | None => []
       end)
  | _ => []
  end.

(** Modelled from the spec: step 4 of the traversal of [validator.js],
    the string keywords; an unknown [format] is never an error. *)
Definition check_string (s : schema) (v : json) (p : list token) : list error :=
  match v with
  | JStr t =>
      (match find_kw as_min_length s with
       | Some n =>
           if String.length t <? n
           then [Error p "minLength" "value is too short"] else []
       | None => []
       end) ++
      (match find_kw as_max_length s with
       | Some n =>
           if n <? String.length t
           then [Error p "maxLength" "value is too long"] else []
       | None => []
       end) ++
      (match find_kw as_pattern s with
       | Some re =>
           if pattern_matches re t then []
           else [Error p "pattern" "value does not match the pattern"]
       | None => []
       end) ++
      (match find_kw as_format s with
       | Some name =>
           match format_recognizer name with
           | Some recognizes =>
               if recognizes t then []
               else [Error p "format" "value does not have the format"]
           | None => []
           end
       | None => []
       end)
  | _ => []
  end.

(** The recursive checks take the validator itself as [rec]. *)
Section Node.
Variable rec : schema → json → list token → outcome (list error).

(** Modelled from the spec: the [items] recursion of [validator.js],
    one descent per element, the path extended by its index. *)
Fixpoint each_item (sub : schema) (p : list token) (i : nat) (items : list json)
  : outcome (list error) :=
  match items with
  | [] => Returned []
  | x :: items' =>
      let* e := rec sub x (p ++ [Index i]) in
      let* es := each_item sub p (S i) items' in
      Returned (e ++ es)
  end.

(** Modelled from the spec: step 5 of the traversal of [validator.js],
    the array keywords. *)
Definition check_array (s : schema) (v : json) (p : list token) : outcome (list error) :=
  match v with
  | JArr items =>
      let* e_items :=
        match find_kw as_items s with
        | Some sub => each_item sub p 0 items
        | None => Returned []
        end in
      Returned
        (e_items ++
         (match find_kw as_min_items s with
          | Some n =>
              if length items <? n
              then [Error p "minItems" "value has too few items"] else []
          | None => []
          end) ++
         (match find_kw as_max_items s with
          | Some n =>
              if n <? length items
              then [Error p "maxItems" "value has too many items"] else []
          | None => []
          end) ++
         (match find_kw as_unique_items s with
          | Some true =>
              if unique items then []
              else [Error p "uniqueItems" "items are not unique"]
          | _ => []
          end))
  | _ => Returned []
  end.

(** Modelled from the spec: the [properties] recursion of
    [validator.js], one descent per declared key present in the value,
    the path extended by the property name. *)
Definition check_properties (ps : list (string * schema))
    (members : list (string * json)) (p : list token) : outcome (list error) :=
  collect (fun d : string * schema =>
             match assoc (fst d) members with
             | Some x => rec (snd d) x (p ++ [Key (fst d)])
             | None => Returned []
             end) ps.

Definition check_pattern_properties (pps : list (string * schema))
    (members : list (string * json)) (p : list token) : outcome (list error) :=
  collect (fun d : string * schema =>
             collect (fun m : string * json =>
                        if pattern_matches (fst d) (fst m)
                        then rec (snd d) (snd m) (p ++ [Key (fst m)])
                        else Returned []) members) pps.

(** A member is additional when no declared property names it and no
    [patternProperties] pattern matches its key. *)
Definition additional (s : schema) (key : string) : bool :=
  negb (has_key key (default [] (find_kw as_properties s))) &&
  negb (existsb (fun d : string * schema => pattern_matches (fst d) key)
          (default [] (find_kw as_pattern_properties s))).

Definition check_additional_properties (s : schema) (a : bool + schema)
    (members : list (string * json)) (p : list token) : outcome (list error) :=
  collect (fun m : string * json =>
             if additional s (fst m) then
               match a with
               | inl true => Returned []
               | inl false =>
                   Returned [Error (p ++ [Key (fst m)]) "additionalProperties"
                                   "no additional properties allowed"]
               | inr sub => rec sub (snd m) (p ++ [Key (fst m)])
               end
             else Returned []) members.

(** Modelled from the spec: [required] in [validator.js], one error per
    missing key, at the missing key's path. *)
Definition check_required (keys : list string) (members : list (string * json))
    (p : list token) : list error :=
  flat_map (fun k => if has_key k members then []
                     else [Error (p ++ [Key k]) "required"
                                 "object is missing a required property"]) keys.

Definition check_dependencies (ds : list (string * (list string + schema)))
    (v : json) (members : list (string * json)) (p : list token)
  : outcome (list error) :=
  collect (fun d : string * (list string + schema) =>
             if has_key (fst d) members then
               match snd d with
               | inl keys =>
                   Returned
                     (flat_map (fun k => if has_key k members then []
                                         else [Error (p ++ [Key k]) "dependencies"
                                                     "object is missing a dependency"])
                        keys)
               | inr sub => rec sub v p
               end
             else Returned []) ds.

(** Modelled from the spec: step 6 of the traversal of [validator.js],
    the object keywords. *)
Definition check_object (s : schema) (v : json) (p : list token) : outcome (list error) :=
  match v with
  | JObj members =>
      let* e_props :=
        match find_kw as_properties s with
        | Some ps => check_properties ps members p
        | None => Returned []
        end in
      let* e_pattern :=
        match find_kw as_pattern_properties s with
        | Some pps => check_pattern_properties pps members p
        | None => Returned []
        end in
      let* e_additional :=
        match find_kw as_additional_properties s with
        | Some a => check_additional_properties s a members p
        | None => Returned []
        end in
      let e_required :=
        match find_kw as_required s with
        | Some keys => check_required keys members p
        | None => []
        end in
      let e_min :=
        match find_kw as_min_properties s with
        | Some n =>
            if length members <? n
            then [Error p "minProperties" "object has too few properties"] else []
        | None => []
        end in
      let e_max :=
        match find_kw as_max_properties s with
        | Some n =>
            if n <? length members
            then [Error p "maxProperties" "object has too many properties"] else []
        | None => []
        end in
      let* e_deps :=
        match find_kw as_dependencies s with
        | Some ds => check_dependencies ds v members p
        | None => Returned []
        end in
      Returned (e_props ++ e_pattern ++ e_additional ++ e_required ++
                e_min ++ e_max ++ e_deps)
  | _ => Returned []
  end.

(** A branch passes when it reports no error. *)
Definition passing (branches : list (list error)) : nat :=
  length (filter (fun es => es = []) branches).

(** Modelled from the spec: step 7 of the traversal of [validator.js],
    the combinators: [allOf] reports the errors of every branch,
    [oneOf] a synthetic error and the branch errors when no branch
    passes and an ambiguous match when several do, [anyOf] a synthetic
    error and the branch errors when none passes, [not] an error when
    the sub-schema passes. *)
Definition check_all_of (s : schema) (v : json) (p : list token) : outcome (list error) :=
  match find_kw as_all_of s with
  | Some ss => collect (fun sub => rec sub v p) ss
  | None => Returned []
  end.

Definition check_one_of (s : schema) (v : json) (p : list token) : outcome (list error) :=
  match find_kw as_one_of s with
  | Some ss =>
      let* branches := traverse (fun sub => rec sub v p) ss in
      Returned
        (match passing branches with
         | 0 => Error p "oneOf" "value matches no branch" :: concat branches
         | 1 => []
         | _ => [Error p "oneOf" "ambiguous match"]
         end)
  | None => Returned []
  end.

Definition check_any_of (s : schema) (v : json) (p : list token) : outcome (list error) :=
  match find_kw as_any_of s with
  | Some ss =>
      let* branches := traverse (fun sub => rec sub v p) ss in
      Returned
        (match passing branches with
         | 0 => Error p "anyOf" "value matches no branch" :: concat branches
         | _ => []
         end)
  | None => Returned []
  end.

Definition check_not (s : schema) (v : json) (p : list token) : outcome (list error) :=
  match find_kw as_not s with
  | Some sub =>
      let* es := rec sub v p in
      Returned (match es with
                | [] => [Error p "not" "value matches the forbidden schema"]
                | _ => []
                end)
  | None => Returned []
  end.

(** Modelled from the spec: step 8 of the traversal of [validator.js]:
    a lazy back-reference is dereferenced through the Reference Table
    and the target validated against the same value. *)
Definition check_ref (s : schema) (v : json) (p : list token) : outcome (list error) :=
  match find_kw as_ref s with
  | Some uri =>
      match table !! uri with
      | Some target => rec target v p
      | None => Failed (DanglingLink uri)
      end
  | None => Returned []
  end.

(** Modelled from the spec: step 9 of the traversal of [validator.js]:
    the custom validators, in registration order, their errors
    appended verbatim. *)
Definition run_custom (s : schema) (v : json) (p : list token) : outcome (list error) :=
  collect (fun check : custom_validator =>
             match check s v p with
             | Some es => Returned es
             | None => Failed CustomValidatorThrew
             end) custom.

(** Modelled from the spec: the validation of one node in
    [validator.js], the nine steps in order.  After a [type] error the
    kind-specific groups 3 to 6 are skipped; the kind-agnostic
    keywords still run. *)
Definition validate_node (s : schema) (v : json) (p : list token) : outcome (list error) :=
  let e_type := check_type s v p in
  let e_enum := check_enum s v p ++ check_const s v p in
  let* e_kind :=
    match e_type with
    | [] =>
        let* e_array := check_array s v p in
        let* e_object := check_object s v p in
        Returned (check_numeric s v p ++ check_string s v p ++ e_array ++ e_object)
    | _ => Returned []
    end in
  let* e_all := check_all_of s v p in
  let* e_one := check_one_of s v p in
  let* e_any := check_any_of s v p in
  let* e_not := check_not s v p in
  let* e_ref := check_ref s v p in
  let* e_custom := run_custom s v p in
  Returned (e_type ++ e_enum ++ e_kind ++ e_all ++ e_one ++ e_any ++ e_not ++
            e_ref ++ e_custom).
End Node.

(** Modelled from the spec: the recursion of [validator.js], [fuel]
    bounding its depth. *)
Fixpoint validate_schema (fuel : nat) (s : schema) (v : json) (p : list token)
  : outcome (list error) :=
  match fuel with
  | 0 => Failed Overflow
  | S fuel' => validate_node (validate_schema fuel') s v p
  end.

End Engine.

(** [child_of v tok c]: the token [tok] leads from [v] to its child [c]. *)
Definition child_of (v : json) (tok : token) (c : json) : Prop :=
  match v, tok with
  | JObj members, Key k => (k, c) ∈ members
  | JArr items, Index i => items !! i = Some c
  | _, _ => False
  end.

(** [errors_under p es]: every error of [es] lies at [p] or below it. *)
Definition errors_under (p : list token) (es : list error) : Prop :=
  Forall (fun e => p `prefix_of` path e) es.

(** *** Well-formed resolved graphs *)

(** The sub-schemas a node validates against the same value ... *)
Definition unguarded (s : schema) : list schema :=
  default [] (find_kw as_all_of s) ++
  default [] (find_kw as_one_of s) ++
  default [] (find_kw as_any_of s) ++
  option_list (find_kw as_not s) ++
  omap (fun d : string * (list string + schema) =>
          match snd d with inr sub => Some sub | inl _ => None end)
       (default [] (find_kw as_dependencies s)).

(** ... and those it validates against a child of the value. *)
Definition guarded (s : schema) : list schema :=
  option_list (find_kw as_items s) ++
  map snd (default [] (find_kw as_properties s)) ++
  map snd (default [] (find_kw as_pattern_properties s)) ++
  match find_kw as_additional_properties s with
  | Some (inr sub) => [sub]
  | _ => []
  end.

Definition link (s : schema) : option string := find_kw as_ref s.

(** [linked rank tbl top r s]: every link in [s] has an entry in the
    table, and a link the validator follows without descending into the
    value leads to an entry of rank below [r]; after a descent any rank
    below [top] is allowed. *)
Inductive linked (rank : string → nat) (tbl : gmap string schema) (top : nat)
  : nat → schema → Prop :=
| linked_node r s :
    (∀ sub, sub ∈ unguarded s → linked rank tbl top r sub) →
    (∀ sub, sub ∈ guarded s → linked rank tbl top top sub) →
    (∀ u, link s = Some u → ∃ t, tbl !! u = Some t ∧ rank u < r) →
    linked rank tbl top r s.

(** A resolved graph is well formed when no link dangles and the entries
    of the table can be ranked so that links followed on the same value
    go strictly down: a cycle of links always passes through a descent
    into the value. *)
Definition well_formed (root : schema) (tbl : gmap string schema) : Prop :=
  ∃ rank : string → nat,
    linked rank tbl (size tbl) (size tbl) root ∧
    ∀ u t, tbl !! u = Some t →
           rank u < size tbl ∧ linked rank tbl (size tbl) (rank u) t.

(** What a hard failure of a run may be: only a custom validator that
    threw on some input. *)
Definition custom_threw (custom : list custom_validator) (f : failure) : Prop :=
  f = CustomValidatorThrew ∧
  ∃ check s v p, check ∈ custom ∧ check s v p = None.

Definition within {A} (F : failure → Prop) (o : outcome A) : Prop :=
  match o with
  | Returned _ => True
  | Failed f => F f
  end.

(** The host environment of an engine: regular expressions, formats and
    [JSON.stringify] on a schema. *)
Record host := Host {
  pattern_matches : string → string → bool;
  format_recognizer : string → option (string → bool);
  stringify : schema → string
}.

(** Modelled from the spec: the [Validator] object of [validator.js]: the
    resolved graph (root node and Reference Table) and the custom
    validators captured at construction. *)
Record t := Validator {
  root : schema;
  table : gmap string schema;
  custom_validators : list custom_validator
}.

(** The deepest node of the graph. *)
Definition max_depth (vd : t) : nat :=
  Nat.max (schema_depth (root vd))
          (list_max (map (fun e => schema_depth (snd e)) (map_to_list (table vd)))).

(** A recursion depth no run on a well-formed graph exceeds: between two
    descents into the value a run passes each table entry at most once. *)
Definition budget (vd : t) (v : json) : nat :=
  S ((S (Json.depth v)) * ((S (size (table vd))) * (S (max_depth vd)))).

(** Modelled from the spec: [Validator.validate(value)] of
    [validator.js]; the root call starts with the empty path. *)
Definition validate (h : host) (vd : t) (v : json) : outcome (list error) :=
  validate_schema (pattern_matches h) (format_recognizer h) (table vd)
    (custom_validators vd) (budget vd v) (root vd) v [].

End Validator.


(** ** The schema loader (schemaloader.js)

    [core.js] imports [SchemaLoader] from [schemaloader.js], which is a
    separate file of the repository; the loader below follows sections
    4.1 and 5 of the specification: the Reference Table with its pending
    placeholders, single-flight fetches, subscribers, and the fan-in that
    invokes [onResolved].  References are not inlined: each stays a link
    by canonical URI into the table (section 3), which the validator
    follows when it validates, so a cycle of references needs no special
    care to end the traversal. *)

Module Loader.
Import Json.

(** Modelled from the spec: the depth-first traversal of
    [schemaloader.js] for [$ref] keywords: the reference texts of a raw
    schema document, in document order. *)
Fixpoint refs_of (v : json) : list string :=
  match v with
  | JArr items => flat_map refs_of items
  | JObj members =>
      flat_map (fun m : string * json =>
                  match decide (fst m = "$ref"), snd m with
                  | left _, JStr r => [r]
                  | _, _ => refs_of (snd m)
                  end) members
  | _ => []
  end.

(** Modelled from the spec: the in-memory JSON-pointer lookup of
    [schemaloader.js]; a pointer is its list of tokens. *)
Fixpoint lookup_pointer (ptr : list string) (v : json) : option json :=
  match ptr with
  | [] => Some v
  | tok :: ptr' =>
      match v with
      | JObj members =>
          match assoc tok members with
          | Some sub => lookup_pointer ptr' sub
          | None => None
          end
      | JArr items =>
          match NilEmpty.uint_of_string tok with
          | Some i =>
              match items !! Nat.of_uint i with
              | Some sub => lookup_pointer ptr' sub
              | None => None
              end
          | None => None
          end
      | _ => None
      end
  end.

(** Modelled from the spec: what the fetch capability injected into
    [schemaloader.js] hands back for one document. *)
Inductive fetch_result :=
| Fetched (doc : json)
| FetchError
| MalformedDocument.

(** Modelled from the spec: an entry of the Reference Table of
    [schemaloader.js]: fetch in progress, or the document. *)
Inductive entry :=
| Pending
| Resolved (doc : json).

Inductive resolution_error :=
| DanglingRef (uri : string) (ptr : list string)
| FetchFailed (uri : string)
| Malformed (uri : string)
| InvalidRoot.

(** Modelled from the spec: the state of one [load] call of
    [schemaloader.js].  [fetched] logs every invocation of the
    fetch capability, oldest first; [waiting] holds the references that
    wait for a pending document; [resolved_calls] counts the invocations
    of [onResolved]; [failure] is the resolution error reported, if any. *)
Record state := State {
  table : gmap string entry;
  fetched : list string;
  waiting : list (string * list string);
  resolved_calls : nat;
  failure : option resolution_error
}.

Definition fail (e : resolution_error) (st : state) : state :=
  State (table st) (fetched st) (waiting st) (resolved_calls st)
        (Some (default e (failure st))).

Definition is_pending (e : entry) : bool :=
  match e with Pending => true | Resolved _ => false end.

(** Is a fetch still outstanding? *)
Definition outstanding (st : state) : bool :=
  existsb (fun e : string * entry => is_pending (snd e)) (map_to_list (table st)).

Section Resolution.

(** RFC 3986 resolution of a reference text against the base URI of the
    document it stands in: the canonical URI of the target document and
    the tokens of the fragment's JSON pointer. *)
Variable canonical : string → string → string * list string.

(** Modelled from the spec: the resolution step of [schemaloader.js]
    for one reference met by the traversal of the document at [base].  Its
    target document is looked up in the Reference Table: resolved, the
    entry is reused and the pointer looked up in memory; pending, the
    reference subscribes; absent, a fetch is issued and the placeholder
    recorded.  A reference back to a document that is already in the
    table, as in a cycle of documents, finds its entry and stays a link
    into the table.  After a resolution error nothing more is done. *)
Definition visit (base : string) (st : state) (r : string) : state :=
  match failure st with
  | Some _ => st
  | None =>
      let target := canonical base r in
      match table st !! fst target with
      | Some (Resolved doc) =>
          match lookup_pointer (snd target) doc with
          | Some _ => st
          | None => fail (DanglingRef (fst target) (snd target)) st
          end
      | Some Pending =>
          State (table st) (fetched st) (waiting st ++ [target])
                (resolved_calls st) (failure st)
      | None =>
          State (<[fst target := Pending]> (table st))
                (fetched st ++ [fst target]) (waiting st ++ [target])
                (resolved_calls st) (failure st)
      end
  end.

Definition scan (base : string) (doc : json) (st : state) : state :=
  foldl (visit base) st (refs_of doc).

(** Modelled from the spec: the resumption of subscribers in
    [schemaloader.js] when a document has arrived; a pointer that leads
    nowhere in it is a dangling reference. *)
Definition resume (uri : string) (doc : json) (st : state) : state :=
  let mine := filter (fun w : string * list string => fst w = uri) (waiting st) in
  let others := filter (fun w : string * list string => fst w ≠ uri) (waiting st) in
  let st' := State (table st) (fetched st) others (resolved_calls st) (failure st) in
  foldl (fun st w =>
           match lookup_pointer (snd w) doc with
           | Some _ => st
           | None => fail (DanglingRef (fst w) (snd w)) st
           end) st' mine.

(** Modelled from the spec: the fan-in of [schemaloader.js]:
    [onResolved] is invoked when no error was met and no fetch is
    outstanding. *)
Definition settle (st : state) : state :=
  match failure st with
  | Some _ => st
  | None =>
      if outstanding st then st
      else State (table st) (fetched st) (waiting st)
                 (S (resolved_calls st)) (failure st)
  end.

(** Modelled from the spec: [load(rootSchema, onResolved, baseURI, ...)]
    of [schemaloader.js]: an object or boolean is the root document
    itself, a string names the document to fetch first. *)
Definition load (base : string) (root_schema : json) : state :=
  let st0 := State ∅ [] [] 0 None in
  match root_schema with
  | JObj _ | JBool _ =>
      settle (scan base root_schema
                (State {[base := Resolved root_schema]} [] [] 0 None))
  | JStr r => settle (visit base st0 r)
  | _ => fail InvalidRoot st0
  end.

(** Modelled from the spec: the completion of the fetch of [uri] in
    [schemaloader.js].  Only an outstanding fetch completes; after a resolution error the attempt is abandoned and
    the result dropped. *)
Definition complete (uri : string) (res : fetch_result) (st : state) : state :=
  match failure st, table st !! uri with
  | None, Some Pending =>
      match res with
      | Fetched doc =>
          let st1 := State (<[uri := Resolved doc]> (table st)) (fetched st)
                           (waiting st) (resolved_calls st) (failure st) in
          settle (scan uri doc (resume uri doc st1))
      | FetchError => fail (FetchFailed uri) st
      | MalformedDocument => fail (Malformed uri) st
      end
  | _, _ => st
  end.

(** The states one [load] call runs through, fetches completing in any
    order. *)
Inductive reachable (base : string) (root_schema : json) : state → Prop :=
| reachable_load : reachable base root_schema (load base root_schema)
| reachable_complete st uri res :
    reachable base root_schema st →
    reachable base root_schema (complete uri res st).


(** A reference is accounted for when it is settled or subscribed to a
    pending document. *)
Definition accounted (st : state) (target : string * list string) : Prop :=
  match table st !! fst target with
  | Some (Resolved doc) => is_Some (lookup_pointer (snd target) doc)
  | Some Pending => target ∈ waiting st
  | None => False
  end.

(** The fetch log and the keys of the table, for a [load] call started
    at [base]: no URI is fetched twice, what was fetched has an entry,
    and an entry is a fetched document or the root document. *)
Definition logged (base : string) (st : state) : Prop :=
  NoDup (fetched st) ∧
  (∀ u, u ∈ fetched st → is_Some (table st !! u)) ∧
  (∀ u, is_Some (table st !! u) → u ∈ fetched st ∨ u = base).

(** What holds of every state of a [load] call started at [base]. *)
Record consistent (base : string) (st : state) : Prop := Consistent {
  fetch_log : logged base st;
  calls_counted :
    resolved_calls st =
    match failure st with
    | None => if outstanding st then 0 else 1
    | Some _ => 0
    end;
  refs_accounted :
    failure st = None →
    ∀ b doc r, table st !! b = Some (Resolved doc) → r ∈ refs_of doc →
               accounted st (canonical b r)
}.

End Resolution.

(** A plain reading of reference texts, enough for absolute document
    URIs: the part before [#] names the document (the base when empty),
    the part after it is the pointer, tokens separated by [/]. *)
Fixpoint split_at (sep : Ascii.ascii) (s : string) : string * option string :=
  match s with
  | EmptyString => (EmptyString, None)
  | String c s' =>
      if decide (c = sep) then (EmptyString, Some s')
      else let r := split_at sep s' in (String c (fst r), snd r)
  end.

Fixpoint tokens (fuel : nat) (s : string) : list string :=
  match fuel with
  | 0 => []
  | S fuel' =>
      match split_at "/"%char s with
      | (tok, Some rest) => tok :: tokens fuel' rest
      | (tok, None) => [tok]
      end
  end.

Definition plain_canonical (base r : string) : string * list string :=
  let parts := split_at "#" r in
  (if decide (fst parts = "") then base else fst parts,
   match snd parts with
   | Some frag =>
       match frag with
       | String "/"%char rest => tokens (S (String.length rest)) rest
       | _ => []
       end
   | None => []
   end).

End Loader.

(** ** The editor session (core.js) *)

Module Editor.
Import Json Validator.

(** The element the editor is mounted on, as far as [core.js] touches it:
    its content and its [data-theme] attribute. *)
Record dom_element := Element {
  innerHTML : list string;
  data_theme : option string
}.

(** The options of an instance, already merged with the default options.
    A field that is [None] is undefined. *)
Record editor_options := Options {
  opt_schema : json;
  opt_startval : option json;
  opt_custom_validators : option (list custom_validator);
  opt_show_errors : string;
  opt_theme : option string;
  opt_iconlib : option string;
  opt_template : option string
}.

(** The closures [core.js] hands to [window.requestAnimationFrame]: the
    one that fires the ready event (constructor) and the one that
    revalidates after a change ([onChange]). *)
Inductive frame := ReadyFrame | ChangeFrame.

#[global] Instance frame_eq_dec : EqDecision frame.
Proof. solve_decision. Defined.

(** What a method call can throw. *)
Inductive exn :=
| JsError (msg : string)
| TypeError (what : string)
| ValidatorFailure (f : failure).

Inductive completion (A : Type) :=
| Normal (a : A)
| Throw (e : exn).
Arguments Normal {A} a.
Arguments Throw {A} e.

(** The root editor is built by one of the editor classes
    ([editors/index.js]); [core.js] uses it through these methods. *)
Class RootEditor (R : Type) := {
  root_build : R → R;
  root_getValue : R → json;
  root_setValue : json → R → R;
  root_showValidationErrors : list error → R → R
}.

(** [isEnabled], [enable] and [disable] of [core.js] pass the call on to
    the root editor. *)
Class RootSwitch (R : Type) := {
  root_isEnabled : R → bool;
  root_enable : R → R;
  root_disable : R → R
}.

(** [JSONEditor.defaults] as far as [core.js] reads it: a theme is given
    by the container it builds, an icon library by its name, an editor
    class by its constructor. *)
Record defaults (R : Type) := Defaults {
  default_theme : string;
  themes : gmap string string;
  default_iconlib : string;
  iconlibs : gmap string string;
  editors : gmap string (schema → R);
  resolvers : list (schema → option string)
}.
Arguments default_theme {R} d.
Arguments themes {R} d.
Arguments default_iconlib {R} d.
Arguments iconlibs {R} d.
Arguments editors {R} d.
Arguments resolvers {R} d.

(** [each(array, fn)] of [utilities.js], a file that is not part of
    [core.js]: a parameter of the session.  The function it is handed
    takes an index and a member, may write the variables it closes over
    (the state [St]) and answers whether its result is other than
    [false]. *)
Definition iteration : Type :=
  ∀ A St : Type, list A → (nat → A → St → St * bool) → St → St.

(** The iteration that calls the function on the members in order and
    stops when the function returns [false]. *)
Fixpoint each_from {A St : Type} (i : nat) (l : list A) (f : nat → A → St → St * bool)
  (s : St) : St :=
  match l with
  | [] => s
  | x :: l' =>
      match f i x s with
      | (s', true) => each_from (S i) l' f s'
      | (s', false) => s'
      end
  end.

Definition each_in_order : iteration :=
  fun A St l f s => each_from 0 l f s.

Definition not_ready_get : string :=
  "JSON Editor not ready yet.  Listen for 'ready' event before getting the value".
Definition not_ready_set : string :=
  "JSON Editor not ready yet.  Listen for 'ready' event before setting the value".
Definition not_ready_validate : string :=
  "JSON Editor not ready yet.  Listen for 'ready' event before validating".

Section Session.
Context {R : Type} `{RootEditor R}.

(** The host of the validator, the defaults, the loader's
    [expandSchema] and [each] of [utilities.js]. *)
Variable host : Validator.host.
Variable defs : defaults R.
Variable expandSchema : schema → schema.
Variable each : iteration.

(** The fields of a [JSONEditor] instance; [None] is [null] or
    undefined.  [frames] is the window's queue of animation-frame
    callbacks of this editor, [fired] the log of the event callbacks
    invoked by [trigger]. *)
Record editor := Editor {
  element : dom_element;
  options : option editor_options;
  ready : bool;
  destroyed : bool;
  copyClipboard : option json;
  schema : option json;
  template : option string;
  theme : option string;
  iconlib : option string;
  root_container : option string;
  validator : option Validator.t;
  root : option R;
  validation_results : option (list error);
  data : option (gmap nat json);
  callbacks : gmap string (list nat);
  firing_change : bool;
  frames : list frame;
  fired : list (string * nat)
}.

(** Assignment to one field of the instance. *)
Definition set_element (x : dom_element) (e : editor) : editor :=
  Editor x (options e) (ready e) (destroyed e) (copyClipboard e) (schema e)
    (template e) (theme e) (iconlib e) (root_container e) (validator e)
    (root e) (validation_results e) (data e) (callbacks e) (firing_change e)
    (frames e) (fired e).

Definition set_options (x : option editor_options) (e : editor) : editor :=
  Editor (element e) x (ready e) (destroyed e) (copyClipboard e) (schema e)
    (template e) (theme e) (iconlib e) (root_container e) (validator e)
    (root e) (validation_results e) (data e) (callbacks e) (firing_change e)
    (frames e) (fired e).

Definition set_ready (x : bool) (e : editor) : editor :=
  Editor (element e) (options e) x (destroyed e) (copyClipboard e) (schema e)
    (template e) (theme e) (iconlib e) (root_container e) (validator e)
    (root e) (validation_results e) (data e) (callbacks e) (firing_change e)
    (frames e) (fired e).

Definition set_destroyed (x : bool) (e : editor) : editor :=
  Editor (element e) (options e) (ready e) x (copyClipboard e) (schema e)
    (template e) (theme e) (iconlib e) (root_container e) (validator e)
    (root e) (validation_results e) (data e) (callbacks e) (firing_change e)
    (frames e) (fired e).

Definition set_copyClipboard (x : option json) (e : editor) : editor :=
  Editor (element e) (options e) (ready e) (destroyed e) x (schema e)
    (template e) (theme e) (iconlib e) (root_container e) (validator e)
    (root e) (validation_results e) (data e) (callbacks e) (firing_change e)
    (frames e) (fired e).

Definition set_schema (x : option json) (e : editor) : editor :=
  Editor (element e) (options e) (ready e) (destroyed e) (copyClipboard e) x
    (template e) (theme e) (iconlib e) (root_container e) (validator e)
    (root e) (validation_results e) (data e) (callbacks e) (firing_change e)
    (frames e) (fired e).

Definition set_template (x : option string) (e : editor) : editor :=
  Editor (element e) (options e) (ready e) (destroyed e) (copyClipboard e)
    (schema e) x (theme e) (iconlib e) (root_container e) (validator e)
    (root e) (validation_results e) (data e) (callbacks e) (firing_change e)
    (frames e) (fired e).

Definition set_theme (x : option string) (e : editor) : editor :=
  Editor (element e) (options e) (ready e) (destroyed e) (copyClipboard e)
    (schema e) (template e) x (iconlib e) (root_container e) (validator e)
    (root e) (validation_results e) (data e) (callbacks e) (firing_change e)
    (frames e) (fired e).

Definition set_iconlib (x : option string) (e : editor) : editor :=
  Editor (element e) (options e) (ready e) (destroyed e) (copyClipboard e)
    (schema e) (template e) (theme e) x (root_container e) (validator e)
    (root e) (validation_results e) (data e) (callbacks e) (firing_change e)
    (frames e) (fired e).

Definition set_root_container (x : option string) (e : editor) : editor :=
  Editor (element e) (options e) (ready e) (destroyed e) (copyClipboard e)
    (schema e) (template e) (theme e) (iconlib e) x (validator e) (root e)
    (validation_results e) (data e) (callbacks e) (firing_change e) (frames e)
    (fired e).

Definition set_validator (x : option Validator.t) (e : editor) : editor :=
  Editor (element e) (options e) (ready e) (destroyed e) (copyClipboard e)
    (schema e) (template e) (theme e) (iconlib e) (root_container e) x
    (root e) (validation_results e) (data e) (callbacks e) (firing_change e)
    (frames e) (fired e).

Definition set_root (x : option R) (e : editor) : editor :=
  Editor (element e) (options e) (ready e) (destroyed e) (copyClipboard e)
    (schema e) (template e) (theme e) (iconlib e) (root_container e)
    (validator e) x (validation_results e) (data e) (callbacks e)
    (firing_change e) (frames e) (fired e).

Definition set_validation_results (x : option (list error)) (e : editor) : editor :=
  Editor (element e) (options e) (ready e) (destroyed e) (copyClipboard e)
    (schema e) (template e) (theme e) (iconlib e) (root_container e)
    (validator e) (root e) x (data e) (callbacks e) (firing_change e)
    (frames e) (fired e).

Definition set_data (x : option (gmap nat json)) (e : editor) : editor :=
  Editor (element e) (options e) (ready e) (destroyed e) (copyClipboard e)
    (schema e) (template e) (theme e) (iconlib e) (root_container e)
    (validator e) (root e) (validation_results e) x (callbacks e)
    (firing_change e) (frames e) (fired e).

Definition set_callbacks (x : gmap string (list nat)) (e : editor) : editor :=
  Editor (element e) (options e) (ready e) (destroyed e) (copyClipboard e)
    (schema e) (template e) (theme e) (iconlib e) (root_container e)
    (validator e) (root e) (validation_results e) (data e) x (firing_change e)
    (frames e) (fired e).

Definition set_firing_change (x : bool) (e : editor) : editor :=
  Editor (element e) (options e) (ready e) (destroyed e) (copyClipboard e)
    (schema e) (template e) (theme e) (iconlib e) (root_container e)
    (validator e) (root e) (validation_results e) (data e) (callbacks e) x
    (frames e) (fired e).

Definition set_frames (x : list frame) (e : editor) : editor :=
  Editor (element e) (options e) (ready e) (destroyed e) (copyClipboard e)
    (schema e) (template e) (theme e) (iconlib e) (root_container e)
    (validator e) (root e) (validation_results e) (data e) (callbacks e)
    (firing_change e) x (fired e).

Definition set_fired (x : list (string * nat)) (e : editor) : editor :=
  Editor (element e) (options e) (ready e) (destroyed e) (copyClipboard e)
    (schema e) (template e) (theme e) (iconlib e) (root_container e)
    (validator e) (root e) (validation_results e) (data e) (callbacks e)
    (firing_change e) (frames e) x.

(** Method bodies run in a state monad over the instance, with
    exceptions; a throw keeps the assignments made before it. *)
Definition M (A : Type) : Type := editor → editor * completion A.

Definition ret {A} (a : A) : M A := fun e => (e, Normal a).
Definition throw {A} (x : exn) : M A := fun e => (e, Throw x).
Definition get : M editor := fun e => (e, Normal e).
Definition modify (f : editor → editor) : M unit := fun e => (f e, Normal tt).
Definition bind {A B} (m : M A) (k : A → M B) : M B :=
  fun e =>
    match m e with
    | (e', Normal a) => k a e'
    | (e', Throw x) => (e', Throw x)
    end.

Notation "'let!' x := m 'in' k" := (bind m (fun x => k))
  (at level 10, x name, m at level 100, k at level 200).
Notation "m >> k" := (bind m (fun _ => k))
  (at level 100, k at level 200, right associativity).

(** Reading a property of a field that is [null] is a TypeError. *)
Definition deref {A} (o : option A) (what : string) : M A :=
  match o with
  | Some a => ret a
  | None => throw (TypeError what)
  end.

(** [option || fallback] on a name: a missing name and the empty name
    are falsy. *)
Definition or_else (o : option string) (fallback : string) : string :=
  match o with
  | Some name => if decide (name = "") then fallback else name
  | None => fallback
  end.

(** [constructor(element, options)], up to the call of [loader.load]. *)
Definition construct (el : option dom_element) (opts : editor_options) : completion editor :=
  match el with
  | None => Throw (JsError "element should be an instance of Element")
  | Some el =>
      let themeName := or_else (opt_theme opts) (default_theme defs) in
      match themes defs !! themeName with
      | None => Throw (JsError ("Unknown theme " +:+ themeName))
      | Some container =>
          Normal
            {| element := Element (innerHTML el ++ [container]) (Some themeName);
               options := Some opts;
               ready := false;
               destroyed := false;
               copyClipboard := None;
               schema := Some (opt_schema opts);
               template := opt_template opts;
               theme := Some themeName;
               iconlib := iconlibs defs !!
                            or_else (opt_iconlib opts) (default_iconlib defs);
               root_container := Some container;
               validator := None;
               root := None;
               validation_results := None;
               data := Some ∅;
               callbacks := ∅;
               firing_change := false;
               frames := [];
               fired := [] |}
      end
  end.

(** [trigger(event)]: every callback registered for the event is
    invoked, in registration order.  The callbacks are the caller's
    functions; an invocation is recorded in [fired].  Here a callback
    is taken to return without touching the instance: in a session,
    what a listener does by calling a method of the instance is a later
    event.  [trigger_with] below is the loop for listeners that act. *)
Definition trigger (event : string) : M unit :=
  modify (fun e =>
            set_fired (fired e ++
                       map (fun cb => (event, cb)) (default [] (callbacks e !! event))) e).

(** [on(event, callback)]. *)
Definition on (event : string) (cb : nat) : M unit :=
  modify (fun e =>
            set_callbacks (<[event := default [] (callbacks e !! event) ++ [cb]]>
                             (callbacks e)) e).

(** [off(event, callback)]: one callback of an event, all callbacks of
    an event, or all callbacks. *)
Definition off (event : option string) (cb : option nat) : M unit :=
  modify (fun e =>
            match event, cb with
            | Some ev, Some cb =>
                set_callbacks (<[ev := filter (fun c => c ≠ cb)
                                         (default [] (callbacks e !! ev))]>
                                 (callbacks e)) e
            | Some ev, None => set_callbacks (<[ev := []]> (callbacks e)) e
            | None, _ => set_callbacks ∅ e
            end).

Definition requestAnimationFrame (f : frame) : M unit :=
  modify (fun e => set_frames (frames e ++ [f]) e).

(** The function [getEditorClass] hands to [each] (lines 201 to 207);
    [classname] is the variable it closes over.  An answer is taken
    when it is truthy and names an editor class, and then the function
    returns [false]. *)
Definition ask (s : Validator.schema) (i : nat) (resolver : Validator.schema → option string)
  (classname : option string) : option string * bool :=
  match resolver s with
  | Some tmp =>
      if bool_decide (tmp ≠ "") && bool_decide (is_Some (editors defs !! tmp))
      then (Some tmp, false)
      else (classname, true)
  | None => (classname, true)
  end.

(** [getEditorClass(schema)]. *)
Definition getEditorClass (s : Validator.schema) : M (Validator.schema → R) :=
  match each _ _ (resolvers defs) (ask (expandSchema s)) None with
  | None =>
      throw (JsError ("Unknown editor for schema " +:+
                      stringify host (expandSchema s)))
  | Some classname =>
      if decide (classname = "")
      then throw (JsError ("Unknown editor for schema " +:+
                           stringify host (expandSchema s)))
      else
        match editors defs !! classname with
        | Some cls => ret cls
        | None => throw (JsError ("Unknown editor " +:+ classname))
        end
  end.

(** [this.validator.validate(this.root.getValue())]; a hard failure of
    the validator is thrown. *)
Definition run_validator (vd : Validator.t) (v : json) : M (list error) :=
  match Validator.validate host vd v with
  | Returned es => ret es
  | Failed f => throw (ValidatorFailure f)
  end.

Definition validate_current : M (list error) :=
  let! e := get in
  let! vd := deref (validator e) "validator" in
  let! r := deref (root e) "root" in
  run_validator vd (root_getValue r).

(** [this.root.showValidationErrors(errors)]. *)
Definition show (es : list error) : M unit :=
  let! e := get in
  let! r := deref (root e) "root" in
  modify (set_root (Some (root_showValidationErrors es r))).

(** The callback given to [loader.load] (lines 52 to 85); the loader
    passes the resolved root node, [refs] is its Reference Table. *)
Definition on_resolved (g : Validator.schema) (refs : gmap string Validator.schema) : M unit :=
  let! e := get in
  let! opts := deref (options e) "options" in
  modify (set_validator
            (Some (Validator g refs (default [] (opt_custom_validators opts))))) >>
  let! cls := getEditorClass g in
  modify (set_root (Some (root_build (cls g)))) >>
  match opt_startval opts with
  | Some startval =>
      let! e := get in
      let! r := deref (root e) "root" in
      modify (set_root (Some (root_setValue startval r)))
  | None => ret tt
  end >>
  let! es := validate_current in
  modify (set_validation_results (Some es)) >>
  show es >>
  modify (set_ready true) >>
  requestAnimationFrame ReadyFrame.

(** The animation-frame callback of the constructor (lines 78 to 84). *)
Definition ready_frame : M unit :=
  let! e := get in
  if negb (ready e) then ret tt else
  let! es := validate_current in
  modify (set_validation_results (Some es)) >>
  show es >>
  trigger "ready" >>
  trigger "change".

(** [getValue()]. *)
Definition getValue : M json :=
  let! e := get in
  if negb (ready e) then throw (JsError not_ready_get) else
  let! r := deref (root e) "root" in
  ret (root_getValue r).

(** [setValue(value)]. *)
Definition setValue (value : json) : M unit :=
  let! e := get in
  if negb (ready e) then throw (JsError not_ready_set) else
  let! r := deref (root e) "root" in
  modify (set_root (Some (root_setValue value r))).

(** [validate(value)]; [args] is the argument list of the call. *)
Definition validate (args : list json) : M (option (list error)) :=
  let! e := get in
  if negb (ready e) then throw (JsError not_ready_validate) else
  match args with
  | [value] =>
      let! vd := deref (validator e) "validator" in
      let! es := run_validator vd value in
      ret (Some es)
  | _ => ret (validation_results e)
  end.

(** [destroy()].  [this.root.destroy()] is a call on the root editor,
    which is dropped right after; it is a TypeError when [root] is
    [null]. *)
Definition destroy : M unit :=
  let! e := get in
  if destroyed e then ret tt else
  if negb (ready e) then ret tt else
  modify (set_schema None) >>
  modify (set_options None) >>
  let! _ := deref (root e) "root" in
  modify (set_root None) >>
  modify (set_root_container None) >>
  modify (set_validator None) >>
  modify (set_validation_results None) >>
  modify (set_theme None) >>
  modify (set_iconlib None) >>
  modify (set_template None) >>
  modify (set_data None) >>
  modify (set_ready false) >>
  modify (set_element (Element [] None)) >>
  modify (set_destroyed true).

(** [onChange()]. *)
Definition onChange : M unit :=
  let! e := get in
  if negb (ready e) then ret tt else
  if firing_change e then ret tt else
  modify (set_firing_change true) >>
  requestAnimationFrame ChangeFrame.

(** The animation-frame callback of [onChange] (lines 228 to 243). *)
Definition change_frame : M unit :=
  modify (set_firing_change false) >>
  let! e := get in
  if negb (ready e) then ret tt else
  let! es := validate_current in
  modify (set_validation_results (Some es)) >>
  let! opts := deref (options e) "options" in
  (if bool_decide (opt_show_errors opts ≠ "never") then show es else show []) >>
  trigger "change".

(** [setOption(option, value)]. *)
Definition setOption (option value : string) : M unit :=
  if bool_decide (option = "show_errors") then
    let! e := get in
    let! opts := deref (options e) "options" in
    modify (set_options
              (Some (Options (opt_schema opts) (opt_startval opts)
                       (opt_custom_validators opts) value (opt_theme opts)
                       (opt_iconlib opts) (opt_template opts)))) >>
    onChange
  else
    throw (JsError ("Option " +:+ option +:+
                    " must be set during instantiation and cannot be changed later")).

(** [setCopyClipboardContents(value)] and [getCopyClipboardContents()]. *)
Definition setCopyClipboardContents (value : json) : M unit :=
  modify (set_copyClipboard (Some value)).

Definition getCopyClipboardContents : M (option json) :=
  let! e := get in ret (copyClipboard e).

(** *** The session as a transition system

    What happens to an instance: a call of one of its methods, the
    loader calling back, or the window running the oldest pending
    animation-frame callback. *)
Inductive event :=
| CallGetValue
| CallSetValue (value : json)
| CallValidate (args : list json)
| CallDestroy
| CallOnChange
| CallSetOption (option value : string)
| CallOn (ev : string) (cb : nat)
| CallOff (ev : option string) (cb : option nat)
| CallSetCopyClipboardContents (value : json)
| LoaderResolved (g : Validator.schema) (refs : gmap string Validator.schema)
| AnimationFrame.

Definition run_frame (f : frame) : M unit :=
  match f with
  | ReadyFrame => ready_frame
  | ChangeFrame => change_frame
  end.

Definition step (ev : event) (e : editor) : editor :=
  match ev with
  | CallGetValue => fst (getValue e)
  | CallSetValue value => fst (setValue value e)
  | CallValidate args => fst (validate args e)
  | CallDestroy => fst (destroy e)
  | CallOnChange => fst (onChange e)
  | CallSetOption option value => fst (setOption option value e)
  | CallOn ev cb => fst (on ev cb e)
  | CallOff ev cb => fst (off ev cb e)
  | CallSetCopyClipboardContents value => fst (setCopyClipboardContents value e)
  | LoaderResolved g refs => fst (on_resolved g refs e)
  | AnimationFrame =>
      match frames e with
      | [] => e
      | f :: fs => fst (run_frame f (set_frames fs e))
      end
  end.

Definition run (evs : list event) (e : editor) : editor :=
  foldl (fun e ev => step ev e) e evs.

(** What [destroy] leaves behind when it takes effect. *)
Definition cleared (e : editor) : Prop :=
  ready e = false ∧ destroyed e = true ∧ schema e = None ∧ options e = None ∧
  root e = None ∧ root_container e = None ∧ validator e = None ∧
  validation_results e = None ∧ theme e = None ∧ iconlib e = None ∧
  template e = None ∧ data e = None ∧ element e = Element [] None.

(** While [ready] holds, a validator over a well-formed graph and a
    root editor are installed. *)
Definition installed (e : editor) : Prop :=
  ready e = true →
  ∃ vd r, validator e = Some vd ∧ root e = Some r ∧
          well_formed (Validator.root vd) (Validator.table vd).

(** The loader hands over well-formed resolved graphs. *)
Definition graph_well_formed (ev : event) : Prop :=
  match ev with
  | LoaderResolved g refs => well_formed g refs
  | _ => True
  end.

(** The events in which the validator does not run on the current value
    and the cache is not cleared: every method call but [destroy]. *)
Definition keeps_cache (ev : event) : bool :=
  match ev with
  | LoaderResolved _ _ | AnimationFrame | CallDestroy => false
  | _ => true
  end.

(** The deferred callbacks: the loader's and the window's. *)
Definition deferred (ev : event) : bool :=
  match ev with
  | LoaderResolved _ _ | AnimationFrame => true
  | _ => false
  end.

(** Two instances that differ at most in the animation-frame queue and
    the [firing_change] flag. *)
Definition same_instance (e1 e2 : editor) : Prop :=
  set_frames [] (set_firing_change false e1) =
  set_frames [] (set_firing_change false e2).

(** *** Listeners and pending frames *)

(** The callbacks [trigger(event)] invokes on an instance, in order. *)
Definition listeners (event : string) (e : editor) : list nat :=
  default [] (callbacks e !! event).

(** The first argument of [off] as lines 144 and 153 test it: an empty
    name is falsy, like a missing one. *)
Definition named (event : string) : option string :=
  if decide (event = "") then None else Some event.

(** The callbacks of [onChange] waiting in the window's queue. *)
Definition pending_changes (e : editor) : nat :=
  length (filter (fun f => f = ChangeFrame) (frames e)).

(** A callback of [onChange] waits exactly while [firing_change] is set,
    and then only one. *)
Definition coalesced (e : editor) : Prop :=
  pending_changes e = if firing_change e then 1 else 0.

(** A ready instance lacks nothing and a destroyed one holds nothing. *)
Definition whole (e : editor) : Prop :=
  (ready e = true →
   destroyed e = false ∧ is_Some (options e) ∧ is_Some (validator e) ∧
   is_Some (root e) ∧ is_Some (validation_results e)) ∧
  (destroyed e = true → cleared e).

(** The calls that write the table of listeners. *)
Definition registers (ev : event) : bool :=
  match ev with
  | CallOn _ _ | CallOff _ _ => true
  | _ => false
  end.

Definition is_frame (ev : event) : bool :=
  match ev with
  | AnimationFrame => true
  | _ => false
  end.

Definition sets_clipboard (ev : event) : bool :=
  match ev with
  | CallSetCopyClipboardContents _ => true
  | _ => false
  end.

(** The events that write [ready]: the loader's callback and [destroy]. *)
Definition switches_ready (ev : event) : bool :=
  match ev with
  | LoaderResolved _ _ | CallDestroy => true
  | _ => false
  end.

(** *** Listeners that act

    A listener is a function of the caller.  The loop of lines 167 to
    169 calls it on the spot and reads [this.callbacks[event]] again
    before every call, so a listener that registers or removes
    listeners, or throws, changes what the loop does next.  [acts cb]
    is what a call of the listener [cb] does to the instance, whatever
    it is, and how it completes; a listener is taken to return or
    throw.  The loop need not end (a listener may register a listener
    each time it is called): [fuel] bounds its turns, [None] is the
    loop still running. *)
Variable acts : nat → M unit.

Fixpoint trigger_loop (fuel : nat) (event : string) (i : nat) (e : editor)
  : option (editor * completion unit) :=
  match fuel with
  | 0 => None
  | S fuel' =>
      match callbacks e !! event with
      | None => Some (e, Throw (TypeError "callbacks[event]"))
      | Some l =>
          match l !! i with
          | None => Some (e, Normal tt)
          | Some cb =>
              match acts cb (set_fired (fired e ++ [(event, cb)]) e) with
              | (e', Normal _) => trigger_loop fuel' event (S i) e'
              | (e', Throw x) => Some (e', Throw x)
              end
          end
      end
  end.

(** [trigger(event)] with listeners that act; the guard of line 166
    lets the loop start when the event has a listener. *)
Definition trigger_with (fuel : nat) (event : string) (e : editor)
  : option (editor * completion unit) :=
  match callbacks e !! event with
  | Some (_ :: _) => trigger_loop fuel event 0 e
  | _ => Some (e, Normal tt)
  end.

(** A listener that returns and leaves the instance as it is. *)
Definition inert (cb : nat) : Prop :=
  ∀ e, acts cb e = (e, Normal tt).

(** The frame of [onChange] up to its call of [trigger] (lines 229 to
    239); [true] when the listeners are to be invoked. *)
Definition change_pass : M bool :=
  modify (set_firing_change false) >>
  let! e := get in
  if negb (ready e) then ret false else
  let! es := validate_current in
  modify (set_validation_results (Some es)) >>
  let! opts := deref (options e) "options" in
  (if bool_decide (opt_show_errors opts ≠ "never") then show es else show []) >>
  ret true.

(** The frame of the constructor up to its calls of [trigger] (lines 79
    to 81). *)
Definition ready_pass : M bool :=
  let! e := get in
  if negb (ready e) then ret false else
  let! es := validate_current in
  modify (set_validation_results (Some es)) >>
  show es >>
  ret true.

(** The two frames with listeners that act. *)
Definition change_frame_with (fuel : nat) (e : editor)
  : option (editor * completion unit) :=
  match change_pass e with
  | (e1, Normal true) => trigger_with fuel "change" e1
  | (e1, Normal false) => Some (e1, Normal tt)
  | (e1, Throw x) => Some (e1, Throw x)
  end.

Definition ready_frame_with (fuel : nat) (e : editor)
  : option (editor * completion unit) :=
  match ready_pass e with
  | (e1, Normal true) =>
      match trigger_with fuel "ready" e1 with
      | Some (e2, Normal _) => trigger_with fuel "change" e2
      | stopped => stopped
      end
  | (e1, Normal false) => Some (e1, Normal tt)
  | (e1, Throw x) => Some (e1, Throw x)
  end.

(** The loader's callback. *)
Definition resolves (ev : event) : bool :=
  match ev with
  | LoaderResolved _ _ => true
  | _ => false
  end.

(** *** Enabling and disabling *)

Context `{RootSwitch R}.

(** [isEnabled()]: [!this.root || this.root.isEnabled()]. *)
Definition isEnabled : M bool :=
  let! e := get in
  match root e with
  | None => ret true
  | Some r => ret (root_isEnabled r)
  end.

(** [enable()] and [disable()]: there is no guard, the call on a
    missing root is a TypeError. *)
Definition enable : M unit :=
  let! e := get in
  let! r := deref (root e) "root" in
  modify (set_root (Some (root_enable r))).

Definition disable : M unit :=
  let! e := get in
  let! r := deref (root e) "root" in
  modify (set_root (Some (root_disable r))).

End Session.

End Editor.

(** ** The tables of an instance (core.js)

    Besides the fields of the session an instance keeps the editors of
    the tree by path ([this.editors]), the callbacks that watch a path
    ([this.watchlist]) and values attached to elements ([this.__data],
    [this.uuid]).  Each group of methods reads and writes its own table
    only and is modelled on it.  A table is a plain object; its model, a
    finite map, answers as the object does at every name that
    [Object.prototype] does not define ([Json.own_name]). *)

Module Tables.
Import Json Editor.

(** What a lookup gives. *)
Inductive jsval (A : Type) :=
| Undefined
| Null
| Val (a : A).
Arguments Undefined {A}.
Arguments Null {A}.
Arguments Val {A} a.

(** *** The editors of the tree (lines 289 to 304) *)

Section Registry.
Context {child : Type}.

(** [editor.path]. *)
Variable path : child → string.

(** [this.editors]: [None] while it is undefined; a member that is
    [None] is [null]. *)
Definition registry : Type := option (gmap string (option child)).

Definition registerEditor (editor : child) (t : registry) : registry :=
  Some (<[path editor := Some editor]> (default ∅ t)).

Definition unregisterEditor (editor : child) (t : registry) : registry :=
  Some (<[path editor := None]> (default ∅ t)).

Definition getEditor (p : string) (t : registry) : jsval child :=
  match t with
  | None => Undefined
  | Some m =>
      match m !! p with
      | None => Undefined
      | Some None => Null
      | Some (Some editor) => Val editor
      end
  end.

(** A sequence of calls on the table. *)
Inductive registry_call :=
| Register (editor : child)
| Unregister (editor : child).

Definition registry_step (c : registry_call) (t : registry) : registry :=
  match c with
  | Register editor => registerEditor editor t
  | Unregister editor => unregisterEditor editor t
  end.

Definition registry_run (calls : list registry_call) (t : registry) : registry :=
  foldl (fun t c => registry_step c t) t calls.

Definition call_path (c : registry_call) : string :=
  match c with
  | Register editor | Unregister editor => path editor
  end.

End Registry.

(** *** The watch list (lines 306 to 336)

    A callback is a function of the caller, compared by identity; it is
    given by a number.  A call of it is recorded; it is taken to return
    and not to call [watch] or [unwatch] itself. *)

Section Watchers.

(** [this.watchlist]: [None] while it is undefined; a member that is
    [None] is [null]. *)
Definition watchlist : Type := option (gmap string (option (list nat))).

(** [this.watchlist && this.watchlist[path]] when it is truthy: an
    array, even an empty one. *)
Definition watched (p : string) (w : watchlist) : option (list nat) :=
  match w with
  | None => None
  | Some m =>
      match m !! p with
      | Some (Some l) => Some l
      | _ => None
      end
  end.

(** [watch(path, callback)]. *)
Definition watch (p : string) (callback : nat) (w : watchlist) : watchlist :=
  Some (<[p := Some (default [] (watched p w) ++ [callback])]> (default ∅ w)).

(** [unwatch(path, callback)]; a missing callback is [None]. *)
Definition unwatch (p : string) (callback : option nat) (w : watchlist) : watchlist :=
  match w, watched p w with
  | Some m, Some l =>
      match callback with
      | None => Some (<[p := None]> m)
      | Some cb =>
          let newlist := filter (fun c => c ≠ cb) l in
          Some (<[p := if decide (newlist = []) then None else Some newlist]> m)
      end
  | _, _ => w
  end.

(** What a call of [notifyWatchers] returns: the instance on line 332,
    nothing after the loop. *)
Inductive returned := ReturnsThis | ReturnsUndefined.

(** A watcher is a function of the caller.  The loop of lines 333 to
    335 calls it on the spot and reads [this.watchlist[path]] again
    before every call, so a watcher that watches or unwatches changes
    what the loop does next.  [acts cb] is what a call of the watcher
    [cb] does to the watch list and how it completes.  The loop need
    not end (a watcher may watch again each time it is called): [fuel]
    bounds its turns, [None] is the loop still running. *)
Variable acts : nat → watchlist → watchlist * completion unit.

(** The loop: the index, the watchers called so far and the watch
    list.  When the member is no longer an array (a watcher has
    unwatched the path, line 318 or 327 leaving [null]) reading its
    length is a TypeError. *)
Fixpoint notify_loop (fuel : nat) (p : string) (i : nat) (called : list nat) (w : watchlist)
  : option (watchlist * list nat * completion returned) :=
  match fuel with
  | 0 => None
  | S fuel' =>
      match watched p w with
      | None => Some (w, called, Throw (TypeError "watchlist[path]"))
      | Some l =>
          match l !! i with
          | None => Some (w, called, Normal ReturnsUndefined)
          | Some cb =>
              match acts cb w with
              | (w', Normal _) => notify_loop fuel' p (S i) (called ++ [cb]) w'
              | (w', Throw x) => Some (w', called ++ [cb], Throw x)
              end
          end
      end
  end.

(** [notifyWatchers(path)]: the watch list it leaves, the watchers it
    has called, in order, and how it completes. *)
Definition notifyWatchers (fuel : nat) (p : string) (w : watchlist)
  : option (watchlist * list nat * completion returned) :=
  match watched p w with
  | None => Some (w, [], Normal ReturnsThis)
  | Some _ => notify_loop fuel p 0 [] w
  end.

(** A watcher that returns and leaves the watch list as it is. *)
Definition idle (cb : nat) : Prop :=
  ∀ w, acts cb w = (w, Normal tt).

Inductive watch_call :=
| Watch (p : string) (callback : nat)
| Unwatch (p : string) (callback : option nat).

Definition watch_step (c : watch_call) (w : watchlist) : watchlist :=
  match c with
  | Watch p callback => watch p callback w
  | Unwatch p callback => unwatch p callback w
  end.

Definition watch_path (c : watch_call) : string :=
  match c with
  | Watch p _ | Unwatch p _ => p
  end.

Definition watch_run (calls : list watch_call) (w : watchlist) : watchlist :=
  foldl (fun w c => watch_step c w) w calls.

(** The watchers of one path, as a list of their own: [watch] appends,
    [unwatch] with a callback removes each occurrence of it, [unwatch]
    without one removes all; a call on another path does nothing. *)
Definition watchers_step (p : string) (c : watch_call) (l : list nat) : list nat :=
  match c with
  | Watch p' callback => if decide (p' = p) then l ++ [callback] else l
  | Unwatch p' None => if decide (p' = p) then [] else l
  | Unwatch p' (Some cb) => if decide (p' = p) then filter (fun c => c ≠ cb) l else l
  end.

Definition watchers_run (p : string) (calls : list watch_call) (l : list nat) : list nat :=
  foldl (fun l c => watchers_step p c l) l calls.

(** No member of the watch list is an empty array. *)
Definition tidy (w : watchlist) : Prop :=
  ∀ p, watched p w ≠ Some [].

End Watchers.

(** *** Values attached to elements (lines 268 to 287)

    [_data(el, key, value)] keeps the value in [this.__data] under a
    number of its own, which it writes on the element as the attribute
    [data-jsoneditor-key]. *)

Section Data.
Context {A : Type}.

(** The document's side of an attribute: the name under which an element
    keeps it, [None] for a name that is not one of an attribute
    ([setAttribute] throws on it, [hasAttribute] is false). *)
Variable attribute : string → option string.

(** [uuid] and [__data] of the instance ([None] once [destroy] has set
    it to null) and the attributes of the elements of the document;
    elements are given by a handle. *)
Record store := Store {
  uuid : nat;
  __data : option (gmap string A);
  attributes : gmap nat (gmap string string)
}.

(** The table as the constructor leaves it (lines 21 and 22), in a
    document whose elements carry [attrs]. *)
Definition new_store (attrs : gmap nat (gmap string string)) : store :=
  Store 0 (Some ∅) attrs.

(** A number as a property name and as an attribute's value. *)
Definition decimal (n : nat) : string :=
  NilEmpty.string_of_uint (Nat.to_uint n).

Definition attributes_of (el : nat) (s : store) : gmap string string :=
  default ∅ (attributes s !! el).

(** [el.getAttribute(`data-jsoneditor-${key}`)], when the element has
    the attribute. *)
Definition data_attribute (el : nat) (key : string) (s : store) : option string :=
  match attribute ("data-jsoneditor-" +:+ key) with
  | Some a => attributes_of el s !! a
  | None => None
  end.

(** [el.setAttribute(`data-jsoneditor-${key}`, uuid)]. *)
Definition setAttribute (el : nat) (key : string) (u : string) (s : store)
  : store * completion unit :=
  match attribute ("data-jsoneditor-" +:+ key) with
  | Some a =>
      (Store (uuid s) (__data s) (<[el := <[a := u]> (attributes_of el s)]> (attributes s)),
       Normal tt)
  | None => (s, Throw (JsError "InvalidCharacterError"))
  end.

(** [_data(el, key, value)]; [rest] holds the arguments after [key]: the
    call writes when there are three arguments and reads otherwise. *)
Definition _data (el : nat) (key : string) (rest : list A) (s : store)
  : store * completion (jsval A) :=
  match rest with
  | [value] =>
      let assigned :=
        match data_attribute el key s with
        | Some u => (s, Normal u)
        | None =>
            let s1 := Store (S (uuid s)) (__data s) (attributes s) in
            match setAttribute el key (decimal (uuid s)) s1 with
            | (s2, Normal _) => (s2, Normal (decimal (uuid s)))
            | (s2, Throw x) => (s2, Throw x)
            end
        end in
      match assigned with
      | (s2, Normal u) =>
          match __data s2 with
          | Some d => (Store (uuid s2) (Some (<[u := value]> d)) (attributes s2),
                       Normal Undefined)
          | None => (s2, Throw (TypeError "__data"))
          end
      | (s2, Throw x) => (s2, Throw x)
      end
  | _ =>
      match data_attribute el key s with
      | None => (s, Normal Null)
      | Some u =>
          match __data s with
          | Some d =>
              (s, Normal match d !! u with
                         | Some value => Val value
                         | None => Undefined
                         end)
          | None => (s, Throw (TypeError "__data"))
          end
      end
  end.

(** A sequence of calls of [_data]. *)
Inductive data_call :=
| SetData (el : nat) (key : string) (value : A)
| GetData (el : nat) (key : string).

Definition data_step (c : data_call) (s : store) : store :=
  match c with
  | SetData el key value => fst (_data el key [value] s)
  | GetData el key => fst (_data el key [] s)
  end.

Definition data_run (calls : list data_call) (s : store) : store :=
  foldl (fun s c => data_step c s) s calls.

(** The values as a map from an element and the name of the attribute:
    what the calls of a sequence have written. *)
Definition written_step (c : data_call) (m : gmap (nat * string) A) : gmap (nat * string) A :=
  match c with
  | SetData el key value =>
      match attribute ("data-jsoneditor-" +:+ key) with
      | Some a => <[(el, a) := value]> m
      | None => m
      end
  | GetData _ _ => m
  end.

Definition written (calls : list data_call) : gmap (nat * string) A :=
  foldl (fun m c => written_step c m) ∅ calls.

(** The attributes [_data] looks at. *)
Definition data_name (a : string) : Prop :=
  ∃ key, attribute ("data-jsoneditor-" +:+ key) = Some a.

(** No element of the document carries one of these attributes yet. *)
Definition unmarked (attrs : gmap nat (gmap string string)) : Prop :=
  ∀ el m a, attrs !! el = Some m → data_name a → m !! a = None.

(** The table, the attributes and the map of the values written agree:
    every marked element carries a number below [uuid] under which the
    table holds its value, and no two carry the same. *)
Record agrees (s : store) (m : gmap (nat * string) A) : Prop := Agrees {
  agrees_live : is_Some (__data s);
  agrees_value : ∀ el a,
    data_name a →
    match attributes_of el s !! a with
    | None => m !! (el, a) = None
    | Some u =>
        (∃ n, n < uuid s ∧ u = decimal n) ∧ is_Some (m !! (el, a)) ∧
        (__data s ≫= (.!! u)) = m !! (el, a)
    end;
  agrees_apart : ∀ el a el' a' u,
    data_name a → data_name a' →
    attributes_of el s !! a = Some u → attributes_of el' s !! a' = Some u →
    (el, a) = (el', a')
}.

End Data.

End Tables.

(** ** Template engines (core.js, lines 248 to 266) *)

Module Templates.
Import Editor.

Section Engines.
Context {compiled : Type}.

(** A template engine as [compileTemplate] uses it: its [compile]
    member, [None] when it has none. *)
Record engine := Engine {
  compile : option (string → compiled)
}.

(** The [name] argument: the name of a preset engine, or a custom engine
    ([None] for a falsy value that is not a string). *)
Inductive engine_name :=
| Preset (name : string)
| Custom (e : option engine).

(** [JSONEditor.defaults.templates], each preset by what its factory
    returns ([None] when it returns nothing), and
    [JSONEditor.defaults.template]. *)
Variable templates : gmap string (option engine).
Variable default_template : engine_name.

(** [compileTemplate(template, name)]; a missing [name] is [None]. *)
Definition compileTemplate (template : string) (name : option engine_name)
  : completion compiled :=
  let chosen : completion (option engine) :=
    match default default_template name with
    | Preset n =>
        match templates !! n with
        | None => Throw (JsError ("Unknown template engine " +:+ n))
        | Some None =>
            Throw (JsError ("Template engine " +:+ n +:+ " missing required library."))
        | Some (Some e) => Normal (Some e)
        end
    | Custom e => Normal e
    end in
  match chosen with
  | Throw x => Throw x
  | Normal None => Throw (JsError "No template engine set")
  | Normal (Some e) =>
      match compile e with
      | None => Throw (JsError "Invalid template engine set")
      | Some f => Normal (f template)
      end
  end.

End Engines.

End Templates.

(** ** A small concrete session *)

Module Demo.
Import Json Validator Editor.

(** A root editor that holds a value and the errors shown for it. *)
Record plain_root := PlainRoot {
  held : json;
  shown : list error
}.

#[global] Instance plain_root_editor : RootEditor plain_root := {
  root_build r := r;
  root_getValue r := held r;
  root_setValue v r := PlainRoot v (shown r);
  root_showValidationErrors es r := PlainRoot (held r) es
}.

Definition host : Validator.host :=
  Host (fun _ _ => true) (fun _ => None) (fun _ => "{}").

Definition defs : defaults plain_root :=
  Defaults plain_root "html" {["html" := "div"]} "none" ∅
    {["plain" := fun _ => PlainRoot JNull []]} [fun _ => Some "plain"].

(** [{type: "object", properties: {a: {type: "object", properties:
    {b: {type: "number"}}}}}] *)
Definition nested_schema : Validator.schema :=
  Schema [Type_ [KObject];
          Properties [("a", Schema [Type_ [KObject];
                                    Properties [("b", Schema [Type_ [KNumber]])]])]].

(** [{a: {b: "x"}}] *)
Definition nested_value : json := JObj [("a", JObj [("b", JStr "x")])].

(** [{oneOf: [{type: "number"}, {minimum: 0}]}] *)
Definition one_of_schema : Validator.schema :=
  Schema [OneOf [Schema [Type_ [KNumber]]; Schema [Minimum 0]]].

(** [{oneOf: [{type: "string"}, {minimum: 0}]}] *)
Definition no_branch_schema : Validator.schema :=
  Schema [OneOf [Schema [Type_ [KString]]; Schema [Minimum 0]]].

(** A recursive schema: [definitions/node.properties.child] refers to
    [#/definitions/node]. *)
Definition node_uri : string := "#/definitions/node".
Definition node_schema : Validator.schema :=
  Schema [Type_ [KObject]; Properties [("child", Schema [Ref node_uri])]].
Definition node_table : gmap string Validator.schema := {[node_uri := node_schema]}.

Definition mount : dom_element := Element [] None.

Definition opts : editor_options :=
  Options (JObj [("type", JStr "number")]) (Some (JStr "start")) None "interaction"
    None None None.

Definition number_schema : Validator.schema := Schema [Type_ [KNumber]].

(** The instance right after its construction, before the loader has
    called back. *)
Definition fresh : editor (R := plain_root) :=
  match construct defs (Some mount) opts with
  | Normal e => e
  | Throw _ =>
      Editor mount None false false None None None None None None None None None
        None ∅ false [] []
  end.

Definition session (evs : list event) : editor (R := plain_root) :=
  run host defs (fun s => s) each_in_order evs fresh.

(** A root document that refers to [http://x/defs.json] from two places
    and to one of its own definitions, and the document found there. *)
Definition defs_uri : string := "http://x/defs.json".
Definition root_uri : string := "http://root/schema.json".

Definition root_doc : json :=
  JObj [("properties",
         JObj [("a", JObj [("$ref", JStr "http://x/defs.json#/definitions/a")]);
               ("b", JObj [("$ref", JStr "http://x/defs.json#/definitions/b")]);
               ("c", JObj [("$ref", JStr "#/definitions/c")])]);
        ("definitions", JObj [("c", JObj [("type", JStr "string")])])].

Definition defs_doc : json :=
  JObj [("definitions",
         JObj [("a", JObj [("type", JStr "number")]);
               ("b", JObj [("$ref", JStr "#/definitions/a")])])].





(** The instance once the loader has called back with the plain number
    schema. *)
Definition ready_session : editor (R := plain_root) :=
  session [LoaderResolved number_schema ∅].

(** The load of [root_doc] once its one external document has arrived. *)
Definition arrived : Loader.state :=
  Loader.complete Loader.plain_canonical defs_uri (Loader.Fetched defs_doc)
    (Loader.load Loader.plain_canonical root_uri root_doc).

(** The plain root editor is always enabled. *)
#[global] Instance plain_root_switch : RootSwitch plain_root := {
  root_isEnabled _ := true;
  root_enable r := r;
  root_disable r := r
}.

(** The error of the start value, a string, against the number schema. *)
Definition start_error : error := Error [] "type" "value is not of an allowed type".

(** The ready instance with two listeners of [change] and one of
    [ready], before its first frame. *)
Definition listening : editor (R := plain_root) :=
  run host defs (fun s => s) each_in_order
    [CallOn "change" 1; CallOn "ready" 2; CallOn "change" 3] ready_session.

(** The ready instance after its first frame, with a listener of
    [change], [show_errors] set to [never] and the change frame this
    has scheduled still waiting. *)
Definition hiding : editor (R := plain_root) :=
  run host defs (fun s => s) each_in_order
    [AnimationFrame; CallOn "change" 1; CallSetOption "show_errors" "never"]
    ready_session.

(** The destroyed instance. *)
Definition gone : editor (R := plain_root) :=
  session [LoaderResolved number_schema ∅; CallDestroy].

(** Listeners that return without touching the instance, and
    listeners of which the one numbered 2 throws. *)
Definition returning (cb : nat) : M (R := plain_root) unit :=
  fun e => (e, Normal tt).

Definition throwing (cb : nat) : M (R := plain_root) unit :=
  fun e => if decide (cb = 2) then (e, Throw (JsError "listener")) else (e, Normal tt).

(** Listeners of which the one numbered 1 removes itself from the
    listeners of [change], and the ready instance with four listeners
    of [change]. *)
Definition removing (cb : nat) : M (R := plain_root) unit :=
  fun e => if decide (cb = 1) then off (named "change") (Some 1) e else (e, Normal tt).

Definition crowd : editor (R := plain_root) :=
  run host defs (fun s => s) each_in_order
    [CallOn "change" 4; CallOn "change" 1; CallOn "change" 3; CallOn "change" 5]
    ready_session.

(** Defaults with five resolvers: one that answers nothing, one that
    names a class that is not registered, one that answers the empty
    name, and two that name registered classes. *)
Definition defs_many : defaults plain_root :=
  Defaults plain_root "html" {["html" := "div"]} "none" ∅
    {["plain" := fun _ => PlainRoot JNull [];
      "other" := fun _ => PlainRoot (JStr "other") []]}
    [fun _ => None; fun _ => Some "missing"; fun _ => Some "";
     fun _ => Some "plain"; fun _ => Some "other"].

(** Watchers that return without touching the watch list, and
    watchers of which the one numbered 1 unwatches itself from
    [root.a]. *)
Definition staying (cb : nat) (w : Tables.watchlist)
  : Tables.watchlist * completion unit :=
  (w, Normal tt).

Definition leaving (cb : nat) (w : Tables.watchlist)
  : Tables.watchlist * completion unit :=
  if decide (cb = 1) then (Tables.unwatch "root.a" (Some 1) w, Normal tt)
  else (w, Normal tt).

(** An editor of the tree: its path and a mark to tell two editors at
    the same path apart. *)
Record widget := Widget {
  widget_path : string;
  widget_mark : nat
}.

(** A document whose attribute names are kept as they are given. *)
Definition html_attribute (name : string) : option string := Some name.

(** A document whose element 4 has a class, and a table in a document
    whose element 4 was marked by another hand. *)
Definition classed : gmap nat (gmap string string) :=
  {[4 := {["class" := "je-object"]}]}.

Definition marked : Tables.store (A := json) :=
  Tables.Store 0 (Some ∅) {[4 := {["data-jsoneditor-uuid" := "legacy"]}]}.

(** Two preset engines, the second without its library, and a custom
    engine that cannot compile. *)
Definition engines : gmap string (option (Templates.engine (compiled := string))) :=
  {["default" := Some (Templates.Engine (Some (fun template => template)));
    "mustache" := None]}.

End Demo.

(** * Properties *)

Section ValidatorFacts.
Import Json Validator.

Lemma list_max_elem (l : list nat) (n : nat) : n ∈ l → n ≤ list_max l.
Proof.
  intros H. pose proof (proj1 (list_max_le l (list_max l)) (Nat.le_refl _)) as Hall.
  rewrite List.Forall_forall in Hall. apply Hall. by apply list_elem_of_In.
Qed.

Lemma child_depth (v c : json) : c ∈ children v → Json.depth c < Json.depth v.
Proof.
  destruct v as [| | | |items|members]; simpl; try (intros H; by apply elem_of_nil in H).
  - intros H. apply Nat.lt_succ_r, list_max_elem.
    apply list_elem_of_fmap. by exists c.
  - intros H. apply list_elem_of_fmap in H as [m [-> Hm]].
    apply Nat.lt_succ_r, list_max_elem.
    apply list_elem_of_fmap. by exists m.
Qed.

Lemma first_some_elem {A} (sel : keyword → option A) kws a :
  first_some sel kws = Some a → ∃ k, k ∈ kws ∧ sel k = Some a.
Proof.
  induction kws as [|k kws IH]; simpl; [done|].
  destruct (sel k) eqn:E.
  - intros [= <-]. exists k. split; [left | done].
  - intros H. destruct (IH H) as [k' [? ?]]. exists k'. split; [by right | done].
Qed.

Lemma keyword_depth_lt s k : k ∈ keywords s → keyword_depth k < schema_depth s.
Proof.
  destruct s as [kws]. simpl. intros H.
  apply Nat.lt_succ_r, list_max_elem, list_elem_of_fmap. by exists k.
Qed.

(** A keyword found in a node is one of its keywords, so what it holds
    is less deep than the node. *)
Ltac found H :=
  let k := fresh "k" in
  let Hk := fresh "Hk" in
  let Hsel := fresh "Hsel" in
  unfold find_kw in H;
  apply first_some_elem in H as [k [Hk Hsel]];
  destruct k; try discriminate Hsel;
  injection Hsel as Hsel; subst;
  apply keyword_depth_lt in Hk; simpl in Hk.

Lemma depth_in_list (ss : list schema) sub n :
  sub ∈ ss → list_max (map schema_depth ss) < n → schema_depth sub < n.
Proof.
  intros Hin Hlt. eapply Nat.le_lt_trans; [|exact Hlt].
  apply list_max_elem, list_elem_of_fmap. by exists sub.
Qed.

Lemma depth_in_pairs (ps : list (string * schema)) sub n :
  sub ∈ map snd ps → list_max (map (fun d => schema_depth (snd d)) ps) < n →
  schema_depth sub < n.
Proof.
  intros Hin Hlt. apply list_elem_of_fmap in Hin as [d [-> Hd]].
  eapply Nat.le_lt_trans; [|exact Hlt].
  apply list_max_elem, list_elem_of_fmap. by exists d.
Qed.

Lemma unguarded_depth s sub : sub ∈ unguarded s → schema_depth sub < schema_depth s.
Proof.
  unfold unguarded. rewrite !elem_of_app.
  intros [H|[H|[H|[H|H]]]].
  - destruct (find_kw as_all_of s) as [ss|] eqn:E; simpl in H; [|by apply elem_of_nil in H].
    found E. eauto using depth_in_list.
  - destruct (find_kw as_one_of s) as [ss|] eqn:E; simpl in H; [|by apply elem_of_nil in H].
    found E. eauto using depth_in_list.
  - destruct (find_kw as_any_of s) as [ss|] eqn:E; simpl in H; [|by apply elem_of_nil in H].
    found E. eauto using depth_in_list.
  - destruct (find_kw as_not s) as [sub'|] eqn:E; simpl in H; [|by apply elem_of_nil in H].
    apply list_elem_of_singleton in H as ->. by found E.
  - destruct (find_kw as_dependencies s) as [ds|] eqn:E; simpl in H; [|by apply elem_of_nil in H].
    found E. apply list_elem_of_omap in H as [d [Hd Hsub]].
    eapply Nat.le_lt_trans; [|exact Hk].
    apply list_max_elem, list_elem_of_fmap. exists d. split; [|done].
    destruct (snd d); by simplify_eq.
Qed.

Lemma guarded_depth s sub : sub ∈ guarded s → schema_depth sub < schema_depth s.
Proof.
  unfold guarded. rewrite !elem_of_app.
  intros [H|[H|[H|H]]].
  - destruct (find_kw as_items s) as [sub'|] eqn:E; simpl in H; [|by apply elem_of_nil in H].
    apply list_elem_of_singleton in H as ->. by found E.
  - destruct (find_kw as_properties s) as [ps|] eqn:E; simpl in H; [|by apply elem_of_nil in H].
    found E. eauto using depth_in_pairs.
  - destruct (find_kw as_pattern_properties s) as [ps|] eqn:E; simpl in H;
      [|by apply elem_of_nil in H].
    found E. eauto using depth_in_pairs.
  - destruct (find_kw as_additional_properties s) as [[b|sub']|] eqn:E;
      try (by apply elem_of_nil in H).
    apply list_elem_of_singleton in H as ->. by found E.
Qed.

Lemma table_depth (vd : Validator.t) u t :
  table vd !! u = Some t → schema_depth t ≤ max_depth vd.
Proof.
  intros H. unfold max_depth. etrans; [|apply Nat.le_max_r].
  apply list_max_elem, list_elem_of_fmap. exists (u, t).
  split; [done|]. by apply elem_of_map_to_list.
Qed.

Lemma assoc_child {A} key (l : list (string * A)) a :
  assoc key l = Some a → a ∈ map snd l.
Proof.
  induction l as [|[k x] l IH]; simpl; [done|].
  case_decide.
  - intros [= ->]. left.
  - intros Hl. right. by apply IH.
Qed.

(** *** Hard failures of a run *)

Section Within.
Context (F : failure → Prop).

Lemma within_bind {A B} (m : outcome A) (k : A → outcome B) :
  within F m → (∀ a, within F (k a)) → within F (bind m k).
Proof. destruct m; simpl; auto. Qed.

Lemma within_traverse {A B} (f : A → outcome B) (l : list A) :
  (∀ a, a ∈ l → within F (f a)) → within F (traverse f l).
Proof.
  induction l as [|a l IH]; intros H; simpl; [done|].
  apply within_bind; [apply H; left|]. intros b.
  apply within_bind; [|done]. apply IH. intros a' Ha'. apply H. by right.
Qed.

Lemma within_collect {A} (f : A → outcome (list error)) (l : list A) :
  (∀ a, a ∈ l → within F (f a)) → within F (collect f l).
Proof. intros H. apply within_bind; [by apply within_traverse | done]. Qed.

Context (pm : string → string → bool) (fr : string → option (string → bool)).
Context (tbl : gmap string schema) (custom : list custom_validator).
Context (rec : schema → json → list token → outcome (list error)).
Context (s : schema) (v : json).
Hypothesis rec_unguarded :
  ∀ sub p, sub ∈ unguarded s → within F (rec sub v p).
Hypothesis rec_guarded :
  ∀ sub c p, sub ∈ guarded s → c ∈ children v → within F (rec sub c p).
Hypothesis rec_link :
  ∀ u, link s = Some u → ∃ t, tbl !! u = Some t ∧ ∀ p, within F (rec t v p).

Lemma within_each_item sub p i items :
  sub ∈ guarded s → items ⊆ children v → within F (each_item rec sub p i items).
Proof.
  intros Hsub. revert i. induction items as [|x items IH]; intros i Hin; simpl; [done|].
  apply within_bind; [apply rec_guarded; [done | apply Hin; left]|]. intros e.
  apply within_bind; [|done]. apply IH. intros c Hc. apply Hin. by right.
Qed.

Lemma within_check_array p : within F (check_array rec s v p).
Proof.
  unfold check_array. case_eq v; try done. intros items Ev.
  apply within_bind; [|done].
  destruct (find_kw as_items s) as [sub|] eqn:E; [|done].
  apply within_each_item; [|by rewrite Ev].
  unfold guarded. rewrite E. simpl. left.
Qed.

Lemma within_check_object p : within F (check_object pm rec s v p).
Proof.
  unfold check_object. case_eq v; try done. intros members Ev.
  apply within_bind; [|intros e1; apply within_bind; [|intros e2; apply within_bind;
    [|intros e3; apply within_bind; [|done]]]].
  - destruct (find_kw as_properties s) as [ps|] eqn:E; [|done].
    apply within_collect. intros d Hd.
    destruct (assoc (fst d) members) as [x|] eqn:Ex; [|done].
    apply rec_guarded; [|rewrite Ev; by eapply assoc_child].
    unfold guarded. rewrite E. simpl. rewrite !elem_of_app. right; left.
    apply list_elem_of_fmap. by exists d.
  - destruct (find_kw as_pattern_properties s) as [pps|] eqn:E; [|done].
    apply within_collect. intros d Hd. apply within_collect. intros m Hm.
    destruct (pm (fst d) (fst m)); [|done].
    apply rec_guarded; [|rewrite Ev; apply list_elem_of_fmap; by exists m].
    unfold guarded. rewrite E. simpl. rewrite !elem_of_app. right; right; left.
    apply list_elem_of_fmap. by exists d.
  - destruct (find_kw as_additional_properties s) as [a|] eqn:E; [|done].
    apply within_collect. intros m Hm.
    destruct (additional pm s (fst m)); [|done].
    destruct a as [[|]|sub]; try done.
    apply rec_guarded; [|rewrite Ev; apply list_elem_of_fmap; by exists m].
    unfold guarded. rewrite E. rewrite !elem_of_app. right; right; right. left.
  - destruct (find_kw as_dependencies s) as [ds|] eqn:E; [|done].
    apply within_collect. intros d Hd.
    destruct (has_key (fst d) members); [|done].
    destruct (snd d) as [keys|sub] eqn:Ed; [done|].
    rewrite <- Ev. apply rec_unguarded.
    unfold unguarded. rewrite E. simpl. rewrite !elem_of_app. do 4 right.
    apply list_elem_of_omap. exists d. by rewrite Ed.
Qed.

Lemma within_combinators p :
  within F (check_all_of rec s v p) ∧ within F (check_one_of rec s v p) ∧
  within F (check_any_of rec s v p) ∧ within F (check_not rec s v p).
Proof.
  repeat split.
  - unfold check_all_of. destruct (find_kw as_all_of s) as [ss|] eqn:E; [|done].
    apply within_collect. intros sub Hsub. apply rec_unguarded.
    unfold unguarded. rewrite E. simpl. rewrite !elem_of_app. by left.
  - unfold check_one_of. destruct (find_kw as_one_of s) as [ss|] eqn:E; [|done].
    apply within_bind; [|done]. apply within_traverse. intros sub Hsub.
    apply rec_unguarded.
    unfold unguarded. rewrite E. simpl. rewrite !elem_of_app. right; by left.
  - unfold check_any_of. destruct (find_kw as_any_of s) as [ss|] eqn:E; [|done].
    apply within_bind; [|done]. apply within_traverse. intros sub Hsub.
    apply rec_unguarded.
    unfold unguarded. rewrite E. simpl. rewrite !elem_of_app. right; right; by left.
  - unfold check_not. destruct (find_kw as_not s) as [sub|] eqn:E; [|done].
    apply within_bind; [|done]. apply rec_unguarded.
    unfold unguarded. rewrite E. simpl. rewrite !elem_of_app. do 3 right. left.
Qed.

Lemma within_check_ref p : within F (check_ref tbl rec s v p).
Proof.
  unfold check_ref. destruct (find_kw as_ref s) as [u|] eqn:E; [|done].
  destruct (rec_link u E) as [t [-> Ht]]. apply Ht.
Qed.

Lemma within_validate_node p :
  within F (run_custom custom s v p) →
  within F (validate_node pm fr tbl custom rec s v p).
Proof.
  intros Hcustom. unfold validate_node.
  destruct (within_combinators p) as (Hall & Hone & Hany & Hnot).
  apply within_bind.
  { destruct (check_type s v p); [|done].
    apply within_bind; [apply within_check_array|]. intros ?.
    apply within_bind; [apply within_check_object|]. done. }
  intros ?. apply within_bind; [done|].
  intros ?. apply within_bind; [done|].
  intros ?. apply within_bind; [done|].
  intros ?. apply within_bind; [done|].
  intros ?. apply within_bind; [apply within_check_ref|].
  intros ?. apply within_bind; [done|]. done.
Qed.
End Within.

Lemma within_run_custom custom s v p :
  within (custom_threw custom) (run_custom custom s v p).
Proof.
  apply within_collect. intros check Hin.
  destruct (check s v p) as [es|] eqn:E; [done|].
  split; [done|]. by exists check, s, v, p.
Qed.

Lemma within_run_custom_total (F : failure → Prop) custom s v p :
  (∀ check s v p, check ∈ custom → is_Some (check s v p)) →
  within F (run_custom custom s v p).
Proof.
  intros Htotal. apply within_collect. intros check Hin.
  by destruct (Htotal check s v p Hin) as [es ->].
Qed.

Lemma measure_guarded (dv dc N D ds dsub r fuel : nat) :
  dsub < ds → dc < dv → ds ≤ D →
  dv * (S N * S D) + r * S D + ds < S fuel →
  dc * (S N * S D) + N * S D + dsub < fuel.
Proof. nia. Qed.

Lemma measure_link (dv N D ds dt r ru fuel : nat) :
  ru < r → dt ≤ D →
  dv * (S N * S D) + r * S D + ds < S fuel →
  dv * (S N * S D) + ru * S D + dt < fuel.
Proof. nia. Qed.

Lemma measure_root (dv N D dr : nat) :
  dr ≤ D → dv * (S N * S D) + N * S D + dr < S (S dv * (S N * S D)).
Proof. nia. Qed.

(** *** Enough fuel

    A run at value [v], rank bound [r] and node [s] nests at most
    [depth v * (S N * S D) + r * S D + schema_depth s] calls. *)
Section Fuel.
Context (F : failure → Prop).
Context (pm : string → string → bool) (fr : string → option (string → bool)).
Context (tbl : gmap string schema) (custom : list custom_validator).
Context (rank : string → nat) (N D : nat).
Hypothesis entries :
  ∀ u t, tbl !! u = Some t →
         rank u < N ∧ linked rank tbl N (rank u) t ∧ schema_depth t ≤ D.
Hypothesis customs : ∀ s v p, within F (run_custom custom s v p).

Lemma validate_schema_within fuel :
  ∀ s v p r,
    linked rank tbl N r s → r ≤ N → schema_depth s ≤ D →
    Json.depth v * (S N * S D) + r * S D + schema_depth s < fuel →
    within F (validate_schema pm fr tbl custom fuel s v p).
Proof.
  induction fuel as [|fuel IH]; intros s v p r Hlinked Hr Hs Hfuel; [lia|].
  change (within F (validate_node pm fr tbl custom
                      (validate_schema pm fr tbl custom fuel) s v p)).
  destruct Hlinked as [r s Hun Hgu Hlink].
  apply (within_validate_node F pm fr tbl custom
           (validate_schema pm fr tbl custom fuel) s v).
  - intros sub p' Hsub. pose proof (unguarded_depth _ _ Hsub) as Hd.
    apply (IH sub v p' r); [by apply Hun | exact Hr | lia | lia].
  - intros sub c p' Hsub Hc. pose proof (guarded_depth _ _ Hsub) as Hd.
    apply (IH sub c p' N); [by apply Hgu | lia | lia |].
    eapply measure_guarded; [exact Hd | by apply child_depth | exact Hs | exact Hfuel].
  - intros u Hu. destruct (Hlink u Hu) as [t [Ht Hrank]].
    exists t. split; [exact Ht|]. intros p'.
    destruct (entries u t Ht) as (HrN & Hlinked & Hdepth).
    apply (IH t v p' (rank u)); [exact Hlinked | lia | exact Hdepth |].
    eapply measure_link; [exact Hrank | exact Hdepth | exact Hfuel].
  - apply customs.
Qed.
End Fuel.

(** On a well-formed graph the budget of [validate] is enough. *)
Lemma validate_within (F : failure → Prop) h vd v :
  well_formed (root vd) (table vd) →
  (∀ s v p, within F (run_custom (custom_validators vd) s v p)) →
  within F (validate h vd v).
Proof.
  intros [rank [Hroot Htbl]] Hcustom. unfold validate, budget.
  apply (validate_schema_within F _ _ _ _ rank (size (table vd)) (max_depth vd))
    with (r := size (table vd)).
  - intros u t Ht. destruct (Htbl u t Ht) as [? ?].
    split_and!; [assumption | assumption |]. by eapply table_depth.
  - exact Hcustom.
  - exact Hroot.
  - apply Nat.le_refl.
  - apply Nat.le_max_l.
  - apply measure_root, Nat.le_max_l.
Qed.

(** With custom validators that never throw, a run on a well-formed graph
    always returns its list of errors. *)
Lemma validate_total h vd v :
  well_formed (root vd) (table vd) →
  (∀ check s v p, check ∈ custom_validators vd → is_Some (check s v p)) →
  ∃ es, validate h vd v = Returned es.
Proof.
  intros Hgraph Htotal.
  pose proof (validate_within (fun _ => False) h vd v Hgraph) as Hrun.
  destruct (validate h vd v) as [es|f]; [by exists es|].
  destruct Hrun. intros s v' p. by apply within_run_custom_total.
Qed.

End ValidatorFacts.



Section ValidatorClaims.
Import Json Validator.
Context (pm : string → string → bool) (fr : string → option (string → bool)).
Context (tbl : gmap string schema) (custom : list custom_validator).

Lemma bind_returned {A B} (m : outcome A) (k : A → outcome B) b :
  Validator.bind m k = Returned b → ∃ a, m = Returned a ∧ k a = Returned b.
Proof. destruct m as [a|f]; simpl; [|done]. intros Hk. by exists a. Qed.

Lemma traverse_ext {A B} (f g : A → outcome B) (l : list A) :
  (∀ a, a ∈ l → f a = g a) → traverse f l = traverse g l.
Proof.
  induction l as [|a l IH]; intros Hfg; simpl; [done|].
  rewrite (Hfg a) by left. rewrite IH; [done|].
  intros a' Ha'. apply Hfg. by right.
Qed.

Lemma collect_ext {A} (f g : A → outcome (list error)) (l : list A) :
  (∀ a, a ∈ l → f a = g a) → collect f l = collect g l.
Proof. intros Hfg. unfold collect. by rewrite (traverse_ext f g). Qed.

Lemma assoc_member {A} key (l : list (string * A)) a :
  assoc key l = Some a → (key, a) ∈ l.
Proof.
  induction l as [|[k x] l IH]; simpl; [done|].
  case_decide.
  - intros [= ->]. subst. left.
  - intros Hl. right. by apply IH.
Qed.

(** *** The path handed to a child call *)

Section Descent.
Context (rec rec' : schema → json → list token → outcome (list error)).
Context (v : json) (p : list token).
Hypothesis same_value : ∀ sub, rec sub v p = rec' sub v p.
Hypothesis one_token :
  ∀ sub tok c, child_of v tok c → rec sub c (p ++ [tok]) = rec' sub c (p ++ [tok]).

Lemma each_item_ext sub (items : list json) i :
  (∀ j x, items !! j = Some x →
          rec sub x (p ++ [Index (i + j)]) = rec' sub x (p ++ [Index (i + j)])) →
  each_item rec sub p i items = each_item rec' sub p i items.
Proof.
  revert i. induction items as [|x items IH]; intros i Hrec; simpl; [done|].
  pose proof (Hrec 0 x eq_refl) as H0. rewrite Nat.add_0_r in H0. rewrite H0.
  rewrite (IH (S i)); [done|].
  intros j y Hy. replace (S i + j) with (i + S j) by lia. by apply Hrec.
Qed.

Lemma check_array_ext s : check_array rec s v p = check_array rec' s v p.
Proof.
  unfold check_array. case_eq v; try done. intros items Ev.
  destruct (find_kw as_items s) as [sub|]; [|done].
  rewrite (each_item_ext sub items 0); [done|].
  intros j x Hx. apply one_token. by rewrite Ev.
Qed.

Lemma check_object_ext s : check_object pm rec s v p = check_object pm rec' s v p.
Proof.
  unfold check_object. case_eq v; try done. intros members Ev.
  assert (Hmember : ∀ sub k x, (k, x) ∈ members →
            rec sub x (p ++ [Key k]) = rec' sub x (p ++ [Key k])).
  { intros sub k x Hin. apply one_token. by rewrite Ev. }
  assert (Hprops : ∀ ps, check_properties rec ps members p =
                         check_properties rec' ps members p).
  { intros ps. apply collect_ext. intros d _.
    destruct (assoc (fst d) members) as [x|] eqn:Ex; [|done].
    apply Hmember. by apply assoc_member. }
  assert (Hpattern : ∀ pps, check_pattern_properties pm rec pps members p =
                            check_pattern_properties pm rec' pps members p).
  { intros pps. apply collect_ext. intros d _. apply collect_ext. intros [k x] Hm.
    simpl. destruct (pm (fst d) k); [|done]. by apply Hmember. }
  assert (Hadd : ∀ a, check_additional_properties pm rec s a members p =
                      check_additional_properties pm rec' s a members p).
  { intros a. apply collect_ext. intros [k x] Hm. simpl.
    destruct (additional pm s k); [|done].
    destruct a as [[|]|sub]; try done. by apply Hmember. }
  assert (Hdeps : ∀ ds, check_dependencies rec ds (JObj members) members p =
                        check_dependencies rec' ds (JObj members) members p).
  { intros ds. apply collect_ext. intros d _.
    destruct (has_key (fst d) members); [|done].
    destruct (snd d) as [keys|sub]; [done|]. rewrite <- Ev. apply same_value. }
  destruct (find_kw as_properties s); destruct (find_kw as_pattern_properties s);
    destruct (find_kw as_additional_properties s);
    destruct (find_kw as_dependencies s);
    by rewrite ?Hprops, ?Hpattern, ?Hadd, ?Hdeps.
Qed.

Lemma validate_node_ext s :
  validate_node pm fr tbl custom rec s v p =
  validate_node pm fr tbl custom rec' s v p.
Proof.
  unfold validate_node. rewrite check_array_ext, check_object_ext.
  assert (Hall : check_all_of rec s v p = check_all_of rec' s v p).
  { unfold check_all_of. destruct (find_kw as_all_of s); [|done].
    apply collect_ext. intros sub _. apply same_value. }
  assert (Hone : check_one_of rec s v p = check_one_of rec' s v p).
  { unfold check_one_of. destruct (find_kw as_one_of s) as [ss|]; [|done].
    by rewrite (traverse_ext (fun sub => rec sub v p) (fun sub => rec' sub v p)). }
  assert (Hany : check_any_of rec s v p = check_any_of rec' s v p).
  { unfold check_any_of. destruct (find_kw as_any_of s) as [ss|]; [|done].
    by rewrite (traverse_ext (fun sub => rec sub v p) (fun sub => rec' sub v p)). }
  assert (Hnot : check_not rec s v p = check_not rec' s v p).
  { unfold check_not. destruct (find_kw as_not s); [|done]. by rewrite same_value. }
  assert (Href : check_ref tbl rec s v p = check_ref tbl rec' s v p).
  { unfold check_ref. destruct (find_kw as_ref s) as [u|]; [|done].
    destruct (tbl !! u); [|done]. apply same_value. }
  by rewrite Hall, Hone, Hany, Hnot, Href.
Qed.
End Descent.

(** *** Where the errors of a run lie *)

Lemma under_weaken p q es : errors_under (p ++ q) es → errors_under p es.
Proof.
  unfold errors_under. intros Hes. eapply Forall_impl; [exact Hes|].
  intros e He. etrans; [|exact He]. by apply prefix_app_r.
Qed.

Lemma under_concat p ess : Forall (errors_under p) ess → errors_under p (concat ess).
Proof.
  induction 1 as [|es ess Hes _ IH]; simpl; [constructor|]. by apply Forall_app.
Qed.

Lemma traverse_under {A} (f : A → outcome (list error)) l p bs :
  (∀ a es, a ∈ l → f a = Returned es → errors_under p es) →
  traverse f l = Returned bs → Forall (errors_under p) bs.
Proof.
  revert bs. induction l as [|a l IH]; intros bs Hf; simpl.
  - intros [= <-]. constructor.
  - intros Hbs. apply bind_returned in Hbs as (es & Hes & Hbs).
    apply bind_returned in Hbs as (bs' & Hbs' & Hbs). injection Hbs as <-.
    constructor.
    + apply (Hf a); [left | done].
    + apply IH; [|done]. intros a' es' Ha'. apply Hf. by right.
Qed.

Lemma collect_under {A} (f : A → outcome (list error)) l p es :
  (∀ a es, a ∈ l → f a = Returned es → errors_under p es) →
  collect f l = Returned es → errors_under p es.
Proof.
  intros Hf Hes. unfold collect in Hes.
  apply bind_returned in Hes as (bs & Hbs & Hes). injection Hes as <-.
  by eapply under_concat, traverse_under.
Qed.

(** A list built from single errors placed at [p] or one token below. *)
Ltac under_plain :=
  unfold errors_under;
  repeat first
    [ apply Forall_nil_2
    | apply Forall_app_2
    | apply Forall_cons_2; [simpl; first [reflexivity | by apply prefix_app_r]|]
    | case_match ].

Lemma flat_map_under {A} (f : A → list error) l p :
  (∀ a, errors_under p (f a)) → errors_under p (flat_map f l).
Proof.
  intros Hf. induction l as [|a l IH]; simpl; [constructor|].
  apply Forall_app. split; [apply Hf | exact IH].
Qed.

Section Under.
Context (rec : schema → json → list token → outcome (list error)).
Hypothesis rec_under : ∀ sub c q es, rec sub c q = Returned es → errors_under q es.

Lemma each_item_under sub p i items es :
  each_item rec sub p i items = Returned es → errors_under p es.
Proof.
  revert i es. induction items as [|x items IH]; intros i es; simpl.
  - intros [= <-]. constructor.
  - intros Hes. apply bind_returned in Hes as (e1 & He1 & Hes).
    apply bind_returned in Hes as (e2 & He2 & Hes). injection Hes as <-.
    apply Forall_app. split; [|by eapply IH].
    eapply under_weaken, rec_under, He1.
Qed.

Lemma check_array_under s v p es :
  check_array rec s v p = Returned es → errors_under p es.
Proof.
  unfold check_array. destruct v as [| | | |items|]; try (intros [= <-]; constructor).
  intros Hes. apply bind_returned in Hes as (e_items & Hitems & Hes).
  injection Hes as <-. apply Forall_app. split; [|under_plain].
  destruct (find_kw as_items s) as [sub|]; [by eapply each_item_under|].
  injection Hitems as <-. constructor.
Qed.

Lemma check_object_under s v p es :
  check_object pm rec s v p = Returned es → errors_under p es.
Proof.
  unfold check_object. destruct v as [| | | | |members]; try (intros [= <-]; constructor).
  intros Hes.
  apply bind_returned in Hes as (e_props & Hprops & Hes).
  apply bind_returned in Hes as (e_pattern & Hpattern & Hes).
  apply bind_returned in Hes as (e_add & Hadd & Hes).
  apply bind_returned in Hes as (e_deps & Hdeps & Hes).
  injection Hes as <-. repeat (apply Forall_app; split).
  - destruct (find_kw as_properties s) as [ps|]; [|injection Hprops as <-; constructor].
    eapply collect_under; [|exact Hprops]. intros d es' _ Hd. simpl in Hd.
    destruct (assoc (fst d) members); [|injection Hd as <-; constructor].
    eapply under_weaken, rec_under, Hd.
  - destruct (find_kw as_pattern_properties s) as [pps|];
      [|injection Hpattern as <-; constructor].
    eapply collect_under; [|exact Hpattern]. intros d es' _ Hd. simpl in Hd.
    eapply collect_under; [|exact Hd]. intros m es'' _ Hm. simpl in Hm.
    destruct (pm (fst d) (fst m)); [|injection Hm as <-; constructor].
    eapply under_weaken, rec_under, Hm.
  - destruct (find_kw as_additional_properties s) as [a|];
      [|injection Hadd as <-; constructor].
    eapply collect_under; [|exact Hadd]. intros m es' _ Hm. simpl in Hm.
    destruct (additional pm s (fst m)); [|injection Hm as <-; constructor].
    destruct a as [[|]|sub].
    + injection Hm as <-. constructor.
    + injection Hm as <-. under_plain.
    + eapply under_weaken, rec_under, Hm.
  - destruct (find_kw as_required s) as [keys|]; [|constructor].
    apply flat_map_under. intros k. under_plain.
  - under_plain.
  - under_plain.
  - destruct (find_kw as_dependencies s) as [ds|]; [|injection Hdeps as <-; constructor].
    eapply collect_under; [|exact Hdeps]. intros d es' _ Hd. simpl in Hd.
    destruct (has_key (fst d) members); [|injection Hd as <-; constructor].
    destruct (snd d) as [keys|sub].
    + injection Hd as <-. apply flat_map_under. intros k. under_plain.
    + eapply rec_under, Hd.
Qed.

Lemma combinators_under s v p :
  (∀ es, check_all_of rec s v p = Returned es → errors_under p es) ∧
  (∀ es, check_one_of rec s v p = Returned es → errors_under p es) ∧
  (∀ es, check_any_of rec s v p = Returned es → errors_under p es) ∧
  (∀ es, check_not rec s v p = Returned es → errors_under p es) ∧
  (∀ es, check_ref tbl rec s v p = Returned es → errors_under p es).
Proof.
  split_and!; intros es.
  - unfold check_all_of. destruct (find_kw as_all_of s) as [ss|];
      [|intros [= <-]; constructor].
    intros Hes. eapply collect_under; [|exact Hes]. intros sub es' _. apply rec_under.
  - unfold check_one_of. destruct (find_kw as_one_of s) as [ss|];
      [|intros [= <-]; constructor].
    intros Hes. apply bind_returned in Hes as (bs & Hbs & Hes). injection Hes as <-.
    assert (errors_under p (concat bs)).
    { eapply under_concat, traverse_under; [|exact Hbs].
      intros sub es' _. apply rec_under. }
    destruct (passing bs) as [|[|n]]; [|constructor|under_plain].
    constructor; [reflexivity | done].
  - unfold check_any_of. destruct (find_kw as_any_of s) as [ss|];
      [|intros [= <-]; constructor].
    intros Hes. apply bind_returned in Hes as (bs & Hbs & Hes). injection Hes as <-.
    assert (errors_under p (concat bs)).
    { eapply under_concat, traverse_under; [|exact Hbs].
      intros sub es' _. apply rec_under. }
    destruct (passing bs) as [|n]; [|constructor].
    constructor; [reflexivity | done].
  - unfold check_not. destruct (find_kw as_not s) as [sub|];
      [|intros [= <-]; constructor].
    intros Hes. apply bind_returned in Hes as (es' & _ & Hes). injection Hes as <-.
    under_plain.
  - unfold check_ref. destruct (find_kw as_ref s) as [u|];
      [|intros [= <-]; constructor].
    destruct (tbl !! u); [apply rec_under | done].
Qed.

Lemma validate_node_under s v p es :
  (∀ es, run_custom custom s v p = Returned es → errors_under p es) →
  validate_node pm fr tbl custom rec s v p = Returned es → errors_under p es.
Proof.
  intros Hcustom. unfold validate_node. intros Hes.
  destruct (combinators_under s v p) as (Hall & Hone & Hany & Hnot & Href).
  apply bind_returned in Hes as (e_kind & Hkind & Hes).
  apply bind_returned in Hes as (e_all & ?%Hall & Hes).
  apply bind_returned in Hes as (e_one & ?%Hone & Hes).
  apply bind_returned in Hes as (e_any & ?%Hany & Hes).
  apply bind_returned in Hes as (e_not & ?%Hnot & Hes).
  apply bind_returned in Hes as (e_ref & ?%Href & Hes).
  apply bind_returned in Hes as (e_custom & ?%Hcustom & Hes).
  injection Hes as <-.
  assert (errors_under p e_kind).
  { destruct (check_type s v p); [|injection Hkind as <-; constructor].
    apply bind_returned in Hkind as (e_array & ?%check_array_under & Hkind).
    apply bind_returned in Hkind as (e_object & ?%check_object_under & Hkind).
    injection Hkind as <-. repeat (apply Forall_app; split); try done.
    - unfold check_numeric. under_plain.
    - unfold check_string. under_plain. }
  repeat (apply Forall_app; split); try done.
  - unfold check_type. under_plain.
  - unfold check_enum. under_plain.
  - unfold check_const. under_plain.
Qed.
End Under.

(** With custom validators that place their errors at or below the path
    they are given, every error of a run started at [p] lies at [p] or
    below it. *)
Lemma validate_schema_under fuel :
  (∀ check s v p es, check ∈ custom → check s v p = Some es → errors_under p es) →
  ∀ s v p es,
    validate_schema pm fr tbl custom fuel s v p = Returned es → errors_under p es.
Proof.
  intros Hcustom. induction fuel as [|fuel IH]; intros s v p es; [done|].
  simpl. apply validate_node_under; [exact IH|].
  intros es' Hes'. eapply collect_under; [|exact Hes'].
  intros check es'' Hin Hcheck. simpl in Hcheck.
  destruct (check s v p) as [es0|] eqn:E; [|done]. injection Hcheck as <-.
  by eapply Hcustom.
Qed.

(** *** [oneOf] *)

Lemma validate_node_one_of rec s v p es :
  validate_node pm fr tbl custom rec s v p = Returned es →
  ∃ e_one, check_one_of rec s v p = Returned e_one ∧ e_one ⊆ es.
Proof.
  unfold validate_node. intros Hes.
  apply bind_returned in Hes as (e_kind & _ & Hes).
  apply bind_returned in Hes as (e_all & _ & Hes).
  apply bind_returned in Hes as (e_one & Hone & Hes).
  apply bind_returned in Hes as (e_any & _ & Hes).
  apply bind_returned in Hes as (e_not & _ & Hes).
  apply bind_returned in Hes as (e_ref & _ & Hes).
  apply bind_returned in Hes as (e_custom & _ & Hes).
  injection Hes as <-. exists e_one. split; [done|].
  intros x Hx. rewrite !elem_of_app. tauto.
Qed.

Lemma traverse_returned {A B} (f : A → outcome B) (l : list A) bs :
  traverse f l = Returned bs → Forall2 (fun a b => f a = Returned b) l bs.
Proof.
  revert bs. induction l as [|a l IH]; intros bs Hbs; simpl in Hbs.
  - injection Hbs as <-. constructor.
  - apply bind_returned in Hbs as (b & Hb & Hbs).
    apply bind_returned in Hbs as (bs' & Hbs' & Hbs).
    injection Hbs as <-. constructor; [done|]. by apply IH.
Qed.

(** The count of passing branches, read off the branch results. *)
Lemma passing_cons b branches :
  passing (b :: branches) =
  (if decide (b = []) then 1 else 0) + passing branches.
Proof.
  unfold passing. rewrite filter_cons. by destruct (decide (b = [])).
Qed.

Lemma passing_none branches :
  (∀ b, b ∈ branches → b ≠ []) → passing branches = 0.
Proof.
  induction branches as [|b branches IH]; intros Hnone; [done|].
  rewrite passing_cons, IH.
  - rewrite decide_False; [done|]. apply Hnone. by left.
  - intros b' Hb'. apply Hnone. by right.
Qed.

Lemma passing_some branches i :
  branches !! i = Some [] → 0 < passing branches.
Proof.
  revert i. induction branches as [|b branches IH]; intros [|i] Hi; try done.
  - injection Hi as ->. rewrite passing_cons, decide_True by done. lia.
  - rewrite passing_cons. cbn in Hi. apply IH in Hi. lia.
Qed.

Lemma passing_several branches i j :
  i ≠ j → branches !! i = Some [] → branches !! j = Some [] →
  1 < passing branches.
Proof.
  revert i j. induction branches as [|b branches IH]; intros [|i] [|j] Hij Hi Hj;
    try done; rewrite passing_cons.
  - injection Hi as ->. rewrite decide_True by done.
    cbn in Hj. apply passing_some in Hj. lia.
  - injection Hj as ->. rewrite decide_True by done.
    cbn in Hi. apply passing_some in Hi. lia.
  - cbn in Hi, Hj.
    assert (Hgo : 1 < passing branches) by (apply (IH i j); [lia|done..]). lia.
Qed.

Lemma passing_single branches i :
  branches !! i = Some [] → (∀ j, j ≠ i → branches !! j ≠ Some []) →
  passing branches = 1.
Proof.
  revert i. induction branches as [|b branches IH]; intros [|i] Hi Hother;
    try done; rewrite passing_cons.
  - injection Hi as ->. rewrite decide_True by done.
    rewrite passing_none; [done|].
    intros b [k Hk]%list_elem_of_lookup ->. by apply (Hother (S k)).
  - cbn in Hi. rewrite decide_False.
    + apply (IH i); [done|]. intros j Hj. apply (Hother (S j)). lia.
    + intros ->. by apply (Hother 0).
Qed.

Lemma one_of_rule fuel s v p ss es :
  find_kw as_one_of s = Some ss →
  validate_schema pm fr tbl custom (S fuel) s v p = Returned es →
  ∃ branches reported,
    Forall2 (fun sub b => validate_schema pm fr tbl custom fuel sub v p = Returned b)
      ss branches ∧
    (∀ e, e ∈ reported → e ∈ es) ∧
    ((∀ b, b ∈ branches → b ≠ []) →
     reported = Error p "oneOf" "value matches no branch" :: concat branches) ∧
    ((∃ i j, i ≠ j ∧ branches !! i = Some [] ∧ branches !! j = Some []) →
     reported = [Error p "oneOf" "ambiguous match"]) ∧
    ((∃ i, branches !! i = Some [] ∧ ∀ j, j ≠ i → branches !! j ≠ Some []) →
     reported = []) ∧
    check_one_of (validate_schema pm fr tbl custom fuel) s v p = Returned reported.
Proof.
  intros Hss Hes. simpl in Hes.
  apply validate_node_one_of in Hes as (e_one & Hone & Hsub).
  pose proof Hone as Hstep.
  unfold check_one_of in Hone. rewrite Hss in Hone.
  apply bind_returned in Hone as (branches & Hbranches & Hone).
  injection Hone as <-. eexists branches, _.
  split; [by apply traverse_returned|]. split; [exact Hsub|]. split_and!.
  - intros Hnone. by rewrite passing_none.
  - intros (i & j & Hij & Hi & Hj).
    pose proof (passing_several branches i j Hij Hi Hj) as Hmany.
    destruct (passing branches) as [|[|n]]; [lia|lia|done].
  - intros (i & Hi & Hother). by rewrite (passing_single branches i).
  - exact Hstep.
Qed.

End ValidatorClaims.

(** C6: the root call starts with the empty path, and a node hands to a
    child call its own path extended by exactly one token, the property
    name or array index that leads to that child: the result of a node
    depends on the recursion only at the same value with the same path and
    at a child with the path [p ++ [tok]].  So every error of a call at
    path [p] lies at [p] or below it (custom validators placing theirs
    there too).  For the schema [{type:"object", properties:{a:{type:
    "object", properties:{b:{type:"number"}}}}}] and the value
    [{a:{b:"x"}}] the result is exactly one error, with path [["a","b"]]
    and property ["type"]. *)
Theorem error_paths :
  (∀ h vd v,
     Validator.validate h vd v =
     Validator.validate_schema (Validator.pattern_matches h)
       (Validator.format_recognizer h) (Validator.table vd)
       (Validator.custom_validators vd) (Validator.budget vd v)
       (Validator.root vd) v []) ∧
  (∀ pm fr tbl custom rec rec' s (v : Json.json) (p : list Validator.token),
     (∀ sub, rec sub v p = rec' sub v p) →
     (∀ sub tok c, Validator.child_of v tok c →
                   rec sub c (p ++ [tok]) = rec' sub c (p ++ [tok])) →
     Validator.validate_node pm fr tbl custom rec s v p =
     Validator.validate_node pm fr tbl custom rec' s v p) ∧
  (∀ pm fr tbl (custom : list Validator.custom_validator) fuel s v p es,
     (∀ check s v p es, check ∈ custom → check s v p = Some es →
                        Validator.errors_under p es) →
     Validator.validate_schema pm fr tbl custom fuel s v p = Validator.Returned es →
     Validator.errors_under p es) ∧
  (∀ h, ∃ msg,
     Validator.validate h (Validator.Validator Demo.nested_schema ∅ []) Demo.nested_value =
     Validator.Returned
       [Validator.Error [Validator.Key "a"; Validator.Key "b"] "type" msg]).
Proof.
  split_and!.
  - done.
  - intros. by apply validate_node_ext.
  - intros pm fr tbl custom fuel s v p es Hcustom. by apply validate_schema_under.
  - intros h. eexists. vm_compute. reflexivity.
Qed.

(** C7: for a node with [oneOf] the value is validated against every
    branch; a branch passes when its validation reports no error, and
    what the [oneOf] step reports is part of the result of the node.  When
    no branch passes, the result holds a synthetic [oneOf] error and
    every error of every branch (the [oneOf] step reports the synthetic
    error followed by the branch errors); when more than one branch
    passes it holds an ["ambiguous match"] error, which is all the step
    reports; when exactly one passes the step reports nothing.  The
    schema [{oneOf:[{type:"number"},{minimum:0}]}] validated against [5]
    yields exactly the ["ambiguous match"] error and against [-5] no
    error; [{oneOf:[{type:"string"},{minimum:0}]}] validated against
    [-1] yields the synthetic error and the error of each branch. *)
Theorem one_of_errors :
  (∀ pm fr tbl custom fuel s v p ss es,
     Validator.find_kw Validator.as_one_of s = Some ss →
     Validator.validate_schema pm fr tbl custom (S fuel) s v p = Validator.Returned es →
     ∃ branches reported,
       Forall2 (fun sub b => Validator.validate_schema pm fr tbl custom fuel sub v p
                             = Validator.Returned b) ss branches ∧
       Validator.check_one_of (Validator.validate_schema pm fr tbl custom fuel) s v p =
         Validator.Returned reported ∧
       (∀ e, e ∈ reported → e ∈ es) ∧
       ((∀ b, b ∈ branches → b ≠ []) →
        reported = Validator.Error p "oneOf" "value matches no branch" :: concat branches ∧
        Validator.Error p "oneOf" "value matches no branch" ∈ es ∧
        ∀ b e, b ∈ branches → e ∈ b → e ∈ es) ∧
       ((∃ i j, i ≠ j ∧ branches !! i = Some [] ∧ branches !! j = Some []) →
        reported = [Validator.Error p "oneOf" "ambiguous match"] ∧
        Validator.Error p "oneOf" "ambiguous match" ∈ es) ∧
       ((∃ i, branches !! i = Some [] ∧ ∀ j, j ≠ i → branches !! j ≠ Some []) →
        reported = [])) ∧
  (∀ h,
     Validator.validate h (Validator.Validator Demo.one_of_schema ∅ []) (Json.JNum 5) =
       Validator.Returned [Validator.Error [] "oneOf" "ambiguous match"] ∧
     Validator.validate h (Validator.Validator Demo.one_of_schema ∅ []) (Json.JNum (-5)) =
       Validator.Returned [] ∧
     Validator.validate h (Validator.Validator Demo.no_branch_schema ∅ []) (Json.JNum (-1)) =
       Validator.Returned
         [Validator.Error [] "oneOf" "value matches no branch";
          Validator.Error [] "type" "value is not of an allowed type";
          Validator.Error [] "minimum" "value is below the minimum"]).
Proof.
  split.
  - intros pm fr tbl custom fuel s v p ss es Hss Hes.
    destruct (one_of_rule pm fr tbl custom fuel s v p ss es Hss Hes)
      as (branches & reported & Hbranches & Hsub & Hnone & Hmany & Hone & Hstep).
    exists branches, reported. split_and!; try done.
    + intros Hno. specialize (Hnone Hno). split; [done|]. split.
      * apply Hsub. rewrite Hnone. by left.
      * intros b e Hb He. apply Hsub. rewrite Hnone. right.
        apply list_elem_of_In, in_concat. exists b. split; by apply list_elem_of_In.
    + intros Hseveral. specialize (Hmany Hseveral). split; [done|].
      apply Hsub. rewrite Hmany. by left.
  - intros h. split_and!; vm_compute; reflexivity.
Qed.

Section EditorFacts.
Import Json Validator Editor.
Context {R : Type} `{RootEditor R}.
Context (host : Validator.host) (defs : defaults R).
Context (expandSchema : Validator.schema → Validator.schema) (each : iteration).

Local Abbreviation editor := (Editor.editor (R := R)).

(** Name the fields of an instance. *)
Ltac open_state e :=
  destruct e as [f_element f_options f_ready f_destroyed f_copyClipboard f_schema
                 f_template f_theme f_iconlib f_root_container f_validator f_root
                 f_validation_results f_data f_callbacks f_firing_change f_frames
                 f_fired];
  cbn [element options ready destroyed copyClipboard schema template theme iconlib
       root_container validator root validation_results data callbacks
       firing_change frames fired] in *.

(** Run a method body on an instance whose fields are named. *)
Ltac run_body :=
  cbv [getValue setValue Editor.validate destroy onChange ready_frame change_frame
       validate_current show run_validator trigger requestAnimationFrame on off
       setOption setCopyClipboardContents on_resolved getEditorClass run_frame step
       Editor.bind get modify deref ret throw
       set_element set_options set_ready set_destroyed set_copyClipboard set_schema
       set_template set_theme set_iconlib set_root_container set_validator set_root
       set_validation_results set_data set_callbacks set_firing_change set_frames
       set_fired
       element options ready destroyed copyClipboard schema template theme iconlib
       root_container validator root validation_results data callbacks
       firing_change frames fired
       cleared same_instance fst snd negb].

(** Run a body and split on what its branches depend on. *)
Ltac run_cases :=
  repeat (run_body;
          match goal with
          | |- context [match ?x with _ => _ end] => is_var x; destruct x
          | |- context [match ?x with _ => _ end] =>
              lazymatch x with
              | context [match _ with _ => _ end] => fail
              | _ => destruct x eqn:?
              end
          end);
  run_body.

Lemma validate_guard (e : editor) args :
  ready e = false →
  Editor.validate host args e = (e, Throw (JsError not_ready_validate)).
Proof. intros Hready. open_state e. subst. by run_body. Qed.

(** C9: while [ready] is false, [getValue], [setValue] and [validate]
    each throw an Error and leave the state of the editor unchanged. *)
Theorem not_ready_throws (e : editor) :
  ready e = false →
  getValue e = (e, Throw (JsError not_ready_get)) ∧
  (∀ value, setValue value e = (e, Throw (JsError not_ready_set))) ∧
  (∀ args, Editor.validate host args e = (e, Throw (JsError not_ready_validate))).
Proof.
  intros Hready. split_and!.
  - open_state e. subst. by run_body.
  - intros value. open_state e. subst. by run_body.
  - intros args. by apply validate_guard.
Qed.

Lemma destroy_gated (e : editor) :
  destroyed e = true ∨ ready e = false → destroy e = (e, Normal tt).
Proof.
  intros Hgate. open_state e. destruct Hgate; subst.
  - by run_body.
  - destruct f_destroyed; by run_body.
Qed.

Lemma destroy_effective (e : editor) r :
  destroyed e = false → ready e = true → root e = Some r →
  cleared (fst (destroy e)) ∧ snd (destroy e) = Normal tt.
Proof.
  intros Hd Hr Hroot. open_state e. subst. run_body. by repeat split.
Qed.

Lemma destroy_twice (e : editor) :
  destroy (fst (destroy e)) = destroy e.
Proof.
  open_state e. destruct f_destroyed, f_ready, f_root; by run_body.
Qed.

(** C10: [destroy] is gated and idempotent.  On a destroyed editor, or
    one that is not ready, it changes nothing; when it takes effect it
    leaves [ready] false, [destroyed] true and the schema, root,
    validator and result fields cleared; a second [destroy] ends in the
    same state as the first. *)
Theorem destroy_gated_idempotent :
  (∀ e : editor, destroyed e = true ∨ ready e = false → destroy e = (e, Normal tt)) ∧
  (∀ (e : editor) r,
     destroyed e = false → ready e = true → root e = Some r →
     cleared (fst (destroy e)) ∧ snd (destroy e) = Normal tt) ∧
  (∀ e : editor, destroy (fst (destroy e)) = destroy e).
Proof.
  split_and!; [exact destroy_gated | exact destroy_effective | exact destroy_twice].
Qed.

(** *** The cache of validation results *)

Lemma validate_keeps_state args (e : editor) :
  fst (Editor.validate host args e) = e.
Proof.
  open_state e. destruct f_ready; [|by run_body].
  destruct args as [|value [|? ?]]; try by run_body.
  destruct f_validator as [vd|]; [|by run_body].
  run_body. by destruct (Validator.validate host vd value).
Qed.

Lemma keeps_cache_step ev (e : editor) :
  keeps_cache ev = true →
  validation_results (step host defs expandSchema each ev e) = validation_results e ∧
  ready (step host defs expandSchema each ev e) = ready e ∧
  validator (step host defs expandSchema each ev e) = validator e.
Proof.
  destruct ev; try discriminate; intros _.
  3: { simpl. by rewrite validate_keeps_state. }
  all: open_state e; by run_cases.
Qed.

Lemma keeps_cache_run evs (e : editor) :
  forallb keeps_cache evs = true →
  validation_results (run host defs expandSchema each evs e) = validation_results e ∧
  ready (run host defs expandSchema each evs e) = ready e ∧
  validator (run host defs expandSchema each evs e) = validator e.
Proof.
  revert e. induction evs as [|ev evs IH]; intros e; simpl; [done|].
  intros [Hev Hevs]%andb_prop.
  destruct (IH (step host defs expandSchema each ev e) Hevs) as (-> & -> & ->).
  by apply keeps_cache_step.
Qed.

(** A validation pass on the current value, as an animation-frame
    callback runs it. *)
Lemma frame_fills_cache (e : editor) f fs vd r es :
  frames e = f :: fs → ready e = true →
  validator e = Some vd → root e = Some r →
  Validator.validate host vd (root_getValue r) = Returned es →
  validation_results (step host defs expandSchema each AnimationFrame e) = Some es.
Proof.
  intros Hf Hready Hvd Hroot Hes. open_state e. subst.
  destruct f; run_body; rewrite Hes; by run_cases.
Qed.

(** C8: called with no argument (or with more than one) [validate]
    returns the cached [validation_results] and does not run the
    validator; only a call with exactly one argument validates that
    argument afresh.  The cache is what the last validation pass left:
    method calls other than [destroy] do not touch it, and an
    animation-frame pass stores the validator's result on the current
    value. *)
Theorem validate_cached :
  (∀ (e : editor) args,
     ready e = true → length args ≠ 1 →
     Editor.validate host args e = (e, Normal (validation_results e))) ∧
  (∀ (e : editor) vd value,
     ready e = true → validator e = Some vd →
     Editor.validate host [value] e =
       (e, match Validator.validate host vd value with
           | Returned es => Normal (Some es)
           | Failed f => Throw (ValidatorFailure f)
           end)) ∧
  (∀ (e : editor) evs,
     ready e = true → forallb keeps_cache evs = true →
     Editor.validate host [] (run host defs expandSchema each evs e) =
       (run host defs expandSchema each evs e, Normal (validation_results e))) ∧
  (∀ (e : editor) f fs vd r es,
     frames e = f :: fs → ready e = true →
     validator e = Some vd → root e = Some r →
     Validator.validate host vd (root_getValue r) = Returned es →
     validation_results (step host defs expandSchema each AnimationFrame e) = Some es).
Proof.
  split_and!.
  - intros e args Hready Hlen. open_state e. subst.
    destruct args as [|? [|? ?]]; by run_body.
  - intros e vd value Hready Hvd. open_state e. subst. run_body.
    by destruct (Validator.validate host vd value).
  - intros e evs Hready Hevs.
    destruct (keeps_cache_run evs e Hevs) as (Hres & Hr & _).
    rewrite <- Hres. rewrite <- Hr in Hready. clear Hres Hr Hevs.
    set (e' := run host defs expandSchema each evs e) in *. clearbody e'.
    open_state e'. subst. by run_body.
  - exact frame_fills_cache.
Qed.

(** *** What holds of every state of a session *)

Lemma construct_not_ready el opts (e : editor) :
  construct defs el opts = Normal e → ready e = false ∧ destroyed e = false.
Proof.
  unfold construct. destruct el as [el|]; [|done].
  destruct (themes defs !! _); [|done]. by intros [= <-].
Qed.

Lemma step_installed ev (e : editor) :
  graph_well_formed ev → installed e → installed (step host defs expandSchema each ev e).
Proof.
  unfold installed. intros Hwf Hinv.
  destruct ev.
  3: { simpl. by rewrite validate_keeps_state. }
  all: open_state e;
    (destruct f_ready;
     [destruct (Hinv eq_refl) as (vd0 & r0 & -> & -> & Hgraph) | clear Hinv]);
    run_cases; try done; eauto 10.
Qed.

Lemma run_installed evs (e : editor) :
  Forall graph_well_formed evs → installed e →
  installed (run host defs expandSchema each evs e).
Proof.
  intros Hevs. revert e. induction Hevs as [|ev evs Hev _ IH]; intros e He; [done|].
  simpl. apply IH. by apply step_installed.
Qed.

(** C1: for every well-formed resolved graph and every value [v],
    [validate(v)] returns a list of Validation Errors as data; the one
    hard failure it can end in is that of a custom validator that threw
    on some input, and with custom validators that never throw it always
    returns.  [JSONEditor.validate(v)] on an editor that holds such a
    graph (a ready one, in any state of a session) hands the list on as
    a normal completion and the failure as a throw, two completions that
    cannot be taken for one another, and writes nothing. *)
Theorem validate_returns_data :
  (∀ vd v,
     well_formed (Validator.root vd) (Validator.table vd) →
     ((∃ es, Validator.validate host vd v = Returned es) ∨
      (Validator.validate host vd v = Failed CustomValidatorThrew ∧
       ∃ check s v' p, check ∈ custom_validators vd ∧ check s v' p = None)) ∧
     ((∀ check s v' p, check ∈ custom_validators vd → is_Some (check s v' p)) →
      ∃ es, Validator.validate host vd v = Returned es)) ∧
  (∀ el opts (e0 : editor) evs v,
     construct defs el opts = Normal e0 →
     Forall graph_well_formed evs →
     ready (run host defs expandSchema each evs e0) = true →
     (∃ es, Editor.validate host [v] (run host defs expandSchema each evs e0) =
              (run host defs expandSchema each evs e0, Normal (Some es))) ∨
     (Editor.validate host [v] (run host defs expandSchema each evs e0) =
        (run host defs expandSchema each evs e0,
         Throw (ValidatorFailure CustomValidatorThrew)) ∧
      ∃ vd check s v' p,
        validator (run host defs expandSchema each evs e0) = Some vd ∧
        check ∈ custom_validators vd ∧ check s v' p = None)).
Proof.
  assert (Hrun : ∀ vd v,
            well_formed (Validator.root vd) (Validator.table vd) →
            (∃ es, Validator.validate host vd v = Returned es) ∨
            (Validator.validate host vd v = Failed CustomValidatorThrew ∧
             ∃ check s v' p, check ∈ custom_validators vd ∧ check s v' p = None)).
  { intros vd v Hgraph.
    pose proof (validate_within (custom_threw (custom_validators vd)) host vd v Hgraph
                  (within_run_custom (custom_validators vd))) as Hin.
    destruct (Validator.validate host vd v) as [es|f]; simpl in Hin.
    - left. by exists es.
    - right. by destruct Hin as [-> Hthrew]. }
  split.
  - intros vd v Hgraph. split; [by apply Hrun|].
    intros Htotal. by apply validate_total.
  - intros el opts e0 evs v Hnew Hevs Hready.
    assert (Hinst : installed (run host defs expandSchema each evs e0)).
    { apply run_installed; [done|]. intros Hr.
      apply construct_not_ready in Hnew as [Hnew _]. congruence. }
    destruct (Hinst Hready) as (vd & r & Hvd & Hroot & Hgraph).
    specialize (Hrun vd v Hgraph).
    generalize dependent (run host defs expandSchema each evs e0).
    intros e Hready Hinst Hvd Hroot. open_state e. subst. run_body.
    destruct Hrun as [[es ->]|[-> Hthrew]].
    + left. by exists es.
    + right. split; [done|].
      destruct Hthrew as (check & s & v' & p & Hin & Hnone).
      by exists vd, check, s, v', p.
Qed.

(** *** Deferred callbacks after [destroy] *)

Lemma deferred_step_inert ev (e : editor) :
  deferred ev = true → ready e = false → options e = None →
  same_instance (step host defs expandSchema each ev e) e ∧
  ready (step host defs expandSchema each ev e) = false ∧
  options (step host defs expandSchema each ev e) = None.
Proof.
  intros Hev Hready Hopts. open_state e. subst.
  destruct ev; try discriminate.
  - by run_body.
  - destruct f_frames as [|[|] fs]; by run_body.
Qed.

Lemma same_instance_cleared (e1 e2 : editor) :
  same_instance e1 e2 → cleared e2 → cleared e1.
Proof.
  destruct e1, e2. run_body. intros [=] Hc. by subst.
Qed.

(** C5 (as the code has it): once [destroy] has taken effect, every
    deferred callback still to come (the loader's and the window's) is
    inert: whatever their number and order, the instance stays
    cleared, and only the animation-frame queue and the [firing_change]
    flag can differ.  A [destroy] called while the editor is not ready
    is ignored. *)
Theorem destroyed_callbacks_inert :
  (∀ (e : editor) r evs,
     destroyed e = false → ready e = true → root e = Some r →
     forallb deferred evs = true →
     same_instance (run host defs expandSchema each evs (fst (destroy e))) (fst (destroy e)) ∧
     cleared (run host defs expandSchema each evs (fst (destroy e)))) ∧
  (∀ e : editor, ready e = false → destroy e = (e, Normal tt)).
Proof.
  split; [|intros e Hr; apply destroy_gated; by right].
  intros e r evs Hd Hr Hroot Hevs.
  destruct (destroy_effective e r Hd Hr Hroot) as [Hcleared _].
  assert (Hgen : ∀ e' : editor, ready e' = false → options e' = None →
            same_instance (run host defs expandSchema each evs e') e').
  { clear -Hevs. induction evs as [|ev evs IH]; intros e' Hr' Ho'; [done|].
    simpl in *. apply andb_prop in Hevs as [Hev Hevs].
    destruct (deferred_step_inert ev e' Hev Hr' Ho') as (Hsame & Hr'' & Ho'').
    unfold same_instance in *. rewrite IH; done. }
  assert (Hsame : same_instance (run host defs expandSchema each evs (fst (destroy e)))
                    (fst (destroy e))).
  { apply Hgen; apply Hcleared. }
  split; [done|]. by eapply same_instance_cleared.
Qed.

(** *** What an event leaves alone *)

Lemma step_keeps ev (e : editor) :
  (registers ev = false →
   callbacks (step host defs expandSchema each ev e) = callbacks e) ∧
  (is_frame ev = false →
   fired (step host defs expandSchema each ev e) = fired e) ∧
  (sets_clipboard ev = false →
   copyClipboard (step host defs expandSchema each ev e) = copyClipboard e) ∧
  (switches_ready ev = false →
   ready (step host defs expandSchema each ev e) = ready e ∧
   destroyed (step host defs expandSchema each ev e) = destroyed e ∧
   validator (step host defs expandSchema each ev e) = validator e ∧
   schema (step host defs expandSchema each ev e) = schema e ∧
   element (step host defs expandSchema each ev e) = element e ∧
   theme (step host defs expandSchema each ev e) = theme e).
Proof.
  destruct ev.
  3: { simpl. by rewrite validate_keeps_state. }
  all: open_state e; run_cases; repeat split; intros; done.
Qed.

Lemma run_keeps {A} (P : event → bool) (f : editor → A) :
  (∀ ev e, P ev = false → f (step host defs expandSchema each ev e) = f e) →
  ∀ evs e, forallb (fun ev => negb (P ev)) evs = true →
           f (run host defs expandSchema each evs e) = f e.
Proof.
  intros Hstep evs. induction evs as [|ev evs IH]; intros e Hevs; [done|].
  simpl in *. apply andb_prop in Hevs as [Hev Hevs].
  rewrite IH by done. apply Hstep. by destruct (P ev).
Qed.

(** X1: The table of listeners is written by [on] and [off] only: whatever
    else is called or fires, [destroy] included, every listener stays
    registered. *)
Theorem listeners_kept evs (e : editor) :
  forallb (fun ev => negb (registers ev)) evs = true →
  callbacks (run host defs expandSchema each evs e) = callbacks e ∧
  ∀ event, listeners event (run host defs expandSchema each evs e) = listeners event e.
Proof.
  intros Hevs.
  assert (Hsame : callbacks (run host defs expandSchema each evs e) = callbacks e).
  { apply (run_keeps registers callbacks); [|done].
    intros ev e' Hev. by apply step_keeps. }
  split; [done|]. intros event. unfold listeners. by rewrite Hsame.
Qed.

(** X2: No call of [getValue], [setValue], [validate], [destroy],
    [onChange], [setOption], [on], [off] or [setCopyClipboardContents],
    and not the loader's callback, invokes a listener: listeners are
    invoked in an animation-frame callback only. *)
Theorem listeners_run_in_frames evs (e : editor) :
  forallb (fun ev => negb (is_frame ev)) evs = true →
  fired (run host defs expandSchema each evs e) = fired e.
Proof.
  apply (run_keeps is_frame fired). intros ev e' Hev. by apply step_keeps.
Qed.

(** X3: The clipboard holds the last value set, whatever else is called or
    fires, [destroy] included; it is null on a new instance. *)
Theorem clipboard_kept evs :
  forallb (fun ev => negb (sets_clipboard ev)) evs = true →
  (∀ (e : editor) value,
     let e' := run host defs expandSchema each evs (fst (setCopyClipboardContents value e)) in
     getCopyClipboardContents e' = (e', Normal (Some value))) ∧
  (∀ el opts (e0 : editor),
     construct defs el opts = Normal e0 →
     let e' := run host defs expandSchema each evs e0 in
     getCopyClipboardContents e' = (e', Normal None)).
Proof.
  intros Hevs.
  assert (Hkept : ∀ e : editor,
            copyClipboard (run host defs expandSchema each evs e) = copyClipboard e).
  { intros e. apply (run_keeps sets_clipboard copyClipboard); [|done].
    intros ev e' Hev. by apply step_keeps. }
  assert (Hget : ∀ e : editor,
            getCopyClipboardContents e = (e, Normal (copyClipboard e))).
  { intros e. open_state e. by run_body. }
  split.
  - intros e value e'. rewrite Hget. unfold e'. rewrite Hkept.
    open_state e. by run_body.
  - intros el opts e0 Hnew e'. rewrite Hget. unfold e'. rewrite Hkept.
    unfold construct in Hnew. destruct el as [el|]; [|done].
    destruct (themes defs !! _); [|done]. by injection Hnew as <-.
Qed.

(** X4: Between the loader's callback and [destroy] the instance keeps its
    resolved graph: [ready], [destroyed], the validator, the schema, the
    element and the theme are written by these two only. *)
Theorem configuration_fixed evs (e : editor) :
  forallb (fun ev => negb (switches_ready ev)) evs = true →
  let e' := run host defs expandSchema each evs e in
  ready e' = ready e ∧ destroyed e' = destroyed e ∧ validator e' = validator e ∧
  schema e' = schema e ∧ element e' = element e ∧ theme e' = theme e.
Proof.
  intros Hevs.
  pose proof (run_keeps switches_ready
                (fun e => (ready e, destroyed e, validator e, schema e, element e, theme e)))
    as Hrun.
  simpl in Hrun. specialize (Hrun ltac:(
    intros ev e0 Hev;
    destruct (step_keeps ev e0) as (_ & _ & _ & Hk);
    destruct (Hk Hev) as (-> & -> & -> & -> & -> & ->); reflexivity) evs e Hevs).
  cbv zeta. by injection Hrun as -> -> -> -> -> ->.
Qed.

(** *** Registering and removing listeners *)

Lemma on_listeners ev cb event (e : editor) :
  listeners event (fst (on ev cb e)) =
  if decide (ev = event) then listeners event e ++ [cb] else listeners event e.
Proof.
  open_state e. run_body. unfold listeners. cbn [callbacks].
  destruct (decide (ev = event)) as [->|Hne].
  - by rewrite lookup_insert_eq.
  - by rewrite lookup_insert_ne.
Qed.

Lemma trigger_fired event (e : editor) :
  trigger event e =
  (set_fired (fired e ++ map (fun cb => (event, cb)) (listeners event e)) e, Normal tt).
Proof. open_state e. by run_body. Qed.

(** **** The loop of [trigger] *)

Context (acts : nat → editor → editor * completion unit).

Lemma set_fired_same (e : editor) : set_fired (fired e ++ []) e = e.
Proof. destruct e. cbv [set_fired fired]. by rewrite app_nil_r. Qed.

Lemma set_fired_twice (e : editor) l1 l2 :
  set_fired (fired (set_fired (fired e ++ l1) e) ++ l2) (set_fired (fired e ++ l1) e) =
  set_fired (fired e ++ l1 ++ l2) e.
Proof. destruct e. cbv [set_fired fired]. by rewrite <- app_assoc. Qed.

Lemma trigger_loop_more event fuel fuel' i (e : editor) r :
  fuel ≤ fuel' →
  trigger_loop acts fuel event i e = Some r →
  trigger_loop acts fuel' event i e = Some r.
Proof.
  revert fuel' i e. induction fuel as [|fuel IH]; intros fuel' i e Hle Hr; [done|].
  destruct fuel' as [|fuel']; [lia|]. simpl in *.
  destruct (callbacks e !! event) as [l|]; [|done].
  destruct (l !! i) as [cb|]; [|done].
  destruct (acts cb _) as [e' [[]|x]]; [|done].
  apply IH; [lia|done].
Qed.

(** A run of inert listeners: each is called, nothing else changes. *)
Lemma trigger_loop_inert event l n : ∀ fuel i (e : editor),
  callbacks e !! event = Some l →
  i + n ≤ length l →
  (∀ cb, cb ∈ take n (drop i l) → inert acts cb) →
  trigger_loop acts (n + fuel) event i e =
  trigger_loop acts fuel event (i + n)
    (set_fired (fired e ++ map (fun cb => (event, cb)) (take n (drop i l))) e).
Proof.
  induction n as [|n IH]; intros fuel i e Hl Hlen Hinert.
  - rewrite Nat.add_0_r. simpl. by rewrite set_fired_same.
  - destruct (lookup_lt_is_Some_2 l i) as [cb Hcb]; [lia|].
    rewrite (drop_S l cb i Hcb) in *. cbn [take] in *.
    change (S n + fuel) with (S (n + fuel)). cbn [trigger_loop].
    rewrite Hl, Hcb. rewrite (Hinert cb) by by left.
    rewrite (IH fuel (S i)).
    + rewrite set_fired_twice. by replace (i + S n) with (S i + n) by lia.
    + by destruct e.
    + lia.
    + intros c Hc. apply Hinert. by right.
Qed.

Lemma trigger_with_inert event fuel (e : editor) :
  (∀ cb, cb ∈ listeners event e → inert acts cb) →
  length (listeners event e) < fuel →
  trigger_with acts fuel event e =
  Some (set_fired (fired e ++ map (fun cb => (event, cb)) (listeners event e)) e,
        Normal tt).
Proof.
  unfold trigger_with, listeners. intros Hinert Hfuel.
  destruct (callbacks e !! event) as [l|] eqn:Hl; simpl in *;
    [|by rewrite set_fired_same].
  destruct l as [|c l']; [by rewrite set_fired_same|].
  set (l := c :: l') in *.
  replace fuel with (length l + S (fuel - S (length l))) by lia.
  rewrite (trigger_loop_inert event l (length l) _ 0 e Hl); [|done|].
  - rewrite drop_0, firstn_all. cbn [trigger_loop].
    replace (callbacks (set_fired _ e) !! event) with (Some l) by by destruct e.
    by rewrite lookup_ge_None_2 by (simpl; lia).
  - by rewrite drop_0, firstn_all.
Qed.

(** The session's [trigger] is the loop with inert listeners. *)
Lemma trigger_inert_case event fuel (e : editor) :
  (∀ cb, cb ∈ listeners event e → inert acts cb) →
  length (listeners event e) < fuel →
  trigger_with acts fuel event e = Some (trigger event e).
Proof.
  intros Hinert Hfuel. rewrite trigger_with_inert by done.
  by rewrite trigger_fired.
Qed.

(** X5: [on] appends: after any number of registrations the listeners of an
    event are the earlier ones followed by the new ones in the order of
    the calls, a callback registered twice being listed twice; and
    when each of these listeners returns without touching the instance,
    [trigger] invokes exactly these, in this order, and returns.  The
    event names are not names of members of [Object.prototype]. *)
Theorem listeners_in_order (regs : list (string * nat)) event (e : editor) :
  forallb (fun r => own_name (fst r)) regs = true → own_name event = true →
  let e' := run host defs expandSchema each (map (fun r => CallOn (fst r) (snd r)) regs) e in
  listeners event e' =
    listeners event e ++ map snd (filter (fun r => fst r = event) regs) ∧
  ((∀ cb, cb ∈ listeners event e' → inert acts cb) →
   ∀ fuel, length (listeners event e') < fuel →
     trigger_with acts fuel event e' =
     Some (set_fired
             (fired e ++
              map (fun cb => (event, cb))
                (listeners event e ++ map snd (filter (fun r => fst r = event) regs)))
             e',
           Normal tt)).
Proof.
  intros _ _. cbv zeta.
  assert (Hlist : ∀ e : editor,
            listeners event
              (run host defs expandSchema each (map (fun r => CallOn (fst r) (snd r)) regs) e) =
            listeners event e ++ map snd (filter (fun r => fst r = event) regs)).
  { induction regs as [|[ev cb] regs IH]; intros e0.
    - simpl. by rewrite app_nil_r.
    - change (run host defs expandSchema each
                (map (fun r => CallOn (fst r) (snd r)) ((ev, cb) :: regs)) e0)
        with (run host defs expandSchema each
                (map (fun r => CallOn (fst r) (snd r)) regs) (fst (on ev cb e0))).
      rewrite IH, on_listeners, filter_cons. simpl.
      destruct (decide (ev = event)) as [->|Hne]; [|done].
      simpl. by rewrite <- app_assoc. }
  split; [apply Hlist|].
  intros Hinert fuel Hfuel. rewrite trigger_with_inert by done.
  rewrite Hlist.
  assert (Hfired : fired (run host defs expandSchema each
                            (map (fun r => CallOn (fst r) (snd r)) regs) e) = fired e).
  { apply (run_keeps is_frame fired).
    - intros ev e' Hev. by apply step_keeps.
    - clear. induction regs as [|r regs IH]; [done|]. exact IH. }
  by rewrite Hfired.
Qed.

(** X24: The loop of [trigger] reads the list of listeners again before
    every call.  A listener that removes itself with
    [off(event, itself)] while it is called makes the loop pass over
    the listener registered right after it: of the listeners
    [pre ++ cb :: next :: post], where [cb] is called for the first
    time and the others return without touching the instance, [trigger]
    invokes [pre], [cb] and those of [post] other than [cb], and never
    [next], which stays registered.  The event is named (not empty,
    and not the name of a member of [Object.prototype]). *)
Theorem trigger_passes_over event (e : editor) pre cb next post fuel :
  event ≠ "" → own_name event = true →
  callbacks e !! event = Some (pre ++ cb :: next :: post) →
  cb ∉ pre → next ≠ cb →
  (∀ e', acts cb e' = off (named event) (Some cb) e') →
  (∀ c, c ∈ pre ++ post → c ≠ cb → inert acts c) →
  length (pre ++ cb :: next :: post) < fuel →
  trigger_with acts fuel event e =
  Some (set_fired
          (fired e ++
           map (fun c => (event, c)) (pre ++ cb :: filter (fun c => c ≠ cb) post))
          (set_callbacks
             (<[event := pre ++ next :: filter (fun c => c ≠ cb) post]> (callbacks e)) e),
        Normal tt).
Proof.
  intros Hevent _ Hl Hpre Hnext Hcb Hinert Hfuel.
  unfold named in Hcb. rewrite decide_False in Hcb by done.
  set (rest := filter (fun c => c ≠ cb) post).
  assert (Hrest : length rest ≤ length post) by apply length_filter.
  assert (Hkept : filter (fun c => c ≠ cb) (pre ++ cb :: next :: post) =
                  pre ++ next :: rest).
  { rewrite filter_app, !filter_cons. rewrite decide_False by (by intros Hne; apply Hne).
    rewrite decide_True by done. f_equal.
    clear -Hpre. induction pre as [|c pre IH]; [done|].
    rewrite filter_cons. apply not_elem_of_cons in Hpre as [Hc Hpre].
    rewrite decide_True by done. by rewrite IH. }
  unfold trigger_with. rewrite Hl.
  destruct (pre ++ cb :: next :: post) as [|c0 l0] eqn:Hshape; [by destruct pre|].
  rewrite <- Hshape in *. clear Hshape c0 l0.
  rewrite length_app in Hfuel. simpl in Hfuel.
  replace fuel with (length pre + S (length rest + S (fuel - length pre - length rest - 2)))
    by lia.
  rewrite (trigger_loop_inert event (pre ++ cb :: next :: post) (length pre) _ 0 e Hl).
  2: { rewrite length_app. simpl. lia. }
  2: { rewrite drop_0, take_app_length. intros c Hc. apply Hinert.
       - apply elem_of_app. by left.
       - by intros ->. }
  rewrite drop_0, take_app_length. cbn [trigger_loop].
  replace (callbacks (set_fired _ e) !! event) with (Some (pre ++ cb :: next :: post))
    by by destruct e.
  rewrite (list_lookup_middle pre (next :: post) cb (0 + length pre)) by done.
  rewrite Hcb.
  set (e1 := set_fired
               (fired e ++ map (fun c => (event, c)) (pre ++ [cb]))
               (set_callbacks (<[event := pre ++ next :: rest]> (callbacks e)) e)).
  replace (off (Some event) (Some cb) _) with (e1, Normal tt).
  2: { subst e1. destruct e.
       cbv [off modify set_fired set_callbacks fired callbacks] in *.
       rewrite Hl. simpl. rewrite Hkept, map_app, <- app_assoc. done. }
  assert (Hl1 : callbacks e1 !! event = Some (pre ++ next :: rest)).
  { subst e1. destruct e. cbv [set_fired set_callbacks callbacks].
    by rewrite lookup_insert_eq. }
  assert (Hdrop : drop (S (0 + length pre)) (pre ++ next :: rest) = rest).
  { change (S (0 + length pre)) with (S (length pre)).
    rewrite (cons_middle next pre rest), app_assoc.
    apply drop_app_length'. rewrite length_app. simpl. lia. }
  rewrite (trigger_loop_inert event (pre ++ next :: rest) (length rest) _
             (S (0 + length pre)) e1 Hl1).
  2: { rewrite length_app. simpl. lia. }
  2: { rewrite Hdrop, firstn_all. intros c Hc. subst rest.
       apply list_elem_of_filter in Hc as [Hne Hc]. apply Hinert; [|done].
       apply elem_of_app. by right. }
  rewrite Hdrop, firstn_all. cbn [trigger_loop].
  replace (callbacks (set_fired _ e1) !! event) with (Some (pre ++ next :: rest))
    by by destruct e.
  rewrite lookup_ge_None_2 by (rewrite length_app; simpl; lia).
  f_equal. f_equal. subst e1. destruct e.
  cbv [set_fired set_callbacks fired callbacks].
  f_equal. rewrite <- !app_assoc, !map_app. simpl. by rewrite <- app_assoc.
Qed.

(** X6: [off(event, callback)] with a named event (not empty, and not the
    name of a member of [Object.prototype]) removes every registration
    of the callback for this event, keeps the other listeners of the
    event in order and leaves the other events alone. *)
Theorem off_removes_callback ev cb (e : editor) :
  ev ≠ "" → own_name ev = true →
  listeners ev (fst (off (named ev) (Some cb) e)) =
    filter (fun c => c ≠ cb) (listeners ev e) ∧
  (cb ∉ listeners ev (fst (off (named ev) (Some cb) e))) ∧
  (∀ event, event ≠ ev →
     listeners event (fst (off (named ev) (Some cb) e)) = listeners event e).
Proof.
  intros Hev _. unfold named. rewrite decide_False by done.
  assert (Hlist : listeners ev (fst (off (Some ev) (Some cb) e)) =
                  filter (fun c => c ≠ cb) (listeners ev e)).
  { open_state e. run_body. unfold listeners. cbn [callbacks].
    by rewrite lookup_insert_eq. }
  split_and!.
  - done.
  - rewrite Hlist. intros [Hcb _]%list_elem_of_filter. by apply Hcb.
  - intros event Hne. open_state e. run_body. unfold listeners. cbn [callbacks].
    by rewrite lookup_insert_ne.
Qed.

(** X7: [off(event)] without a callback silences this event only;
    [off()], and [off] with an empty event name whatever the callback,
    remove every listener of every event. *)
Theorem off_without_callback (e : editor) :
  (∀ ev, ev ≠ "" → own_name ev = true →
     listeners ev (fst (off (named ev) None e)) = [] ∧
     ∀ event, event ≠ ev →
       listeners event (fst (off (named ev) None e)) = listeners event e) ∧
  (∀ cb event,
     listeners event (fst (off None cb e)) = [] ∧
     listeners event (fst (off (named "") cb e)) = []).
Proof.
  split.
  - intros ev Hev _. unfold named. rewrite decide_False by done. split.
    + open_state e. run_body. unfold listeners. cbn [callbacks].
      by rewrite lookup_insert_eq.
    + intros event Hne. open_state e. run_body. unfold listeners. cbn [callbacks].
      by rewrite lookup_insert_ne.
  - intros cb event. unfold named. rewrite decide_True by done.
    open_state e. run_body. unfold listeners. cbn [callbacks].
    by rewrite lookup_empty.
Qed.

(** *** Changes are coalesced *)

Lemma step_coalesced ev (e : editor) :
  coalesced e → coalesced (step host defs expandSchema each ev e).
Proof.
  unfold coalesced. intros Hinv. destruct ev.
  3: { simpl. by rewrite validate_keeps_state. }
  all: open_state e; unfold pending_changes in *; cbn [frames] in *.
  all: run_cases; unfold pending_changes; cbn [frames firing_change];
    rewrite ?filter_app, ?length_app, ?filter_cons, ?filter_nil in *;
    repeat case_decide; simpl in *; try done; try lia;
    destruct f_firing_change; lia.
Qed.

(** X8: At most one callback of [onChange] waits in the window's queue, and
    one waits exactly while [firing_change] is set: in every state of a
    session the calls of [onChange] (and of [setOption]) made since the
    last change frame ran have scheduled a single validation pass. *)
Theorem changes_coalesced el opts (e0 : editor) evs :
  construct defs el opts = Normal e0 →
  let e := run host defs expandSchema each evs e0 in
  pending_changes e = (if firing_change e then 1 else 0) ∧
  (firing_change e = true → onChange e = (e, Normal tt)).
Proof.
  intros Hnew. cbv zeta. split.
  - assert (Hinit : coalesced e0).
    { unfold construct in Hnew. destruct el as [el|]; [|done].
      destruct (themes defs !! _); [|done]. by injection Hnew as <-. }
    clear Hnew. revert e0 Hinit.
    induction evs as [|ev evs IH]; intros e0 Hinit; [done|].
    simpl. apply IH. by apply step_coalesced.
  - generalize (run host defs expandSchema each evs e0). intros e Hfiring.
    open_state e. subst. destruct f_ready; by run_body.
Qed.

(** *** What the animation-frame callbacks do *)

(** The frames of the session are the passes followed by [trigger]. *)
Lemma change_frame_pass (e : editor) :
  change_frame host e =
  match change_pass host e with
  | (e1, Normal true) => trigger "change" e1
  | (e1, Normal false) => (e1, Normal tt)
  | (e1, Throw x) => (e1, Throw x)
  end.
Proof.
  open_state e. unfold change_pass.
  run_cases; reflexivity.
Qed.

Lemma ready_frame_pass (e : editor) :
  ready_frame host e =
  match ready_pass host e with
  | (e1, Normal true) =>
      match trigger "ready" e1 with
      | (e2, Normal _) => trigger "change" e2
      | (e2, Throw x) => (e2, Throw x)
      end
  | (e1, Normal false) => (e1, Normal tt)
  | (e1, Throw x) => (e1, Throw x)
  end.
Proof.
  open_state e. unfold ready_pass.
  run_cases; reflexivity.
Qed.

Lemma change_pass_keeps (e e1 : editor) c :
  change_pass host e = (e1, c) →
  callbacks e1 = callbacks e ∧ fired e1 = fired e ∧ frames e1 = frames e.
Proof.
  open_state e. unfold change_pass. run_cases; by intros [= <- <-].
Qed.

Lemma ready_pass_keeps (e e1 : editor) c :
  ready_pass host e = (e1, c) →
  callbacks e1 = callbacks e ∧ fired e1 = fired e ∧ frames e1 = frames e.
Proof.
  open_state e. unfold ready_pass. run_cases; by intros [= <- <-].
Qed.

(** With listeners that return without touching the instance the frames
    with listeners that act are the frames of the session. *)
Lemma change_frame_inert_case fuel (e : editor) :
  (∀ cb, cb ∈ listeners "change" e → inert acts cb) →
  length (listeners "change" e) < fuel →
  change_frame_with host acts fuel e = Some (change_frame host e).
Proof.
  intros Hinert Hfuel. rewrite change_frame_pass. unfold change_frame_with.
  destruct (change_pass host e) as [e1 [[]|x]] eqn:Hpass; try done.
  apply change_pass_keeps in Hpass as (Hcb & _).
  apply trigger_inert_case; unfold listeners in *; by rewrite Hcb.
Qed.

Lemma ready_frame_inert_case fuel (e : editor) :
  (∀ cb, cb ∈ listeners "ready" e → inert acts cb) →
  (∀ cb, cb ∈ listeners "change" e → inert acts cb) →
  length (listeners "ready" e) < fuel →
  length (listeners "change" e) < fuel →
  ready_frame_with host acts fuel e = Some (ready_frame host e).
Proof.
  intros Hready Hchange Hfr Hfc. rewrite ready_frame_pass. unfold ready_frame_with.
  destruct (ready_pass host e) as [e1 [[]|x]] eqn:Hpass; try done.
  apply ready_pass_keeps in Hpass as (Hcb & _).
  rewrite (trigger_inert_case "ready") by (unfold listeners in *; by rewrite Hcb).
  destruct (trigger "ready" e1) as [e2 [[]|x]] eqn:Htr.
  - apply trigger_inert_case.
    all: assert (callbacks e2 = callbacks e1) as Hcb2
           by (revert Htr; clear; open_state e1; run_body; by intros [= <-]).
    all: unfold listeners in *; by rewrite Hcb2, Hcb.
  - revert Htr. clear. open_state e1. by run_body.
Qed.

(** A listener that throws ends the loop: the listeners after it are
    not invoked. *)
Lemma trigger_with_throws event fuel (e e' : editor) pre cb post x :
  listeners event e = pre ++ cb :: post →
  (∀ c, c ∈ pre → inert acts c) →
  acts cb (set_fired (fired e ++ map (fun c => (event, c)) (pre ++ [cb])) e) =
    (e', Throw x) →
  length pre < fuel →
  trigger_with acts fuel event e = Some (e', Throw x).
Proof.
  unfold trigger_with, listeners. intros Hl Hinert Hcb Hfuel.
  destruct (callbacks e !! event) as [l|] eqn:Hcbs; simpl in Hl;
    [|by destruct pre].
  subst l. destruct (pre ++ cb :: post) as [|c0 l0] eqn:Hshape; [by destruct pre|].
  rewrite <- Hshape in *. clear Hshape c0 l0.
  replace fuel with (length pre + S (fuel - S (length pre))) by lia.
  rewrite (trigger_loop_inert event (pre ++ cb :: post) (length pre) _ 0 e Hcbs).
  - rewrite drop_0, take_app_length. cbn [trigger_loop].
    replace (callbacks (set_fired _ e) !! event) with (Some (pre ++ cb :: post))
      by by destruct e.
    rewrite (list_lookup_middle pre post cb (0 + length pre)) by done.
    replace (set_fired _ (set_fired _ e))
      with (set_fired (fired e ++ map (fun c => (event, c)) (pre ++ [cb])) e).
    + by rewrite Hcb.
    + rewrite map_app. simpl. by destruct e; cbv [set_fired fired]; rewrite <- app_assoc.
  - rewrite length_app. simpl. lia.
  - by rewrite drop_0, take_app_length.
Qed.

(** X9: With [show_errors] set to [never] the frame of [onChange], before it
    invokes any listener, shows the root editor no error and caches the
    errors of the current value: from then on (in a listener, or after
    the frame) [validate()] reports them.  The frame then calls
    [trigger('change')] and nothing else; when each [change] listener
    returns without touching the instance, they are invoked in the
    order of their registration, the frame ends in the state of the
    session and [validate()] still reports the errors.  The property
    says nothing of listeners that act on the instance or throw. *)
Theorem hidden_errors_reported (e : editor) vd r opts es :
  ready e = true →
  validator e = Some vd → root e = Some r → options e = Some opts →
  opt_show_errors opts = "never" →
  Validator.validate host vd (root_getValue r) = Returned es →
  let e1 := set_root (Some (root_showValidationErrors [] r))
              (set_validation_results (Some es) (set_firing_change false e)) in
  change_pass host e = (e1, Normal true) ∧
  Editor.validate host [] e1 = (e1, Normal (Some es)) ∧
  (∀ fuel, change_frame_with host acts fuel e = trigger_with acts fuel "change" e1) ∧
  ((∀ cb, cb ∈ listeners "change" e → inert acts cb) →
   ∀ fuel, length (listeners "change" e) < fuel →
     change_frame_with host acts fuel e =
       Some (set_fired (fired e ++ map (fun cb => ("change", cb)) (listeners "change" e)) e1,
             Normal tt) ∧
     ∀ fs, frames e = ChangeFrame :: fs →
       step host defs expandSchema each AnimationFrame e =
       set_frames fs
         (set_fired (fired e ++ map (fun cb => ("change", cb)) (listeners "change" e)) e1) ∧
       Editor.validate host [] (step host defs expandSchema each AnimationFrame e) =
       (step host defs expandSchema each AnimationFrame e, Normal (Some es))).
Proof.
  intros Hready Hvd Hroot Hopts Hnever Hes. cbv zeta.
  assert (Hpass : change_pass host e =
                  (set_root (Some (root_showValidationErrors [] r))
                     (set_validation_results (Some es) (set_firing_change false e)),
                   Normal true)).
  { open_state e. subst. unfold change_pass. run_body. rewrite Hes. run_body.
    rewrite Hnever. by run_cases. }
  split_and!.
  - done.
  - open_state e. subst. by run_body.
  - intros fuel. unfold change_frame_with. by rewrite Hpass.
  - intros Hinert fuel Hfuel. split.
    + unfold change_frame_with. rewrite Hpass.
      rewrite trigger_with_inert; [by destruct e| |]; by destruct e.
    + intros fs Hfs. open_state e. subst. unfold listeners. cbn [callbacks].
      run_body. rewrite Hes. run_body. rewrite Hnever. by run_cases.
Qed.

(** X10: The frame scheduled by the loader's callback does nothing on an
    instance that is not ready (destroyed in between).  On a ready one
    it validates the current value, caches and shows the errors, then
    calls [trigger('ready')] and, if that returns, [trigger('change')].
    A [ready] listener that throws, the ones before it returning
    without touching the instance, ends the frame: the [ready]
    listeners after it and the [change] listeners are not invoked.  When
    every [ready] and [change] listener returns without touching the
    instance, the [ready] listeners are invoked in the order of their
    registration and after them the [change] listeners.  The property
    says nothing of listeners that act on the instance. *)
Theorem ready_frame_fires (e : editor) :
  (ready e = false → ∀ fuel, ready_frame_with host acts fuel e = Some (e, Normal tt)) ∧
  (∀ vd r es,
     ready e = true → validator e = Some vd → root e = Some r →
     Validator.validate host vd (root_getValue r) = Returned es →
     let e1 := set_root (Some (root_showValidationErrors es r))
                 (set_validation_results (Some es) e) in
     ready_pass host e = (e1, Normal true) ∧
     (∀ fuel pre cb post x e2,
        listeners "ready" e = pre ++ cb :: post →
        (∀ c, c ∈ pre → inert acts c) →
        acts cb (set_fired (fired e ++ map (fun c => ("ready", c)) (pre ++ [cb])) e1) =
          (e2, Throw x) →
        length pre < fuel →
        ready_frame_with host acts fuel e = Some (e2, Throw x)) ∧
     ((∀ cb, cb ∈ listeners "ready" e ++ listeners "change" e → inert acts cb) →
      ∀ fuel, length (listeners "ready" e) < fuel → length (listeners "change" e) < fuel →
        ready_frame_with host acts fuel e =
          Some (set_fired
                  (fired e ++ map (fun cb => ("ready", cb)) (listeners "ready" e) ++
                   map (fun cb => ("change", cb)) (listeners "change" e)) e1,
                Normal tt) ∧
        ∀ fs, frames e = ReadyFrame :: fs →
          step host defs expandSchema each AnimationFrame e =
          set_frames fs
            (set_fired
               (fired e ++ map (fun cb => ("ready", cb)) (listeners "ready" e) ++
                map (fun cb => ("change", cb)) (listeners "change" e)) e1))).
Proof.
  split.
  - intros Hready fuel. unfold ready_frame_with, ready_pass.
    open_state e. subst. by run_body.
  - intros vd r es Hready Hvd Hroot Hes. cbv zeta.
    assert (Hpass : ready_pass host e =
                    (set_root (Some (root_showValidationErrors es r))
                       (set_validation_results (Some es) e), Normal true)).
    { open_state e. subst. unfold ready_pass. run_body. rewrite Hes. by run_body. }
    split_and!.
    + done.
    + intros fuel pre cb post x e2 Hl Hinert Hcb Hfuel.
      unfold ready_frame_with. rewrite Hpass.
      by rewrite (trigger_with_throws "ready" fuel _ e2 pre cb post x).
    + intros Hinert fuel Hfr Hfc. split.
      * unfold ready_frame_with. rewrite Hpass.
        rewrite trigger_with_inert.
        2: { intros cb Hcb. apply Hinert, elem_of_app. left. by destruct e. }
        2: by destruct e.
        rewrite trigger_with_inert.
        2: { intros cb Hcb. apply Hinert, elem_of_app. right. by destruct e. }
        2: by destruct e.
        destruct e. cbv [set_fired set_root set_validation_results fired listeners
                         callbacks]. by rewrite <- app_assoc.
      * intros fs Hfs. open_state e. subst. unfold listeners. cbn [callbacks].
        run_body. rewrite Hes. run_body. by rewrite <- app_assoc.
Qed.

(** X11: The loader's callback makes the editor ready exactly when it runs to
    its end; when it throws (no editor class for the schema, a hard
    failure of the validator) the editor stays not ready, no frame is
    scheduled and no listener ever hears of it. *)
Theorem on_resolved_ready (g : Validator.schema) refs (e : editor) :
  ready e = false →
  (snd (on_resolved host defs expandSchema each g refs e) = Normal tt →
   ready (fst (on_resolved host defs expandSchema each g refs e)) = true ∧
   frames (fst (on_resolved host defs expandSchema each g refs e)) = frames e ++ [ReadyFrame] ∧
   is_Some (validation_results (fst (on_resolved host defs expandSchema each g refs e)))) ∧
  (∀ x, snd (on_resolved host defs expandSchema each g refs e) = Throw x →
     ready (fst (on_resolved host defs expandSchema each g refs e)) = false ∧
     frames (fst (on_resolved host defs expandSchema each g refs e)) = frames e ∧
     fired (fst (on_resolved host defs expandSchema each g refs e)) = fired e).
Proof.
  intros Hready. open_state e. subst.
  split; [|intros x]; run_cases; try done; by intros _.
Qed.

(** X12: [setOption]: any option but [show_errors] is refused with an Error
    and nothing changes; [show_errors] is stored in the options and takes
    effect in a change frame, scheduled unless the editor is not ready
    or one is pending already; on a destroyed editor it is a TypeError. *)
Theorem setOption_effect (e : editor) value :
  (∀ option, option ≠ "show_errors" →
     setOption option value e =
     (e, Throw (JsError ("Option " +:+ option +:+
                         " must be set during instantiation and cannot be changed later")))) ∧
  (options e = None →
   setOption "show_errors" value e = (e, Throw (TypeError "options"))) ∧
  (∀ opts, options e = Some opts →
     setOption "show_errors" value e =
     (let e1 := set_options
                  (Some (Options (opt_schema opts) (opt_startval opts)
                           (opt_custom_validators opts) value (opt_theme opts)
                           (opt_iconlib opts) (opt_template opts))) e in
      if ready e && negb (firing_change e)
      then set_frames (frames e ++ [ChangeFrame]) (set_firing_change true e1)
      else e1,
      Normal tt)).
Proof.
  split_and!.
  - intros option Hopt. unfold setOption.
    by rewrite bool_decide_eq_false_2.
  - intros Hopts. open_state e. subst. by run_body.
  - intros opts Hopts. open_state e. subst.
    destruct f_ready, f_firing_change; by run_body.
Qed.

(** *** The class of the root editor *)

Lemma each_from_ask (s : Validator.schema) rs : ∀ i,
  (∃ pre resolver post name,
     rs = pre ++ resolver :: post ∧ resolver s = Some name ∧ name ≠ "" ∧
     is_Some (editors defs !! name) ∧
     (∀ r n, r ∈ pre → r s = Some n → n = "" ∨ editors defs !! n = None) ∧
     each_from i rs (ask defs s) None = Some name) ∨
  ((∀ r n, r ∈ rs → r s = Some n → n = "" ∨ editors defs !! n = None) ∧
   each_from i rs (ask defs s) None = None).
Proof.
  induction rs as [|resolver rs IH]; intros i.
  - right. split; [|done]. intros r n Hin. by apply elem_of_nil in Hin.
  - simpl. unfold ask at 1 3. destruct (resolver s) as [tmp|] eqn:Htmp.
    + destruct (bool_decide (tmp ≠ "")) eqn:Hname;
        [destruct (bool_decide (is_Some (editors defs !! tmp))) eqn:Hreg|]; simpl.
      * left. exists [], resolver, rs, tmp.
        apply bool_decide_eq_true in Hname, Hreg. split_and!; try done.
        intros r n Hin. by apply elem_of_nil in Hin.
      * apply bool_decide_eq_false in Hreg.
        assert (Hskip : ∀ r n, r ∈ [resolver] → r s = Some n →
                               n = "" ∨ editors defs !! n = None).
        { intros r n ->%list_elem_of_singleton Hn. right.
          rewrite Htmp in Hn. injection Hn as <-.
          by apply eq_None_not_Some. }
        destruct (IH (S i))
          as [(pre & r0 & post & name & -> & Hr0 & Hname0 & Hreg0 & Hpre & Hres)
             |[Hall Hres]].
        -- left. exists (resolver :: pre), r0, post, name. split_and!; try done.
           intros r n [->|Hin]%elem_of_cons Hn; [|by eapply Hpre].
           apply (Hskip resolver n); [by apply list_elem_of_singleton|done].
        -- right. split; [|done].
           intros r n [->|Hin]%elem_of_cons Hn; [|by eapply Hall].
           apply (Hskip resolver n); [by apply list_elem_of_singleton|done].
      * apply bool_decide_eq_false in Hname.
        assert (Hskip : ∀ n, resolver s = Some n → n = "" ∨ editors defs !! n = None).
        { intros n Hn. left. rewrite Htmp in Hn. injection Hn as <-.
          by destruct (decide (tmp = "")); [|exfalso; apply Hname]. }
        destruct (IH (S i))
          as [(pre & r0 & post & name & -> & Hr0 & Hname0 & Hreg0 & Hpre & Hres)
             |[Hall Hres]].
        -- left. exists (resolver :: pre), r0, post, name. split_and!; try done.
           intros r n [->|Hin]%elem_of_cons Hn; [by apply Hskip|by eapply Hpre].
        -- right. split; [|done].
           intros r n [->|Hin]%elem_of_cons Hn; [by apply Hskip|by eapply Hall].
    + destruct (IH (S i))
        as [(pre & r0 & post & name & -> & Hr0 & Hname0 & Hreg0 & Hpre & Hres)
           |[Hall Hres]].
      * left. exists (resolver :: pre), r0, post, name. split_and!; try done.
        intros r n [->|Hin]%elem_of_cons Hn; [congruence|by eapply Hpre].
      * right. split; [|done].
        intros r n [->|Hin]%elem_of_cons Hn; [congruence|by eapply Hall].
Qed.

(** X13: Provided [each] of [utilities.js] calls the function it is given
    on the members of the array in order and stops when the function
    returns [false], [getEditorClass] asks the resolvers in order on the
    expanded schema and returns the class named by the first answer
    that names a registered class, the resolvers before it having
    answered nothing, the empty name or a name that is not registered.
    When no resolver gives such an answer it
    throws [Unknown editor for schema] followed by the expanded schema
    as [JSON.stringify] prints it.  The check of line 210 never fires,
    and the instance is not written.  The resolvers answer no name of a
    member of [Object.prototype]. *)
Theorem getEditorClass_first_match (s : Validator.schema) (e : editor) :
  (∀ A St l f s0, each A St l f s0 = each_in_order A St l f s0) →
  (∀ r n, r ∈ resolvers defs → r (expandSchema s) = Some n → own_name n = true) →
  fst (getEditorClass host defs expandSchema each s e) = e ∧
  ((∃ pre resolver post name cls,
      resolvers defs = pre ++ resolver :: post ∧
      resolver (expandSchema s) = Some name ∧ name ≠ "" ∧
      editors defs !! name = Some cls ∧
      (∀ r n, r ∈ pre → r (expandSchema s) = Some n →
              n = "" ∨ editors defs !! n = None) ∧
      snd (getEditorClass host defs expandSchema each s e) = Normal cls) ∨
   ((∀ r n, r ∈ resolvers defs → r (expandSchema s) = Some n →
            n = "" ∨ editors defs !! n = None) ∧
    snd (getEditorClass host defs expandSchema each s e) =
      Throw (JsError ("Unknown editor for schema " +:+
                      stringify host (expandSchema s))))).
Proof.
  intros Heach _. unfold getEditorClass. rewrite !Heach. unfold each_in_order.
  destruct (each_from_ask (expandSchema s) (resolvers defs) 0)
    as [(pre & r0 & post & name & Hrs & Hr0 & Hname & [cls Hcls] & Hpre & Hres)|[Hall ->]].
  - rewrite Hres, Hcls. rewrite decide_False by done.
    split; [done|]. left. exists pre, r0, post, name, cls.
    by split_and!.
  - split; [done|]. by right.
Qed.

(** *** After [destroy] *)

Lemma step_cleared ev (e : editor) :
  cleared e → cleared (step host defs expandSchema each ev e).
Proof.
  intros (Hr & Hd & Hs & Ho & Hroot & Hc & Hv & Hres & Ht & Hi & Htp & Hdata & Hel).
  destruct ev.
  3: { simpl. rewrite validate_keeps_state. by repeat split. }
  all: open_state e; subst; run_cases; by repeat split.
Qed.

Lemma run_cleared evs (e : editor) :
  cleared e → cleared (run host defs expandSchema each evs e).
Proof.
  revert e. induction evs as [|ev evs IH]; intros e Hc; [done|].
  simpl. apply IH. by apply step_cleared.
Qed.

(** X14: [destroy] is final: once it has taken effect, whatever is called
    and whatever fires afterwards, the instance stays cleared (never
    ready again, every field [destroy] cleared still cleared), and
    [getValue], [setValue] and [validate] throw. *)
Theorem destroyed_is_final (e : editor) evs :
  cleared e →
  let e' := run host defs expandSchema each evs e in
  cleared e' ∧
  getValue e' = (e', Throw (JsError not_ready_get)) ∧
  (∀ value, setValue value e' = (e', Throw (JsError not_ready_set))) ∧
  (∀ args, Editor.validate host args e' = (e', Throw (JsError not_ready_validate))).
Proof.
  intros Hc. cbv zeta.
  pose proof (run_cleared evs e Hc) as Hc'.
  split; [done|].
  destruct Hc' as (Hr & _). clear Hc.
  generalize dependent (run host defs expandSchema each evs e). intros e' Hr.
  split_and!.
  - open_state e'. subst. by run_body.
  - intros value. open_state e'. subst. by run_body.
  - intros args. by apply validate_guard.
Qed.

Lemma step_rootless ev (e : editor) :
  resolves ev = false →
  ready e = false ∧ root e = None →
  ready (step host defs expandSchema each ev e) = false ∧
  root (step host defs expandSchema each ev e) = None.
Proof.
  intros Hev [Hr Hroot]. destruct ev; try discriminate.
  3: { simpl. by rewrite validate_keeps_state. }
  all: open_state e; subst; by run_cases.
Qed.



(** *** A ready instance *)

Lemma step_whole ev (e : editor) :
  whole e → whole (step host defs expandSchema each ev e).
Proof.
  intros [Hready Hdead]. destruct ev.
  3: { simpl. by rewrite validate_keeps_state. }
  all: open_state e; destruct f_ready, f_destroyed.
  all: first
    [ destruct (Hready eq_refl) as [? _]; discriminate
    | destruct (Hready eq_refl) as (_ & [o ->] & [vd ->] & [r ->] & [es ->]);
      clear Hready Hdead
    | pose proof (Hdead eq_refl) as Hc; clear Hready Hdead;
      unfold cleared in Hc;
      cbn [element options ready destroyed schema template theme iconlib
           root_container validator root validation_results data] in Hc;
      destruct Hc as (_ & _ & ? & ? & ? & ? & ? & ? & ? & ? & ? & ? & ?); subst
    | clear Hready Hdead ].
  all: unfold whole; run_cases; split; intros; try congruence;
    repeat split; eauto.
Qed.

(** X16: In every state of a session a ready instance is whole: it is not
    destroyed and has its options, validator, root editor and cached
    results, so [getValue()] and [validate()] return, and [destroy()]
    runs to its end and leaves the instance cleared; and an instance
    marked destroyed is cleared. *)
Theorem ready_is_whole el opts (e0 : editor) evs :
  construct defs el opts = Normal e0 →
  let e := run host defs expandSchema each evs e0 in
  (ready e = true →
   destroyed e = false ∧
   (∃ r, root e = Some r ∧ getValue e = (e, Normal (root_getValue r))) ∧
   (∃ es, Editor.validate host [] e = (e, Normal (Some es))) ∧
   cleared (fst (destroy e)) ∧ snd (destroy e) = Normal tt) ∧
  (destroyed e = true → cleared e).
Proof.
  intros Hnew. cbv zeta.
  assert (Hwhole : whole (run host defs expandSchema each evs e0)).
  { assert (Hinit : whole e0).
    { unfold construct in Hnew. destruct el as [el|]; [|done].
      destruct (themes defs !! _); [|done]. injection Hnew as <-. by split. }
    clear Hnew. revert e0 Hinit.
    induction evs as [|ev evs IH]; intros e0 Hinit; [done|].
    simpl. apply IH. by apply step_whole. }
  generalize dependent (run host defs expandSchema each evs e0).
  intros e [Hready Hdead]. split; [|done].
  intros Hr. destruct (Hready Hr) as (Hd & [o Ho] & [vd Hvd] & [r Hroot] & [es Hes]).
  split; [done|]. open_state e. subst. run_body.
  split_and!; try done; by eexists.
Qed.

(** *** Enabling and disabling *)

Context `{RootSwitch R}.

(** X17: [isEnabled], [enable] and [disable] have no [ready] guard.  Until
    the loader has called back, and again once [destroy] has taken
    effect, there is no root editor: [isEnabled()] answers true, and
    [enable()] and [disable()] throw a TypeError, not the Error of the
    guarded methods; the instance is not written. *)
Theorem switch_without_root evs :
  (∀ el opts (e0 : editor),
     construct defs el opts = Normal e0 →
     forallb (fun ev => negb (resolves ev)) evs = true →
     let e := run host defs expandSchema each evs e0 in
     isEnabled e = (e, Normal true) ∧
     enable e = (e, Throw (TypeError "root")) ∧
     disable e = (e, Throw (TypeError "root"))) ∧
  (∀ e0 : editor,
     cleared e0 →
     let e := run host defs expandSchema each evs e0 in
     isEnabled e = (e, Normal true) ∧
     enable e = (e, Throw (TypeError "root")) ∧
     disable e = (e, Throw (TypeError "root"))).
Proof.
  assert (Hnone : ∀ e : editor,
            root e = None →
            isEnabled e = (e, Normal true) ∧
            enable e = (e, Throw (TypeError "root")) ∧
            disable e = (e, Throw (TypeError "root"))).
  { intros e Hroot. open_state e. subst.
    unfold isEnabled, enable, disable. by run_body. }
  split.
  - intros el opts e0 Hnew Hevs. cbv zeta. apply Hnone.
    assert (Hinit : ready e0 = false ∧ root e0 = None).
    { unfold construct in Hnew. destruct el as [el|]; [|done].
      destruct (themes defs !! _); [|done]. by injection Hnew as <-. }
    clear Hnew. revert e0 Hinit.
    induction evs as [|ev evs IH]; intros e0 Hinit; [apply Hinit|].
    simpl in *. apply andb_prop in Hevs as [Hev Hevs].
    apply IH; [done|]. apply step_rootless; [|done]. by destruct (resolves ev).
  - intros e0 Hc. cbv zeta. apply Hnone. by apply run_cleared.
Qed.

End EditorFacts.

(** * The tables of an instance *)

Section RegistryFacts.
Import Json Tables.
Context {child : Type} (path : child → string).

Lemma getEditor_step c p (t : registry) :
  getEditor p (registry_step path c t) =
  if decide (call_path path c = p)
  then match c with Register editor => Val editor | Unregister _ => Null end
  else getEditor p t.
Proof.
  destruct c as [editor|editor]; simpl;
    unfold registerEditor, unregisterEditor, getEditor;
    (destruct (decide (path editor = p)) as [->|Hne];
     [by rewrite lookup_insert_eq|rewrite lookup_insert_ne by done]);
    by destruct t.
Qed.

(** X18: The table of editors answers by the last call made for a path:
    [getEditor(path)] is the editor registered last at this path, null
    when the last call was [unregisterEditor], whichever editor it was
    given, and what it was before when no call named the path.  The
    paths are not names of members of [Object.prototype]. *)
Theorem getEditor_last_call calls p (t : registry) :
  forallb (fun c => own_name (call_path path c)) calls = true → own_name p = true →
  getEditor p (registry_run path calls t) =
  match last (filter (fun c => call_path path c = p) calls) with
  | Some (Register editor) => Val editor
  | Some (Unregister _) => Null
  | None => getEditor p t
  end.
Proof.
  intros _ _. induction calls as [|c calls IH] using rev_ind; [done|].
  unfold registry_run in *. rewrite foldl_app. simpl.
  rewrite getEditor_step, filter_app, filter_cons, filter_nil.
  destruct (decide (call_path path c = p)) as [Hc|Hc].
  - by rewrite last_snoc.
  - by rewrite app_nil_r.
Qed.

End RegistryFacts.

Section WatcherFacts.
Import Json Editor Tables.

Context (acts : nat → watchlist → watchlist * completion unit).

(** A run of idle watchers: each is called, the watch list stays. *)
Lemma notify_loop_idle p l n : ∀ fuel i called (w : watchlist),
  watched p w = Some l →
  i + n ≤ length l →
  (∀ cb, cb ∈ take n (drop i l) → idle acts cb) →
  notify_loop acts (n + fuel) p i called w =
  notify_loop acts fuel p (i + n) (called ++ take n (drop i l)) w.
Proof.
  induction n as [|n IH]; intros fuel i called w Hl Hlen Hidle.
  - rewrite Nat.add_0_r. simpl. by rewrite app_nil_r.
  - destruct (lookup_lt_is_Some_2 l i) as [cb Hcb]; [lia|].
    rewrite (drop_S l cb i Hcb) in *. cbn [take] in *.
    change (S n + fuel) with (S (n + fuel)). cbn [notify_loop].
    rewrite Hl, Hcb. rewrite (Hidle cb) by by left.
    rewrite (IH fuel (S i)); [|done|lia|].
    + rewrite <- app_assoc. simpl. by replace (i + S n) with (S i + n) by lia.
    + intros c Hc. apply Hidle. by right.
Qed.

Lemma notifyWatchers_idle p fuel (w : watchlist) :
  (∀ cb, cb ∈ default [] (watched p w) → idle acts cb) →
  length (default [] (watched p w)) < fuel →
  notifyWatchers acts fuel p w =
  Some (w, default [] (watched p w),
        Normal (match watched p w with
                | None => ReturnsThis
                | Some _ => ReturnsUndefined
                end)).
Proof.
  unfold notifyWatchers. intros Hidle Hfuel.
  destruct (watched p w) as [l|] eqn:Hl; [|done]. simpl in *.
  replace fuel with (length l + S (fuel - S (length l))) by lia.
  rewrite (notify_loop_idle p l (length l) _ 0 [] w Hl); [|done|].
  - rewrite drop_0, firstn_all. cbn [notify_loop].
    rewrite Hl. by rewrite lookup_ge_None_2 by (simpl; lia).
  - by rewrite drop_0, firstn_all.
Qed.

Lemma watched_watch p p' cb (w : watchlist) :
  watched p (watch p' cb w) =
  if decide (p' = p) then Some (default [] (watched p w) ++ [cb]) else watched p w.
Proof.
  unfold watch, watched at 1.
  destruct (decide (p' = p)) as [->|Hne].
  - by rewrite lookup_insert_eq.
  - rewrite lookup_insert_ne by done. by destruct w.
Qed.

Lemma watched_unwatch p p' cb (w : watchlist) :
  watched p (unwatch p' cb w) =
  if decide (p' = p)
  then match watched p w, cb with
       | Some l, Some cb =>
           if decide (filter (fun c => c ≠ cb) l = []) then None
           else Some (filter (fun c => c ≠ cb) l)
       | _, _ => None
       end
  else watched p w.
Proof.
  unfold unwatch. destruct w as [m|]; [|by destruct (decide (p' = p))].
  destruct (decide (p' = p)) as [->|Hne].
  - destruct (watched p (Some m)) as [l|] eqn:Hl; [|by rewrite Hl].
    destruct cb as [cb|]; unfold watched; rewrite lookup_insert_eq; [|done].
    by destruct (decide (filter (fun c => c ≠ cb) l = [])).
  - destruct (watched p' (Some m)) as [l|]; [|done].
    destruct cb as [cb|]; unfold watched; by rewrite lookup_insert_ne.
Qed.

Lemma notified_step p c (w : watchlist) :
  default [] (watched p (watch_step c w)) = watchers_step p c (default [] (watched p w)).
Proof.
  destruct c as [p' cb|p' [cb|]]; cbn [watch_step watchers_step].
  - rewrite watched_watch. by destruct (decide (p' = p)).
  - rewrite watched_unwatch. destruct (decide (p' = p)); [|done].
    destruct (watched p w) as [l|]; [|done].
    simpl. by destruct (decide (filter (fun c => c ≠ cb) l = [])) as [Hnil|].
  - rewrite watched_unwatch. destruct (decide (p' = p)); [|done].
    by destruct (watched p w).
Qed.

Lemma watched_run p calls : ∀ w : watchlist,
  default [] (watched p (watch_run calls w)) =
  watchers_run p calls (default [] (watched p w)).
Proof.
  induction calls as [|c calls IH]; intros w; [done|].
  simpl. by rewrite IH, notified_step.
Qed.

(** X19: The watchers of a path behave as a list of their own: [watch]
    appends one (twice when given twice), [unwatch] with a callback
    removes each of its registrations, [unwatch] without one removes
    all, and calls for another path change nothing; and when each of
    the watchers of the path returns without touching the watch list,
    [notifyWatchers(path)] calls exactly these, in the order of their
    registration, and returns, leaving the watch list as it was.  The
    property says nothing of watchers that watch, unwatch or throw.  The
    paths are not names of members of [Object.prototype]. *)
Theorem notified_by_path calls p (w : watchlist) :
  forallb (fun c => own_name (watch_path c)) calls = true → own_name p = true →
  default [] (watched p (watch_run calls w)) =
    watchers_run p calls (default [] (watched p w)) ∧
  ((∀ cb, cb ∈ watchers_run p calls (default [] (watched p w)) → idle acts cb) →
   ∀ fuel, length (watchers_run p calls (default [] (watched p w))) < fuel →
     ∃ r, notifyWatchers acts fuel p (watch_run calls w) =
          Some (watch_run calls w,
                watchers_run p calls (default [] (watched p w)),
                Normal r)).
Proof.
  intros _ _. split; [apply watched_run|].
  intros Hidle fuel Hfuel. rewrite <- watched_run in *.
  eexists. by apply notifyWatchers_idle.
Qed.

Lemma tidy_step c (w : watchlist) : tidy w → tidy (watch_step c w).
Proof.
  intros Hw p. destruct c as [p' cb|p' cb]; cbn [watch_step].
  - rewrite watched_watch. destruct (decide (p' = p)); [|apply Hw].
    intros [=Hnil]. by apply app_nil in Hnil as [_ ?].
  - rewrite watched_unwatch. destruct (decide (p' = p)); [|apply Hw].
    destruct (watched p w) as [l|]; [|done]. destruct cb as [cb|]; [|done].
    destruct (decide (filter (fun c => c ≠ cb) l = [])); [done|]. by intros [=].
Qed.

(** X20: The watch list never holds an empty array, so when the watchers
    of the path return without touching the watch list
    [notifyWatchers] returns the instance exactly when it has called
    nobody: after it has called a watcher it returns nothing, and
    cannot be chained.  A watcher that is alone on its path and
    unwatches itself leaves [null] there (line 327), and the loop
    condition, which reads the member again, then throws a TypeError.
    The paths are not names of members of [Object.prototype]. *)
Theorem notifyWatchers_returns calls p :
  forallb (fun c => own_name (watch_path c)) calls = true → own_name p = true →
  tidy (watch_run calls None) ∧
  ((∀ cb, cb ∈ default [] (watched p (watch_run calls None)) → idle acts cb) →
   ∀ fuel, length (default [] (watched p (watch_run calls None))) < fuel →
     ∃ called r,
       notifyWatchers acts fuel p (watch_run calls None) =
         Some (watch_run calls None, called, Normal r) ∧
       (r = ReturnsThis ↔ called = [])) ∧
  (∀ cb fuel,
     watched p (watch_run calls None) = Some [cb] →
     acts cb (watch_run calls None) =
       (unwatch p (Some cb) (watch_run calls None), Normal tt) →
     notifyWatchers acts (S (S fuel)) p (watch_run calls None) =
       Some (unwatch p (Some cb) (watch_run calls None), [cb],
             Throw (TypeError "watchlist[path]"))).
Proof.
  intros _ _.
  assert (Htidy : tidy (watch_run calls None)).
  { assert (Hgen : ∀ w, tidy w → tidy (watch_run calls w)).
    { induction calls as [|c calls IH]; intros w Hw; [done|].
      simpl. apply IH. by apply tidy_step. }
    apply Hgen. by intros p'. }
  split; [done|]. specialize (Htidy p). split.
  - intros Hidle fuel Hfuel. eexists _, _. split; [by apply notifyWatchers_idle|].
    destruct (watched p (watch_run calls None)) as [l|]; simpl; [|done].
    split; [done|]. intros ->. by destruct Htidy.
  - intros cb fuel Hw Hcb. unfold notifyWatchers. rewrite Hw.
    cbn [notify_loop]. rewrite Hw. simpl. rewrite Hcb.
    rewrite watched_unwatch, Hw. rewrite decide_True by done.
    assert (Hnone : filter (fun c => c ≠ cb) [cb] = []).
    { rewrite filter_cons, filter_nil. by destruct (decide (cb ≠ cb)). }
    simpl. by rewrite Hnone.
Qed.

End WatcherFacts.

Section DataFacts.
Import Json Editor Tables.
Context {A : Type} (attribute : string → option string).

Local Abbreviation store := (Tables.store (A := A)).

Lemma decimal_inj n n' : decimal n = decimal n' → n = n'.
Proof.
  unfold decimal. intros Heq. apply Unsigned.to_uint_inj.
  apply (f_equal NilEmpty.uint_of_string) in Heq.
  rewrite !NilEmpty.usu in Heq. by injection Heq.
Qed.

Lemma attributes_of_insert el el' m (s : store) u (d : option (gmap string A)) :
  attributes_of el' (Store u d (<[el := m]> (attributes s))) =
  if decide (el = el') then m else attributes_of el' s.
Proof.
  unfold attributes_of. cbn [attributes].
  destruct (decide (el = el')) as [->|Hne].
  - by rewrite lookup_insert_eq.
  - by rewrite lookup_insert_ne.
Qed.

Lemma data_attribute_named el key a (s : store) :
  attribute ("data-jsoneditor-" +:+ key) = Some a →
  data_attribute attribute el key s = attributes_of el s !! a.
Proof. intros Ha. unfold data_attribute. by rewrite Ha. Qed.

Lemma data_set_marked el key value (s : store) d u :
  __data s = Some d → data_attribute attribute el key s = Some u →
  _data attribute el key [value] s =
  (Store (uuid s) (Some (<[u := value]> d)) (attributes s), Normal Undefined).
Proof. intros Hd Hu. unfold _data. by rewrite Hu, Hd. Qed.

Lemma data_set_unmarked el key value (s : store) d a :
  __data s = Some d → attribute ("data-jsoneditor-" +:+ key) = Some a →
  data_attribute attribute el key s = None →
  _data attribute el key [value] s =
  (Store (S (uuid s)) (Some (<[decimal (uuid s) := value]> d))
     (<[el := <[a := decimal (uuid s)]> (attributes_of el s)]> (attributes s)),
   Normal Undefined).
Proof.
  intros Hd Ha Hu. unfold _data, setAttribute. rewrite Hu, Ha.
  cbn [uuid __data attributes]. by rewrite Hd.
Qed.

Lemma data_get el key (s : store) :
  _data attribute el key [] s =
  match data_attribute attribute el key s with
  | None => (s, Normal Null)
  | Some u =>
      match __data s with
      | Some d => (s, Normal match d !! u with
                             | Some value => Val value
                             | None => Undefined
                             end)
      | None => (s, Throw (TypeError "__data"))
      end
  end.
Proof. done. Qed.

(** X21: What was written is read back: on a live table, for a key that
    gives an attribute name, [_data(el, key, value)] returns nothing and
    [_data(el, key)] then returns the value, whatever the element
    carried under this attribute (short of the name of a member of
    [Object.prototype]); a first write takes a new number, a further
    one takes none. *)
Theorem data_round_trip el key value (s : store) d a :
  __data s = Some d →
  attribute ("data-jsoneditor-" +:+ key) = Some a →
  (∀ u, data_attribute attribute el key s = Some u → own_name u = true) →
  snd (_data attribute el key [value] s) = Normal Undefined ∧
  _data attribute el key [] (fst (_data attribute el key [value] s)) =
    (fst (_data attribute el key [value] s), Normal (Val value)) ∧
  uuid (fst (_data attribute el key [value] s)) =
    match data_attribute attribute el key s with
    | Some _ => uuid s
    | None => S (uuid s)
    end ∧
  uuid (fst (_data attribute el key [value] (fst (_data attribute el key [value] s)))) =
    uuid (fst (_data attribute el key [value] s)).
Proof.
  intros Hd Ha _.
  destruct (data_attribute attribute el key s) as [u|] eqn:Hu.
  - rewrite (data_set_marked el key value s d u) by done. cbn [fst snd].
    set (s' := Store (uuid s) (Some (<[u := value]> d)) (attributes s)).
    assert (Hu' : data_attribute attribute el key s' = Some u).
    { by rewrite (data_attribute_named el key a) in *. }
    split_and!; try done.
    + rewrite data_get, Hu'. cbn [__data s']. by rewrite lookup_insert_eq.
    + by rewrite (data_set_marked el key value s' (<[u := value]> d) u).
  - rewrite (data_set_unmarked el key value s d a) by done. cbn [fst snd].
    set (s' := Store _ _ _).
    assert (Hu' : data_attribute attribute el key s' = Some (decimal (uuid s))).
    { rewrite (data_attribute_named el key a) by done. unfold s'.
      rewrite attributes_of_insert, decide_True by done.
      by rewrite lookup_insert_eq. }
    split_and!; try done.
    + rewrite data_get, Hu'. cbn [__data s']. by rewrite lookup_insert_eq.
    + by rewrite (data_set_marked el key value s'
                    (<[decimal (uuid s) := value]> d) (decimal (uuid s))).
Qed.

Lemma agrees_init attrs :
  unmarked attribute attrs → agrees attribute (new_store (A := A) attrs) ∅.
Proof.
  intros Hun.
  assert (Hnone : ∀ el a, data_name attribute a →
            attributes_of el (new_store (A := A) attrs) !! a = None).
  { intros el a Ha. unfold attributes_of, new_store. cbn [attributes].
    destruct (attrs !! el) as [m|] eqn:Hm; simpl; [by eapply Hun|done]. }
  split.
  - by eexists.
  - intros el a Ha. by rewrite Hnone.
  - intros el a el' a' u Ha _ Hu. by rewrite Hnone in Hu.
Qed.

Lemma agrees_bump (s : store) m :
  agrees attribute s m →
  agrees attribute (Store (S (uuid s)) (__data s) (attributes s)) m.
Proof.
  intros [Hlive Hvalue Hapart]. split; [done| |done].
  intros el a Ha. specialize (Hvalue el a Ha).
  change (attributes_of el (Store (S (uuid s)) (__data s) (attributes s)))
    with (attributes_of el s).
  destruct (attributes_of el s !! a) as [u|]; [|done].
  destruct Hvalue as ((n & Hn & ->) & Hsome & Hd). split_and!; try done.
  exists n. split; [cbn [uuid]; lia|done].
Qed.

Lemma agrees_set el key value (s : store) m a :
  attribute ("data-jsoneditor-" +:+ key) = Some a →
  agrees attribute s m →
  agrees attribute (fst (_data attribute el key [value] s)) (<[(el, a) := value]> m).
Proof.
  intros Ha [[d Hd] Hvalue Hapart].
  assert (Hname : data_name attribute a) by by exists key.
  destruct (data_attribute attribute el key s) as [u|] eqn:Hu.
  - rewrite (data_set_marked el key value s d u) by done. cbn [fst].
    rewrite (data_attribute_named el key a) in Hu by done.
    split.
    + by eexists.
    + intros el0 a0 Ha0. specialize (Hvalue el0 a0 Ha0).
      change (attributes_of el0 (Store (uuid s) (Some (<[u := value]> d)) (attributes s)))
        with (attributes_of el0 s).
      cbn [uuid __data]. rewrite Hd in Hvalue. simpl in *.
      destruct (decide ((el0, a0) = (el, a))) as [[= -> ->]|Hne].
      * rewrite Hu in Hvalue |- *. rewrite !lookup_insert_eq.
        destruct Hvalue as (Hn & _ & _). split_and!; [done|by eexists|done].
      * rewrite lookup_insert_ne by done.
        destruct (attributes_of el0 s !! a0) as [u0|] eqn:Hu0; [|done].
        rewrite lookup_insert_ne; [done|].
        intros <-. apply Hne. by eapply Hapart.
    + intros el0 a0 el1 a1 u0 Ha0 Ha1. apply Hapart; done.
  - rewrite (data_set_unmarked el key value s d a) by done. cbn [fst].
    rewrite (data_attribute_named el key a) in Hu by done.
    set (s' := Store _ _ _).
    assert (Hmark : ∀ el0 a0,
              attributes_of el0 s' !! a0 =
              if decide ((el0, a0) = (el, a)) then Some (decimal (uuid s))
              else attributes_of el0 s !! a0).
    { intros el0 a0. unfold s'. rewrite attributes_of_insert.
      destruct (decide ((el0, a0) = (el, a))) as [[= -> ->]|Hne].
      - rewrite decide_True by done. by rewrite lookup_insert_eq.
      - destruct (decide (el = el0)) as [<-|]; [|done].
        rewrite lookup_insert_ne; [done|]. intros <-. by apply Hne. }
    assert (Hold : ∀ el0 a0 u0,
              data_name attribute a0 → attributes_of el0 s !! a0 = Some u0 →
              u0 ≠ decimal (uuid s)).
    { intros el0 a0 u0 Ha0 Hu0 ->. specialize (Hvalue el0 a0 Ha0).
      rewrite Hu0 in Hvalue. destruct Hvalue as ((n & Hn & Heq) & _).
      apply decimal_inj in Heq. lia. }
    split.
    + by eexists.
    + intros el0 a0 Ha0. rewrite Hmark. specialize (Hvalue el0 a0 Ha0).
      cbn [uuid __data s']. rewrite Hd in Hvalue. simpl in *.
      destruct (decide ((el0, a0) = (el, a))) as [[= -> ->]|Hne].
      * rewrite !lookup_insert_eq. split_and!; try done.
        exists (uuid s). split; [lia|done].
      * rewrite lookup_insert_ne by done.
        destruct (attributes_of el0 s !! a0) as [u0|] eqn:Hu0; [|done].
        destruct Hvalue as ((n & Hn & Heq) & Hsome & Hlook).
        rewrite lookup_insert_ne; [|intros Hnew; by eapply Hold].
        split_and!; try done. exists n. split; [lia|done].
    + intros el0 a0 el1 a1 u0 Ha0 Ha1. rewrite !Hmark.
      destruct (decide ((el0, a0) = (el, a))) as [->|Hne0],
               (decide ((el1, a1) = (el, a))) as [->|Hne1]; try done.
      * intros [= <-] Hu1. exfalso. by apply (Hold el1 a1 _ Ha1 Hu1).
      * intros Hu0 [= <-]. exfalso. by apply (Hold el0 a0 _ Ha0 Hu0).
      * by apply Hapart.
Qed.

Lemma data_get_state el key (s : store) :
  fst (_data attribute el key [] s) = s.
Proof.
  rewrite data_get. destruct (data_attribute attribute el key s); [|done].
  by destruct (__data s).
Qed.

Lemma agrees_step c (s : store) m :
  agrees attribute s m →
  agrees attribute (data_step attribute c s) (written_step attribute c m).
Proof.
  intros Hs. destruct c as [el key value|el key]; cbn [data_step written_step].
  - destruct (attribute ("data-jsoneditor-" +:+ key)) as [a|] eqn:Ha.
    + by apply agrees_set.
    + unfold _data, data_attribute, setAttribute. rewrite Ha. cbn [fst].
      by apply agrees_bump.
  - by rewrite data_get_state.
Qed.

(** X22: [_data] keeps a map from an element and an attribute name to a
    value: in a document none of whose elements is marked yet, after any
    sequence of calls [_data(el, key)] returns the value written last for
    this element under this attribute name, and null when none was; a
    write for another element or another name does not show. *)
Theorem data_is_a_map (calls : list (@data_call A)) attrs el key a :
  unmarked attribute attrs →
  attribute ("data-jsoneditor-" +:+ key) = Some a →
  _data attribute el key [] (data_run attribute calls (new_store attrs)) =
  (data_run attribute calls (new_store attrs),
   Normal match written attribute calls !! (el, a) with
          | Some value => Val value
          | None => Null
          end).
Proof.
  intros Hun Ha.
  assert (Hrun : ∀ (s : store) m,
            agrees attribute s m →
            agrees attribute (data_run attribute calls s)
              (foldl (fun m c => written_step attribute c m) m calls)).
  { induction calls as [|c calls IH]; intros s m Hs; [done|].
    simpl. apply IH. by apply agrees_step. }
  specialize (Hrun _ _ (agrees_init attrs Hun)).
  fold (written attribute calls) in Hrun.
  destruct Hrun as [[d Hd] Hvalue _].
  specialize (Hvalue el a ltac:(by exists key)).
  rewrite data_get, (data_attribute_named el key a), Hd by done.
  destruct (attributes_of el _ !! a) as [u|].
  - destruct Hvalue as (_ & [value Hm] & Hlook).
    rewrite Hd, Hm in Hlook. simpl in Hlook. by rewrite Hlook, Hm.
  - by rewrite Hvalue.
Qed.

End DataFacts.

Section TemplateFacts.
Import Json Editor Templates.
Context {compiled : Type}.
Context (templates : gmap string (option (engine (compiled := compiled)))).
Context (default_template : engine_name (compiled := compiled)).

(** X23: [compileTemplate] returns a compiled template exactly when the name
    (the default one when none is given) is a custom engine, or a preset
    whose factory returns one, and this engine has a [compile] member;
    the result is then what [compile] returns for the template.  The
    Error [No template engine set] tells a falsy custom engine and is
    never thrown for a preset name.  A preset name is not the name of a
    member of [Object.prototype]. *)
Theorem compileTemplate_result template name :
  (∀ n, default default_template name = Preset n → own_name n = true) →
  (∀ c,
     compileTemplate templates default_template template name = Normal c ↔
     ∃ e f,
       (default default_template name = Custom (Some e) ∨
        ∃ n, default default_template name = Preset n ∧ templates !! n = Some (Some e)) ∧
       compile e = Some f ∧ c = f template) ∧
  (compileTemplate templates default_template template name =
     Throw (JsError "No template engine set") ↔
   default default_template name = Custom None).
Proof.
  intros _. unfold compileTemplate.
  destruct (default default_template name) as [n|[e|]].
  - destruct (templates !! n) as [[e|]|] eqn:Hn.
    + destruct (compile e) as [f|] eqn:Hf.
      * split; [|by split]. intros c. split.
        -- intros [= <-]. exists e, f. split_and!; [right; by exists n|done..].
        -- intros (e' & f' & [Hc|(n' & [= <-] & He)] & Hf' & ->); [done|].
           rewrite Hn in He. injection He as <-. rewrite Hf in Hf'. by injection Hf' as <-.
      * split; [|by split]. intros c. split; [done|].
        intros (e' & f' & [Hc|(n' & [= <-] & He)] & Hf' & ->); [done|].
        rewrite Hn in He. injection He as <-. by rewrite Hf in Hf'.
    + split; [|by split]. intros c. split; [done|].
      intros (e' & f' & [Hc|(n' & [= <-] & He)] & Hf' & ->); [done|].
      by rewrite Hn in He.
    + split; [|by split]. intros c. split; [done|].
      intros (e' & f' & [Hc|(n' & [= <-] & He)] & Hf' & ->); [done|].
      by rewrite Hn in He.
  - destruct (compile e) as [f|] eqn:Hf.
    + split; [|by split]. intros c. split.
      * intros [= <-]. exists e, f. split_and!; [by left|done..].
      * intros (e' & f' & [[= <-]|(n' & Hc & _)] & Hf' & ->); [|done].
        rewrite Hf in Hf'. by injection Hf' as <-.
    + split; [|by split]. intros c. split; [done|].
      intros (e' & f' & [[= <-]|(n' & Hc & _)] & Hf' & ->); [|done].
      by rewrite Hf in Hf'.
  - split; [|by split]. intros c. split; [done|].
    by intros (e' & f' & [Hc|(n' & Hc & _)] & _).
Qed.

End TemplateFacts.

Section LoaderFacts.
Import Json Loader.
Context (canonical : string → string → string * list string).

Lemma outstanding_pending (st : state) :
  outstanding st = true ↔ ∃ u, table st !! u = Some Pending.
Proof.
  unfold outstanding. rewrite existsb_exists. split.
  - intros [[u e] [Hin He]]. apply list_elem_of_In, elem_of_map_to_list in Hin.
    exists u. simpl in He. by destruct e.
  - intros [u Hu]. exists (u, Pending). split; [|done].
    by apply list_elem_of_In, elem_of_map_to_list.
Qed.

(** *** One reference *)

Ltac visit_cases base st r :=
  unfold visit;
  destruct (failure st) as [err|] eqn:Hfail; simpl;
  [|destruct (table st !! fst (canonical base r)) as [[|target_doc]|] eqn:Htarget;
    simpl;
    [| destruct (lookup_pointer (snd (canonical base r)) target_doc) eqn:Hptr; simpl
     |]].

Lemma visit_calls base st r :
  resolved_calls (visit canonical base st r) = resolved_calls st.
Proof. visit_cases base st r; done. Qed.

Lemma visit_failure base st r :
  failure (visit canonical base st r) = None → failure st = None.
Proof. visit_cases base st r; congruence. Qed.

Lemma visit_resolved base st r u doc :
  table (visit canonical base st r) !! u = Some (Resolved doc) ↔
  table st !! u = Some (Resolved doc).
Proof.
  visit_cases base st r; try done.
  destruct (decide (fst (canonical base r) = u)) as [<-|Hne].
  - rewrite lookup_insert_eq, Htarget. split; intros; discriminate.
  - by rewrite lookup_insert_ne.
Qed.

Lemma visit_logged base0 base st r :
  logged base0 st → logged base0 (visit canonical base st r).
Proof.
  unfold logged.
  intros (Hnodup & Hlisted & Hkeys). visit_cases base st r; try done.
  split_and!.
  - apply NoDup_app. split_and!; [done| |apply NoDup_singleton].
    intros u Hu ->%list_elem_of_singleton.
    destruct (Hlisted _ Hu) as [e He]. congruence.
  - intros u [Hu| ->%list_elem_of_singleton]%elem_of_app.
    + destruct (decide (fst (canonical base r) = u)) as [<-|Hne].
      * by rewrite lookup_insert_eq.
      * rewrite lookup_insert_ne by done. by apply Hlisted.
    + by rewrite lookup_insert_eq.
  - intros u Hu. destruct (decide (fst (canonical base r) = u)) as [<-|Hne].
    + left. rewrite elem_of_app. right. left.
    + rewrite lookup_insert_ne in Hu by done.
      destruct (Hkeys u Hu) as [?|?]; [left|by right].
      rewrite elem_of_app. by left.
Qed.

(** A table entry that is present is reused: no fetch is issued. *)
Lemma visit_reuses base st r :
  is_Some (table st !! fst (canonical base r)) →
  fetched (visit canonical base st r) = fetched st.
Proof. intros [e He]. visit_cases base st r; first [done | congruence]. Qed.

(** The cases of a reference met while no error was reported. *)
Ltac visit_live base st r Hlive :=
  unfold visit; rewrite Hlive; simpl;
  destruct (table st !! fst (canonical base r)) as [[|target_doc]|] eqn:Htarget;
  simpl;
  [| destruct (lookup_pointer (snd (canonical base r)) target_doc) eqn:Hptr; simpl
   |].

Lemma visit_accounted base st r t :
  failure (visit canonical base st r) = None →
  accounted st t → accounted (visit canonical base st r) t.
Proof.
  intros Hf. pose proof (visit_failure _ _ _ Hf) as Hlive. revert Hf.
  unfold accounted. visit_live base st r Hlive; try done.
  - intros _. destruct (table st !! fst t) as [[|doc]|]; try done.
    rewrite elem_of_app. by left.
  - intros _. destruct (decide (fst (canonical base r) = fst t)) as [Heq|Hne].
    + rewrite <- Heq, Htarget. done.
    + rewrite lookup_insert_ne by done.
      destruct (table st !! fst t) as [[|doc]|]; try done.
      rewrite elem_of_app. by left.
Qed.

Lemma visit_accounts base st r :
  failure (visit canonical base st r) = None →
  accounted (visit canonical base st r) (canonical base r).
Proof.
  intros Hf. pose proof (visit_failure _ _ _ Hf) as Hlive. revert Hf.
  unfold accounted. visit_live base st r Hlive; try done.
  - intros _. rewrite Htarget. rewrite elem_of_app. right. left.
  - intros _. by rewrite Htarget, Hptr.
  - intros _. rewrite lookup_insert_eq. rewrite elem_of_app. right. left.
Qed.

(** *** One document *)

Lemma scan_calls base rs st :
  resolved_calls (foldl (visit canonical base) st rs) = resolved_calls st.
Proof.
  revert st. induction rs as [|r rs IH]; intros st; simpl; [done|].
  by rewrite IH, visit_calls.
Qed.

Lemma scan_failure base rs st :
  failure (foldl (visit canonical base) st rs) = None → failure st = None.
Proof.
  revert st. induction rs as [|r rs IH]; intros st; simpl; [done|].
  intros Hf. eapply visit_failure, IH, Hf.
Qed.

Lemma scan_resolved base rs st u doc :
  table (foldl (visit canonical base) st rs) !! u = Some (Resolved doc) ↔
  table st !! u = Some (Resolved doc).
Proof.
  revert st. induction rs as [|r rs IH]; intros st; simpl; [done|].
  by rewrite IH, visit_resolved.
Qed.

Lemma scan_logged base0 base rs st :
  logged base0 st → logged base0 (foldl (visit canonical base) st rs).
Proof.
  revert st. induction rs as [|r rs IH]; intros st Hst; simpl; [done|].
  by apply IH, visit_logged.
Qed.

Lemma scan_accounted base rs st t :
  failure (foldl (visit canonical base) st rs) = None →
  accounted st t →
  accounted (foldl (visit canonical base) st rs) t.
Proof.
  revert st. induction rs as [|r rs IH]; intros st Hf Ht; simpl in *; [done|].
  apply IH; [done|]. apply visit_accounted; [|done]. by eapply scan_failure.
Qed.

Lemma scan_accounts base rs st r :
  failure (foldl (visit canonical base) st rs) = None → r ∈ rs →
  accounted (foldl (visit canonical base) st rs) (canonical base r).
Proof.
  revert st. induction rs as [|r' rs IH]; intros st Hf Hr; simpl in *.
  - by apply elem_of_nil in Hr.
  - apply elem_of_cons in Hr as [->|Hr]; [|by apply IH].
    apply scan_accounted; [done|]. apply visit_accounts. by eapply scan_failure.
Qed.

(** *** Subscribers *)

Lemma resume_fields uri doc st :
  table (resume uri doc st) = table st ∧
  fetched (resume uri doc st) = fetched st ∧
  resolved_calls (resume uri doc st) = resolved_calls st ∧
  waiting (resume uri doc st) =
    filter (fun w : string * list string => fst w ≠ uri) (waiting st) ∧
  (failure (resume uri doc st) = None →
   failure st = None ∧
   ∀ w, w ∈ waiting st → fst w = uri → is_Some (lookup_pointer (snd w) doc)).
Proof.
  unfold resume.
  set (mine := filter (fun w : string * list string => fst w = uri) (waiting st)).
  set (others := filter (fun w : string * list string => fst w ≠ uri) (waiting st)).
  set (st' := State (table st) (fetched st) others (resolved_calls st) (failure st)).
  assert (Hmine : ∀ w, w ∈ waiting st → fst w = uri → w ∈ mine).
  { intros w Hw Hu. apply list_elem_of_filter. by split. }
  assert (Hgen : ∀ ws st0,
    let st1 := foldl (fun st w =>
                        match lookup_pointer (snd w) doc with
                        | Some _ => st
                        | None => fail (DanglingRef (fst w) (snd w)) st
                        end) st0 ws in
    table st1 = table st0 ∧ fetched st1 = fetched st0 ∧
    resolved_calls st1 = resolved_calls st0 ∧ waiting st1 = waiting st0 ∧
    (failure st1 = None →
     failure st0 = None ∧ ∀ w, w ∈ ws → is_Some (lookup_pointer (snd w) doc))).
  { induction ws as [|w ws IH]; intros st0; simpl.
    - split_and!; try done. intros Hf. split; [done|].
      intros w Hw. by apply elem_of_nil in Hw.
    - destruct (lookup_pointer (snd w) doc) as [node|] eqn:Hptr.
      + destruct (IH st0) as (? & ? & ? & ? & Hfail). split_and!; try done.
        intros Hf. destruct (Hfail Hf) as [? Hws]. split; [done|].
        intros w' [->|Hw']%elem_of_cons; [by rewrite Hptr | by apply Hws].
      + destruct (IH (fail (DanglingRef (fst w) (snd w)) st0))
          as (? & ? & ? & ? & Hfail).
        split_and!; try done. intros Hf. by destruct (Hfail Hf) as [? _]. }
  destruct (Hgen mine st') as (Ht & Hfe & Hc & Hwait & Hfail).
  split_and!; try done. intros Hf. destruct (Hfail Hf) as [? Hws].
  split; [done|]. intros w Hw Hu. by apply Hws, Hmine.
Qed.

(** *** The fan-in *)

Lemma settle_fields st :
  table (settle st) = table st ∧ fetched (settle st) = fetched st ∧
  waiting (settle st) = waiting st ∧ failure (settle st) = failure st ∧
  outstanding (settle st) = outstanding st.
Proof.
  unfold settle. destruct (failure st) eqn:Hf; [done|].
  destruct (outstanding st) eqn:Ho; [done|].
  unfold outstanding in *. simpl. split_and!; first [done | congruence].
Qed.

Lemma settle_calls st :
  resolved_calls st = 0 →
  resolved_calls (settle st) =
  match failure (settle st) with
  | None => if outstanding (settle st) then 0 else 1
  | Some _ => 0
  end.
Proof.
  intros Hcalls. destruct (settle_fields st) as (_ & _ & _ & -> & ->).
  unfold settle. destruct (failure st); [done|].
  destruct (outstanding st); [done|]. simpl. by rewrite Hcalls.
Qed.

Lemma settle_accounted st t :
  accounted (settle st) t ↔ accounted st t.
Proof.
  unfold accounted. by destruct (settle_fields st) as (-> & _ & -> & _ & _).
Qed.

Lemma settle_logged base st : logged base (settle st) ↔ logged base st.
Proof.
  unfold logged. by destruct (settle_fields st) as (-> & -> & _ & _ & _).
Qed.

(** *** Every state of a [load] call is consistent *)

Lemma empty_logged base : logged base (State ∅ [] [] 0 None).
Proof.
  split_and!; [constructor| |]; simpl.
  - intros u Hu. by apply elem_of_nil in Hu.
  - intros u [e He]. by rewrite lookup_empty in He.
Qed.

Lemma load_consistent base root_schema :
  consistent canonical base (load canonical base root_schema).
Proof.
  assert (Hdoc : consistent canonical base
            (settle (scan canonical base root_schema
                       (State {[base := Resolved root_schema]} [] [] 0 None)))).
  { set (st0 := State {[base := Resolved root_schema]} [] [] 0 None).
    split.
    - apply settle_logged, scan_logged. split_and!; [constructor| |]; simpl.
      + intros u Hu. by apply elem_of_nil in Hu.
      + intros u [e He]. right.
        by apply lookup_singleton_Some in He as [<- _].
    - apply settle_calls. unfold scan. by rewrite scan_calls.
    - destruct (settle_fields (scan canonical base root_schema st0))
        as (Ht & _ & _ & Hf & _).
      rewrite Hf, Ht. intros Hfail b doc r Hb Hr. apply settle_accounted.
      apply scan_resolved in Hb. simpl in Hb.
      apply lookup_singleton_Some in Hb as [<- [= <-]].
      by apply scan_accounts. }
  unfold load. destruct root_schema; try done.
  - split.
    + apply empty_logged.
    + done.
    + done.
  - split.
    + apply empty_logged.
    + done.
    + done.
  - split.
    + apply settle_logged, visit_logged, empty_logged.
    + apply settle_calls. by rewrite visit_calls.
    + destruct (settle_fields (visit canonical base (State ∅ [] [] 0 None) s))
        as (Ht & _ & _ & _ & _).
      rewrite Ht. intros _ b doc r Hb _.
      apply visit_resolved in Hb. simpl in Hb. by rewrite lookup_empty in Hb.
  - split.
    + apply empty_logged.
    + done.
    + done.
Qed.

Lemma fail_consistent base e st :
  consistent canonical base st → outstanding st = true →
  consistent canonical base (fail e st).
Proof.
  intros [Hlog Hcalls Hrefs] Hout. split; simpl.
  - done.
  - rewrite Hcalls, Hout. by destruct (failure st).
  - done.
Qed.

Lemma complete_consistent base uri res st :
  consistent canonical base st → consistent canonical base (complete canonical uri res st).
Proof.
  intros Hst. unfold complete.
  destruct (failure st) as [err|] eqn:Hfail; [done|].
  destruct (table st !! uri) as [[|old]|] eqn:Huri; try done.
  assert (Hout : outstanding st = true) by (apply outstanding_pending; eauto).
  destruct res as [doc| |]; [|by apply fail_consistent..].
  destruct Hst as [(Hnodup & Hlisted & Hkeys) Hcalls Hrefs].
  rewrite Hfail, Hout in Hcalls.
  set (st1 := State (<[uri := Resolved doc]> (table st)) (fetched st) (waiting st)
                    (resolved_calls st) None).
  destruct (resume_fields uri doc st1) as (Ht2 & Hf2 & Hc2 & Hw2 & Hfail2).
  set (st2 := resume uri doc st1) in *.
  split.
  - apply settle_logged, scan_logged. unfold logged. rewrite Ht2, Hf2. simpl.
    split_and!; [done| |].
    + intros u Hu. destruct (decide (uri = u)) as [<-|Hne].
      * by rewrite lookup_insert_eq.
      * rewrite lookup_insert_ne by done. by apply Hlisted.
    + intros u Hu. destruct (decide (uri = u)) as [<-|Hne].
      * apply Hkeys. by rewrite Huri.
      * rewrite lookup_insert_ne in Hu by done. by apply Hkeys.
  - apply settle_calls. unfold scan. rewrite scan_calls, Hc2. done.
  - destruct (settle_fields (scan canonical uri doc st2)) as (Ht & _ & _ & Hf & _).
    rewrite Hf, Ht. intros Hfail3 b d r Hb Hr. apply settle_accounted.
    pose proof (scan_failure _ _ _ Hfail3) as Hfail2'.
    destruct (Hfail2 Hfail2') as [_ Hptrs].
    apply scan_resolved in Hb. rewrite Ht2 in Hb. simpl in Hb.
    destruct (decide (uri = b)) as [<-|Hne].
    + rewrite lookup_insert_eq in Hb. injection Hb as <-. by apply scan_accounts.
    + rewrite lookup_insert_ne in Hb by done.
      apply scan_accounted; [done|].
      pose proof (Hrefs Hfail b d r Hb Hr) as Hacc.
      unfold accounted in *. rewrite Ht2, Hw2. simpl.
      destruct (decide (uri = fst (canonical b r))) as [Heq|Hne'].
      * rewrite <- Heq, lookup_insert_eq. rewrite <- Heq, Huri in Hacc.
        by apply Hptrs.
      * rewrite lookup_insert_ne by done.
        destruct (table st !! fst (canonical b r)) as [[|d']|]; try done.
        apply list_elem_of_filter. split; [congruence | done].
Qed.

Lemma reachable_consistent base root_schema st :
  reachable canonical base root_schema st → consistent canonical base st.
Proof.
  induction 1; [apply load_consistent | by apply complete_consistent].
Qed.


End LoaderFacts.


(** C4: single flight.  In every state of a [load] call no URI occurs
    twice in the log of fetches; a reference whose target document has an
    entry in the Reference Table, resolved or pending, issues no fetch;
    and while no error was met, every document other than the root that a
    loaded document refers to has been fetched (so exactly once).  The
    root document that refers to [http://x/defs.json] from two places
    makes one fetch of it, before and after that document arrives. *)
Theorem single_flight canonical base root_schema st :
  Loader.reachable canonical base root_schema st →
  NoDup (Loader.fetched st) ∧
  (∀ b r, is_Some (Loader.table st !! fst (canonical b r)) →
          Loader.fetched (Loader.visit canonical b st r) = Loader.fetched st) ∧
  (Loader.failure st = None →
   ∀ b doc r, Loader.table st !! b = Some (Loader.Resolved doc) →
              r ∈ Loader.refs_of doc → fst (canonical b r) ≠ base →
              fst (canonical b r) ∈ Loader.fetched st) ∧
  (Loader.fetched (Loader.load Loader.plain_canonical Demo.root_uri Demo.root_doc) =
     [Demo.defs_uri] ∧
   Loader.fetched
     (Loader.complete Loader.plain_canonical Demo.defs_uri (Loader.Fetched Demo.defs_doc)
        (Loader.load Loader.plain_canonical Demo.root_uri Demo.root_doc)) =
     [Demo.defs_uri]).
Proof.
  intros Hreach.
  apply reachable_consistent in Hreach as [(Hnodup & Hlisted & Hkeys) Hcalls Hrefs].
  split_and!.
  - done.
  - intros b r. apply visit_reuses.
  - intros Hf b doc r Hb Hr Hne. specialize (Hrefs Hf b doc r Hb Hr).
    unfold Loader.accounted in Hrefs.
    destruct (Hkeys (fst (canonical b r))) as [?|?]; [|done|done].
    by destruct (Loader.table st !! fst (canonical b r)).
  - by vm_compute.
  - by vm_compute.
Qed.

(** * The session of the demonstration *)

Section DemoFacts.
Import Json Validator Editor Demo.

Lemma number_graph_well_formed : well_formed number_schema ∅.
Proof.
  exists (fun _ => 0). split.
  - constructor.
    + intros sub Hsub. vm_compute in Hsub. apply elem_of_nil in Hsub. destruct Hsub.
    + intros sub Hsub. vm_compute in Hsub. apply elem_of_nil in Hsub. destruct Hsub.
    + intros u Hu. discriminate Hu.
  - intros u t Hu. by rewrite lookup_empty in Hu.
Qed.

(** The recursive graph is well formed: its only link is followed
    after a descent into the [child] property. *)
Lemma node_graph_well_formed : well_formed (Schema [Ref node_uri]) node_table.
Proof.
  assert (Hsize : size node_table = 1) by apply map_size_singleton.
  assert (Hlink : ∀ r, 0 < r →
            linked (fun _ => 0) node_table 1 r (Schema [Ref node_uri])).
  { intros r Hr. constructor.
    - intros sub Hsub. cbn in Hsub. apply elem_of_nil in Hsub. destruct Hsub.
    - intros sub Hsub. cbn in Hsub. apply elem_of_nil in Hsub. destruct Hsub.
    - intros u [= <-]. exists node_schema. split; [|lia].
      apply lookup_singleton_eq. }
  exists (fun _ => 0). rewrite Hsize. split; [apply Hlink; lia|].
  intros u t Hu. unfold node_table in Hu.
  apply lookup_singleton_Some in Hu as [<- <-].
  split; [lia|]. constructor.
  - intros sub Hsub. cbn in Hsub. apply elem_of_nil in Hsub. destruct Hsub.
  - intros sub Hsub. cbn in Hsub. apply list_elem_of_singleton in Hsub as ->.
    apply Hlink. lia.
  - intros u Hu. discriminate Hu.
Qed.

(** C9 at the fresh instance. *)
Lemma not_ready_throws_witness :
  ready fresh = false ∧
  Editor.getValue fresh = (fresh, Throw (JsError not_ready_get)) ∧
  (∀ value, Editor.setValue value fresh = (fresh, Throw (JsError not_ready_set))) ∧
  (∀ args, Editor.validate host args fresh =
           (fresh, Throw (JsError not_ready_validate))).
Proof.
  split; [vm_compute; reflexivity|].
  apply (not_ready_throws host fresh). vm_compute; reflexivity.
Defined.

(** C10 at the fresh instance and at a ready one. *)
Lemma destroy_gated_idempotent_witness :
  Editor.destroy fresh = (fresh, Normal tt) ∧
  (cleared (fst (Editor.destroy ready_session)) ∧
   snd (Editor.destroy ready_session) = Normal tt) ∧
  Editor.destroy (fst (Editor.destroy ready_session)) = Editor.destroy ready_session.
Proof.
  destruct (destroy_gated_idempotent (R := plain_root)) as (Hgated & Heffective & Htwice).
  split; [|split].
  - apply (Hgated fresh). right. vm_compute; reflexivity.
  - apply (Heffective ready_session
             (PlainRoot (JStr "start")
                [Error [] "type" "value is not of an allowed type"]));
      vm_compute; reflexivity.
  - apply (Htwice ready_session).
Defined.

(** C8 at a ready instance whose value is changed after the last
    validation pass: the cached errors are those of the old value, with
    no argument and with two; one argument is validated afresh; the next
    animation frame refills the cache. *)
Lemma validate_cached_witness :
  Editor.validate host [JNum 1; JNum 2] ready_session =
    (ready_session, Normal (validation_results ready_session)) ∧
  Editor.validate host [JNum 1] ready_session =
    (ready_session,
     match Validator.validate host (Validator number_schema ∅ []) (JNum 1) with
     | Returned es => Normal (Some es)
     | Failed f => Throw (ValidatorFailure f)
     end) ∧
  Editor.validate host []
    (run host defs (fun s => s) each_in_order [CallSetValue (JNum 1)] ready_session) =
    (run host defs (fun s => s) each_in_order [CallSetValue (JNum 1)] ready_session,
     Normal (validation_results ready_session)) ∧
  validation_results
    (step host defs (fun s => s) each_in_order AnimationFrame
       (run host defs (fun s => s) each_in_order [CallSetValue (JNum 1)] ready_session)) =
    Some [].
Proof.
  destruct (validate_cached (R := plain_root) host defs (fun s => s) each_in_order)
    as (Hnone & Hone & Hkept & Hpass).
  split; [|split; [|split]].
  - apply (Hnone ready_session [JNum 1; JNum 2]); [vm_compute; reflexivity|].
    simpl. lia.
  - apply (Hone ready_session (Validator number_schema ∅ []) (JNum 1));
      vm_compute; reflexivity.
  - apply (Hkept ready_session [CallSetValue (JNum 1)]); vm_compute; reflexivity.
  - apply (Hpass (run host defs (fun s => s) each_in_order [CallSetValue (JNum 1)] ready_session)
             ReadyFrame [] (Validator number_schema ∅ [])
             (PlainRoot (JNum 1) [Error [] "type" "value is not of an allowed type"])
             []); vm_compute; reflexivity.
Defined.

(** C1 on the recursive graph: the validator returns on the nested
    value, and so does [validate] on the ready instance that holds the
    graph. *)
Lemma validate_returns_data_witness :
  (∃ es, Validator.validate host (Validator (Schema [Ref node_uri]) node_table [])
           nested_value = Returned es) ∧
  ((∃ es, Editor.validate host [nested_value]
            (run host defs (fun s => s) each_in_order
               [LoaderResolved (Schema [Ref node_uri]) node_table] fresh) =
          (run host defs (fun s => s) each_in_order
             [LoaderResolved (Schema [Ref node_uri]) node_table] fresh,
           Normal (Some es))) ∨
   (Editor.validate host [nested_value]
      (run host defs (fun s => s) each_in_order
         [LoaderResolved (Schema [Ref node_uri]) node_table] fresh) =
      (run host defs (fun s => s) each_in_order
         [LoaderResolved (Schema [Ref node_uri]) node_table] fresh,
       Throw (ValidatorFailure CustomValidatorThrew)) ∧
    ∃ vd check s v' p,
      validator (run host defs (fun s => s) each_in_order
                   [LoaderResolved (Schema [Ref node_uri]) node_table] fresh) = Some vd ∧
      check ∈ custom_validators vd ∧ check s v' p = None)).
Proof.
  destruct (validate_returns_data (R := plain_root) host defs (fun s => s) each_in_order)
    as [Hvalidator Heditor].
  split.
  - destruct (Hvalidator (Validator (Schema [Ref node_uri]) node_table []) nested_value)
      as [_ Htotal]; [exact node_graph_well_formed|].
    apply Htotal. intros check s v' p Hin. apply elem_of_nil in Hin. destruct Hin.
  - apply (Heditor (Some mount) opts fresh
             [LoaderResolved (Schema [Ref node_uri]) node_table] nested_value).
    + vm_compute; reflexivity.
    + constructor; [exact node_graph_well_formed | constructor].
    + vm_compute; reflexivity.
Defined.

(** C5 at a ready instance with a change pending: after [destroy], the
    window's callbacks and a late loader callback leave it cleared. *)
Lemma destroyed_callbacks_inert_witness :
  (same_instance
     (run host defs (fun s => s) each_in_order
        [AnimationFrame; AnimationFrame; LoaderResolved number_schema ∅]
        (fst (Editor.destroy (run host defs (fun s => s) each_in_order [CallOnChange] ready_session))))
     (fst (Editor.destroy (run host defs (fun s => s) each_in_order [CallOnChange] ready_session))) ∧
   cleared
     (run host defs (fun s => s) each_in_order
        [AnimationFrame; AnimationFrame; LoaderResolved number_schema ∅]
        (fst (Editor.destroy (run host defs (fun s => s) each_in_order [CallOnChange] ready_session))))) ∧
  Editor.destroy fresh = (fresh, Normal tt).
Proof.
  destruct (destroyed_callbacks_inert (R := plain_root) host defs (fun s => s) each_in_order)
    as (Hinert & Hignored).
  split.
  - apply (Hinert (run host defs (fun s => s) each_in_order [CallOnChange] ready_session)
             (PlainRoot (JStr "start")
                [Error [] "type" "value is not of an allowed type"])
             [AnimationFrame; AnimationFrame; LoaderResolved number_schema ∅]);
      vm_compute; reflexivity.
  - apply (Hignored fresh). vm_compute; reflexivity.
Defined.

(** C5 as stated fails on the code: [destroy] called before the loader
    has called back does nothing, and the loader's callback then makes
    the editor ready: it is not a no-op. *)
Lemma destroy_before_resolution_ignored :
  let e1 := step host defs (fun s => s) each_in_order CallDestroy fresh in
  let e2 := step host defs (fun s => s) each_in_order (LoaderResolved number_schema ∅) e1 in
  e1 = fresh ∧ destroyed e1 = false ∧
  ready e2 = true ∧ is_Some (validator e2) ∧ frames e2 = [ReadyFrame] ∧ e2 ≠ e1.
Proof.
  split_and!.
  - vm_compute; reflexivity.
  - vm_compute; reflexivity.
  - vm_compute; reflexivity.
  - vm_compute. by eexists.
  - vm_compute; reflexivity.
  - intros Heq. apply (f_equal ready) in Heq. vm_compute in Heq. discriminate Heq.
Qed.

(** C6 at two recursions that agree everywhere, and at the run on the
    nested example started below the path [["root"]]. *)
Lemma error_paths_witness :
  validate_node (fun _ _ => true) (fun _ => None) ∅ []
    (fun _ _ _ => Returned []) nested_schema nested_value [] =
  validate_node (fun _ _ => true) (fun _ => None) ∅ []
    (fun _ _ _ => Returned []) nested_schema nested_value [] ∧
  errors_under [Key "root"]
    [Error [Key "root"; Key "a"; Key "b"] "type" "value is not of an allowed type"].
Proof.
  destruct error_paths as (_ & Hdescent & Hunder & _).
  split.
  - apply (Hdescent (fun _ _ => true) (fun _ => None) ∅ []
             (fun _ _ _ => Returned []) (fun _ _ _ => Returned [])
             nested_schema nested_value []); reflexivity.
  - apply (Hunder (fun _ _ => true) (fun _ => None) ∅ [] 3
             nested_schema nested_value [Key "root"]).
    + intros check s v p es Hin. apply elem_of_nil in Hin. destruct Hin.
    + vm_compute; reflexivity.
Defined.

(** C7 at a value that no branch accepts: the run of the node on [-1]
    holds the synthetic error and the error of each of the two
    branches. *)
Lemma one_of_errors_witness :
  Error [] "oneOf" "value matches no branch" ∈
    [Error [] "oneOf" "value matches no branch";
     Error [] "type" "value is not of an allowed type";
     Error [] "minimum" "value is below the minimum"] ∧
  Error [] "minimum" "value is below the minimum" ∈
    [Error [] "oneOf" "value matches no branch";
     Error [] "type" "value is not of an allowed type";
     Error [] "minimum" "value is below the minimum"].
Proof.
  destruct one_of_errors as (Hrule & _).
  destruct (Hrule (fun _ _ => true) (fun _ => None) ∅ [] 1 no_branch_schema (JNum (-1)) []
              [Schema [Type_ [KString]]; Schema [Minimum 0]]
              [Error [] "oneOf" "value matches no branch";
               Error [] "type" "value is not of an allowed type";
               Error [] "minimum" "value is below the minimum"])
    as (branches & reported & Hbranches & _ & _ & Hnone & _);
    [vm_compute; reflexivity..|].
  apply Forall2_cons_inv_l in Hbranches as (b1 & rest & Hb1 & Hrest & ->).
  apply Forall2_cons_inv_l in Hrest as (b2 & rest' & Hb2 & Hnil & ->).
  apply Forall2_nil_inv_l in Hnil as ->.
  vm_compute in Hb1, Hb2. injection Hb1 as <-. injection Hb2 as <-.
  destruct Hnone as (_ & Hsynthetic & Hdetail).
  - intros b Hb. apply elem_of_cons in Hb as [->|Hb]; [discriminate|].
    apply list_elem_of_singleton in Hb as ->. discriminate.
  - split; [exact Hsynthetic|].
    apply (Hdetail [Error [] "minimum" "value is below the minimum"]).
    + right. left.
    + left.
Defined.

(** C3 and C4 at the state in which the one external document has
    arrived. *)
Lemma arrived_reachable :
  Loader.reachable Loader.plain_canonical root_uri root_doc arrived.
Proof. apply Loader.reachable_complete, Loader.reachable_load. Qed.


Lemma single_flight_witness :
  NoDup (Loader.fetched arrived) ∧ Loader.fetched arrived = [defs_uri].
Proof.
  destruct (single_flight Loader.plain_canonical root_uri root_doc arrived
              arrived_reachable) as (Hnodup & _).
  split; [exact Hnodup | vm_compute; reflexivity].
Defined.

(** Listeners survive [destroy]. *)
Lemma listeners_kept_witness :
  callbacks (run host defs (fun s => s) each_in_order [CallSetValue (JNum 1); CallDestroy] listening) =
    callbacks listening ∧
  ∀ event,
    listeners event
      (run host defs (fun s => s) each_in_order [CallSetValue (JNum 1); CallDestroy] listening) =
    listeners event listening.
Proof.
  apply (listeners_kept host defs (fun s => s) each_in_order [CallSetValue (JNum 1); CallDestroy]
           listening).
  vm_compute; reflexivity.
Defined.

(** Setting a value, changing an option and registering a listener
    invoke nobody. *)
Lemma listeners_run_in_frames_witness :
  fired (run host defs (fun s => s) each_in_order
           [CallSetValue (JNum 1); CallSetOption "show_errors" "always"; CallOnChange]
           listening) =
  fired listening.
Proof.
  apply (listeners_run_in_frames host defs (fun s => s) each_in_order
           [CallSetValue (JNum 1); CallSetOption "show_errors" "always"; CallOnChange]
           listening).
  vm_compute; reflexivity.
Defined.

(** The clipboard outlives [destroy]. *)
Lemma clipboard_kept_witness :
  getCopyClipboardContents
    (run host defs (fun s => s) each_in_order [CallSetValue (JNum 1); CallDestroy]
       (fst (setCopyClipboardContents (JNum 7) ready_session))) =
  (run host defs (fun s => s) each_in_order [CallSetValue (JNum 1); CallDestroy]
     (fst (setCopyClipboardContents (JNum 7) ready_session)),
   Normal (Some (JNum 7))).
Proof.
  destruct (clipboard_kept (R := plain_root) host defs (fun s => s) each_in_order
              [CallSetValue (JNum 1); CallDestroy]) as [Hset _].
  - vm_compute; reflexivity.
  - apply (Hset ready_session (JNum 7)).
Defined.

(** A frame and a change of option leave the graph of a ready instance
    as it is. *)
Lemma configuration_fixed_witness :
  ready (run host defs (fun s => s) each_in_order
           [AnimationFrame; CallSetOption "show_errors" "never"] listening) =
    ready listening ∧
  destroyed (run host defs (fun s => s) each_in_order
               [AnimationFrame; CallSetOption "show_errors" "never"] listening) =
    destroyed listening ∧
  validator (run host defs (fun s => s) each_in_order
               [AnimationFrame; CallSetOption "show_errors" "never"] listening) =
    validator listening ∧
  schema (run host defs (fun s => s) each_in_order
            [AnimationFrame; CallSetOption "show_errors" "never"] listening) =
    schema listening ∧
  element (run host defs (fun s => s) each_in_order
             [AnimationFrame; CallSetOption "show_errors" "never"] listening) =
    element listening ∧
  theme (run host defs (fun s => s) each_in_order
           [AnimationFrame; CallSetOption "show_errors" "never"] listening) =
    theme listening.
Proof.
  apply (configuration_fixed host defs (fun s => s) each_in_order
           [AnimationFrame; CallSetOption "show_errors" "never"] listening).
  vm_compute; reflexivity.
Defined.

(** A callback registered twice for [change] is removed twice; the
    listener of [ready] stays. *)
Lemma off_removes_callback_witness :
  listeners "change"
    (fst (off (named "change") (Some 1)
            (run host defs (fun s => s) each_in_order [CallOn "change" 1] listening))) = [3] ∧
  listeners "ready"
    (fst (off (named "change") (Some 1)
            (run host defs (fun s => s) each_in_order [CallOn "change" 1] listening))) = [2].
Proof.
  destruct (off_removes_callback "change" 1
              (run host defs (fun s => s) each_in_order [CallOn "change" 1] listening))
    as (Hrest & _ & Hother).
  - discriminate.
  - vm_compute; reflexivity.
  - split.
    + rewrite Hrest. vm_compute; reflexivity.
    + rewrite (Hother "ready") by discriminate. vm_compute; reflexivity.
Defined.

(** [off("change")] silences [change] and leaves [ready]. *)
Lemma off_without_callback_witness :
  listeners "change" (fst (off (named "change") None listening)) = [] ∧
  listeners "ready" (fst (off (named "change") None listening)) = [2].
Proof.
  destruct (off_without_callback listening) as [Hevent _].
  destruct (Hevent "change") as [Hnone Hother].
  - discriminate.
  - vm_compute; reflexivity.
  - split; [exact Hnone|].
    rewrite (Hother "ready") by discriminate. vm_compute; reflexivity.
Defined.

(** Three calls of [onChange] and a change of option in a row leave one
    change frame waiting. *)
Lemma changes_coalesced_witness :
  pending_changes
    (run host defs (fun s => s) each_in_order
       [LoaderResolved number_schema ∅; CallOnChange; CallOnChange;
        CallSetOption "show_errors" "always"; CallOnChange] fresh) = 1.
Proof.
  destruct (changes_coalesced host defs (fun s => s) each_in_order (Some mount) opts fresh
              [LoaderResolved number_schema ∅; CallOnChange; CallOnChange;
               CallSetOption "show_errors" "always"; CallOnChange])
    as [Hone _].
  - vm_compute; reflexivity.
  - rewrite Hone. vm_compute; reflexivity.
Defined.

(** With [show_errors] set to [never] the root is shown no error,
    [validate()] reports the error of the start value, and the one
    listener of [change], which returns, is invoked. *)
Lemma hidden_errors_reported_witness :
  root (fst (change_pass host hiding)) = Some (PlainRoot (JStr "start") []) ∧
  Editor.validate host [] (fst (change_pass host hiding)) =
    (fst (change_pass host hiding), Normal (Some [start_error])) ∧
  fired (step host defs (fun s => s) each_in_order AnimationFrame hiding) =
    fired hiding ++ [("change", 1)].
Proof.
  destruct (hidden_errors_reported host defs (fun s => s) each_in_order returning hiding
              (Validator number_schema ∅ []) (PlainRoot (JStr "start") [start_error])
              (Options (JObj [("type", JStr "number")]) (Some (JStr "start")) None "never"
                 None None None)
              [start_error])
    as (Hpass & Hvalidate & _ & Hinert); [vm_compute; reflexivity..|].
  rewrite Hpass. split; [vm_compute; reflexivity|]. split; [exact Hvalidate|].
  destruct (Hinert (fun cb _ e => eq_refl) 2) as [_ Hstep]; [vm_compute; lia|].
  destruct (Hstep []) as [-> _]; vm_compute; reflexivity.
Defined.

(** The first frame of the listening instance, whose listener of
    [ready] throws: the frame ends there and the two listeners of
    [change] are not invoked. *)
Lemma ready_frame_fires_witness :
  ready_frame_with host throwing 3 listening =
  Some (set_fired [("ready", 2)] (fst (ready_pass host listening)),
        Throw (JsError "listener")).
Proof.
  destruct (ready_frame_fires host defs (fun s => s) each_in_order throwing listening)
    as [_ Hfires].
  destruct (Hfires (Validator number_schema ∅ [])
              (PlainRoot (JStr "start") [start_error]) [start_error])
    as (_ & Hthrows & _); [vm_compute; reflexivity..|].
  apply (Hthrows 3 [] 2 [] (JsError "listener")).
  - vm_compute; reflexivity.
  - intros c Hc. by apply elem_of_nil in Hc.
  - vm_compute; reflexivity.
  - simpl. lia.
Defined.

(** The loader's callback on the fresh instance runs to its end. *)
Lemma on_resolved_ready_witness :
  ready (fst (on_resolved host defs (fun s => s) each_in_order number_schema ∅ fresh)) = true ∧
  frames (fst (on_resolved host defs (fun s => s) each_in_order number_schema ∅ fresh)) =
    frames fresh ++ [ReadyFrame] ∧
  is_Some (validation_results
             (fst (on_resolved host defs (fun s => s) each_in_order number_schema ∅ fresh))).
Proof.
  destruct (on_resolved_ready host defs (fun s => s) each_in_order number_schema ∅ fresh)
    as [Hdone _].
  - vm_compute; reflexivity.
  - apply Hdone. vm_compute; reflexivity.
Defined.

(** The theme cannot be changed later. *)
Lemma setOption_effect_witness :
  setOption "theme" "html" listening =
  (listening,
   Throw (JsError ("Option " +:+ "theme" +:+
                   " must be set during instantiation and cannot be changed later"))).
Proof.
  destruct (setOption_effect listening "html") as [Hrefused _].
  apply (Hrefused "theme"). discriminate.
Defined.

(** Of five resolvers the fourth decides: the first answers nothing,
    the second names a class that is not registered, the third answers
    the empty name, and the fifth is not reached. *)
Lemma getEditorClass_first_match_witness :
  ∃ pre resolver post cls,
    resolvers defs_many = pre ++ resolver :: post ∧ length pre = 3 ∧
    resolver number_schema = Some "plain" ∧
    editors defs_many !! "plain" = Some cls ∧
    snd (getEditorClass host defs_many (fun s => s) each_in_order number_schema fresh) =
      Normal cls.
Proof.
  destruct (getEditorClass_first_match host defs_many (fun s => s) each_in_order
              number_schema fresh)
    as [_ [(pre & resolver & post & name & cls & Hrs & Hr & Hname & Hreg & Hpre & Hcls)
          |[Hnone _]]].
  - intros A St l f s0. reflexivity.
  - intros r n Hin Hn. unfold defs_many in Hin. cbn [resolvers] in Hin.
    repeat (apply elem_of_cons in Hin as [->|Hin];
            [try discriminate Hn; injection Hn as <-; reflexivity|]).
    by apply elem_of_nil in Hin.
  - unfold defs_many in Hrs. cbn [resolvers] in Hrs.
    destruct pre as [|r1 [|r2 [|r3 [|r4 [|r5 pre]]]]]; simpl in Hrs.
    + injection Hrs as <- _. discriminate Hr.
    + injection Hrs as _ <- _. injection Hr as <-.
      vm_compute in Hreg. discriminate Hreg.
    + injection Hrs as _ _ <- _. injection Hr as <-. by destruct Hname.
    + injection Hrs as <- <- <- <- <-. injection Hr as <-.
      exists [fun _ => None; fun _ => Some "missing"; fun _ => Some ""],
        (fun _ => Some "plain"), [fun _ => Some "other"], cls.
      by split_and!.
    + injection Hrs as _ _ _ <- _.
      destruct (Hpre (fun _ => Some "plain") "plain") as [Hempty|Hmissing].
      * apply list_elem_of_In. simpl. tauto.
      * reflexivity.
      * discriminate Hempty.
      * vm_compute in Hmissing. discriminate Hmissing.
    + destruct pre; discriminate Hrs.
  - exfalso.
    destruct (Hnone (fun _ => Some "plain") "plain") as [Hempty|Hmissing].
    + apply list_elem_of_In. simpl. tauto.
    + reflexivity.
    + discriminate Hempty.
    + vm_compute in Hmissing. discriminate Hmissing.
Defined.

(** The destroyed instance stays cleared when a listener is registered,
    an option is set and the loader calls back once more. *)
Lemma destroyed_is_final_witness :
  cleared (run host defs (fun s => s) each_in_order
             [CallOn "change" 1; CallSetOption "show_errors" "never";
              LoaderResolved number_schema ∅; AnimationFrame] gone).
Proof.
  destruct (destroyed_is_final host defs (fun s => s) each_in_order gone
              [CallOn "change" 1; CallSetOption "show_errors" "never";
               LoaderResolved number_schema ∅; AnimationFrame]) as [Hcleared _].
  - vm_compute. by repeat split.
  - exact Hcleared.
Defined.


(** After the loader's callback, the first frame and a change of value
    the instance is whole. *)
Lemma ready_is_whole_witness :
  destroyed (run host defs (fun s => s) each_in_order
               [LoaderResolved number_schema ∅; AnimationFrame; CallSetValue (JNum 1)]
               fresh) = false ∧
  cleared (fst (destroy
                  (run host defs (fun s => s) each_in_order
                     [LoaderResolved number_schema ∅; AnimationFrame;
                      CallSetValue (JNum 1)] fresh))).
Proof.
  destruct (ready_is_whole host defs (fun s => s) each_in_order (Some mount) opts fresh
              [LoaderResolved number_schema ∅; AnimationFrame; CallSetValue (JNum 1)])
    as [Hready _]; [vm_compute; reflexivity|].
  destruct Hready as (Halive & _ & _ & Hcleared & _); [vm_compute; reflexivity|].
  split; [exact Halive | exact Hcleared].
Defined.

(** Before the loader has called back, and after [destroy]. *)
Lemma switch_without_root_witness :
  isEnabled (run host defs (fun s => s) each_in_order [CallOnChange] fresh) =
    (run host defs (fun s => s) each_in_order [CallOnChange] fresh, Normal true) ∧
  enable (run host defs (fun s => s) each_in_order [CallOnChange] gone) =
    (run host defs (fun s => s) each_in_order [CallOnChange] gone, Throw (TypeError "root")).
Proof.
  destruct (switch_without_root (R := plain_root) host defs (fun s => s) each_in_order [CallOnChange])
    as [Hfresh Hgone].
  split.
  - apply (Hfresh (Some mount) opts fresh); vm_compute; reflexivity.
  - apply (Hgone gone). vm_compute. by repeat split.
Defined.

(** A value written on an element that carries a foreign mark is read
    back. *)
Lemma data_round_trip_witness :
  Tables._data html_attribute 4 "uuid" []
    (fst (Tables._data html_attribute 4 "uuid" [JNum 1] marked)) =
  (fst (Tables._data html_attribute 4 "uuid" [JNum 1] marked),
   Normal (Tables.Val (JNum 1))).
Proof.
  destruct (data_round_trip html_attribute 4 "uuid" (JNum 1) marked
              ∅ "data-jsoneditor-uuid") as (_ & Hread & _).
  - reflexivity.
  - reflexivity.
  - intros u Hu. vm_compute in Hu. injection Hu as <-. reflexivity.
  - exact Hread.
Defined.

(** Two values on one element and one on another: the last one written
    for the element and the key is read. *)
Lemma data_is_a_map_witness :
  snd (Tables._data html_attribute 4 "a" []
         (Tables.data_run html_attribute
            [Tables.SetData 4 "a" (JNum 1); Tables.SetData 5 "a" (JNum 2);
             Tables.SetData 4 "b" (JNum 3); Tables.SetData 4 "a" (JNum 4)]
            (Tables.new_store classed))) =
  Normal (Tables.Val (JNum 4)).
Proof.
  rewrite (data_is_a_map html_attribute
             [Tables.SetData 4 "a" (JNum 1); Tables.SetData 5 "a" (JNum 2);
              Tables.SetData 4 "b" (JNum 3); Tables.SetData 4 "a" (JNum 4)]
             classed 4 "a" "data-jsoneditor-a").
  - vm_compute; reflexivity.
  - intros el m a Hm [key Hkey]. injection Hkey as <-.
    unfold classed in Hm. apply lookup_singleton_Some in Hm as [_ <-].
    apply lookup_singleton_ne. discriminate.
  - reflexivity.
Defined.

(** Three registrations on the ready instance, two of them for
    [change], by listeners that return. *)
Lemma listeners_in_order_witness :
  trigger_with returning 3 "change"
    (run host defs (fun s => s) each_in_order
       (map (fun r => CallOn (fst r) (snd r))
          [("change", 1); ("ready", 2); ("change", 3)])
       ready_session) =
  Some (set_fired [("change", 1); ("change", 3)]
          (run host defs (fun s => s) each_in_order
             (map (fun r => CallOn (fst r) (snd r))
                [("change", 1); ("ready", 2); ("change", 3)])
             ready_session),
        Normal tt).
Proof.
  destruct (listeners_in_order host defs (fun s => s) each_in_order returning
              [("change", 1); ("ready", 2); ("change", 3)] "change" ready_session)
    as [_ Hfired]; [vm_compute; reflexivity..|].
  rewrite (Hfired (fun cb _ e => eq_refl) 3).
  - vm_compute; reflexivity.
  - vm_compute. lia.
Defined.

(** Of the listeners 4, 1, 3 and 5 of [change] the second removes
    itself: 4, 1 and 5 are invoked, 3 is passed over and stays
    registered. *)
Lemma trigger_passes_over_witness :
  trigger_with removing 5 "change" crowd =
  Some (set_fired [("change", 4); ("change", 1); ("change", 5)]
          (set_callbacks (<["change" := [4; 3; 5]]> (callbacks crowd)) crowd),
        Normal tt).
Proof.
  rewrite (trigger_passes_over removing "change" crowd [4] 1 3 [5] 5).
  - vm_compute; reflexivity.
  - discriminate.
  - vm_compute; reflexivity.
  - vm_compute; reflexivity.
  - intros Hin. apply list_elem_of_singleton in Hin. discriminate Hin.
  - discriminate.
  - intros e'. reflexivity.
  - intros c _ Hne e'. unfold removing. destruct (decide (c = 1)); [by destruct Hne|done].
  - simpl. lia.
Defined.

(** Two editors registered at one path, then a third with this path
    unregistered. *)
Lemma getEditor_last_call_witness :
  Tables.getEditor "root.a"
    (Tables.registry_run widget_path
       [Tables.Register (Widget "root.a" 1); Tables.Register (Widget "root.a" 2)]
       None) = Tables.Val (Widget "root.a" 2) ∧
  Tables.getEditor "root.a"
    (Tables.registry_run widget_path
       [Tables.Register (Widget "root.a" 1); Tables.Register (Widget "root.a" 2);
        Tables.Unregister (Widget "root.a" 3)]
       None) = Tables.Null.
Proof.
  split.
  - rewrite (getEditor_last_call widget_path
               [Tables.Register (Widget "root.a" 1); Tables.Register (Widget "root.a" 2)]
               "root.a" None); vm_compute; reflexivity.
  - rewrite (getEditor_last_call widget_path
               [Tables.Register (Widget "root.a" 1); Tables.Register (Widget "root.a" 2);
                Tables.Unregister (Widget "root.a" 3)]
               "root.a" None); vm_compute; reflexivity.
Defined.

(** A callback watching a path twice is removed twice. *)
Lemma notified_by_path_witness :
  ∃ r,
    Tables.notifyWatchers staying 2 "root.a"
      (Tables.watch_run
         [Tables.Watch "root.a" 1; Tables.Watch "root.b" 2; Tables.Watch "root.a" 3;
          Tables.Watch "root.a" 1; Tables.Unwatch "root.a" (Some 1)]
         None) =
    Some (Tables.watch_run
            [Tables.Watch "root.a" 1; Tables.Watch "root.b" 2; Tables.Watch "root.a" 3;
             Tables.Watch "root.a" 1; Tables.Unwatch "root.a" (Some 1)]
            None,
          [3], Normal r).
Proof.
  destruct (notified_by_path staying
              [Tables.Watch "root.a" 1; Tables.Watch "root.b" 2; Tables.Watch "root.a" 3;
               Tables.Watch "root.a" 1; Tables.Unwatch "root.a" (Some 1)]
              "root.a" None)
    as [_ Hcalled]; [vm_compute; reflexivity..|].
  destruct (Hcalled (fun cb _ w => eq_refl) 2) as [r Hr]; [vm_compute; lia|].
  exists r. rewrite Hr. vm_compute; reflexivity.
Defined.

(** A watcher that is alone on its path and unwatches itself: the call
    ends in a TypeError. *)
Lemma notifyWatchers_returns_witness :
  Tables.notifyWatchers leaving 2 "root.a"
    (Tables.watch_run [Tables.Watch "root.a" 1] None) =
  Some (Tables.unwatch "root.a" (Some 1)
          (Tables.watch_run [Tables.Watch "root.a" 1] None),
        [1], Throw (TypeError "watchlist[path]")).
Proof.
  destruct (notifyWatchers_returns leaving [Tables.Watch "root.a" 1] "root.a")
    as (_ & _ & Hedge); [vm_compute; reflexivity..|].
  apply (Hedge 1 0); vm_compute; reflexivity.
Defined.

(** The default engine compiles; [No template engine set] is not the
    Error of the preset without its library. *)
Lemma compileTemplate_result_witness :
  Templates.compileTemplate engines (Templates.Preset "default") "{{x}}" None =
    Normal "{{x}}" ∧
  Templates.compileTemplate engines (Templates.Preset "default") "{{x}}"
    (Some (Templates.Preset "mustache")) ≠
    Throw (JsError "No template engine set").
Proof.
  split.
  - destruct (compileTemplate_result engines (Templates.Preset "default") "{{x}}" None)
      as [Hcompiled _]; [by intros n [= <-]|].
    apply Hcompiled.
    exists (Templates.Engine (Some (fun template => template))), (fun template => template).
    split; [|split; reflexivity].
    right. exists "default". split; [reflexivity | vm_compute; reflexivity].
  - destruct (compileTemplate_result engines (Templates.Preset "default") "{{x}}"
                (Some (Templates.Preset "mustache"))) as [_ Hunset];
      [by intros n [= <-]|].
    intros Hthrown. apply Hunset in Hthrown. discriminate Hthrown.
Defined.

End DemoFacts.
